(** * LSMR (torchmin, [fmin/lstsq/lsmr.py]): a shallow embedding

    The solver works on torch tensors.  Its control flow, its effects
    (in-place tensor updates, operator calls, printed lines) and its
    rotation primitive are embedded once, over an abstract signature of
    scalar arithmetic ([Sc.Ops]).  Two interpretations of the signature are
    given:

    - [ereal]: exact real arithmetic with the IEEE special values
      (+inf, -inf, NaN) that tensor division and [masked_fill] produce;
    - [float64]: binary64 arithmetic, the kernel's primitive floats, on
      which every definition computes.
*)

From Stdlib Require Import Reals ZArith Bool String Lia Lra Psatz.
From Stdlib Require Import List.
From Stdlib Require PrimFloat Uint63.
Import ListNotations.

Set Implicit Arguments.

(** ** Scalar arithmetic: the operations the source applies to 0-dim tensors *)

Module Sc.

Class Ops (T : Type) := {
  zero : T;
  one : T;
  inf : T;                    (* float('inf') *)
  lit_0_99 : T;               (* the literal 0.99 *)
  lit_1_1 : T;                (* the literal 1.1 *)
  finfo_max : T;              (* torch.finfo(dtype).max *)
  add : T -> T -> T;
  sub : T -> T -> T;
  mul : T -> T -> T;
  div : T -> T -> T;
  neg : T -> T;
  sqrt : T -> T;              (* torch.sqrt *)
  abs : T -> T;               (* Tensor.abs *)
  sign : T -> T;              (* Tensor.sign: 0 at 0 *)
  max : T -> T -> T;          (* torch.max of two 0-dim tensors *)
  min : T -> T -> T;          (* torch.min of two 0-dim tensors *)
  gtb : T -> T -> bool;       (* > *)
  leb : T -> T -> bool;       (* <= *)
  eqb : T -> T -> bool        (* == *)
}.

End Sc.

Declare Scope sc_scope.
Delimit Scope sc_scope with sc.
Notation "x + y" := (Sc.add x y) : sc_scope.
Notation "x - y" := (Sc.sub x y) : sc_scope.
Notation "x * y" := (Sc.mul x y) : sc_scope.
Notation "x / y" := (Sc.div x y) : sc_scope.
Notation "- x" := (Sc.neg x) : sc_scope.
Notation "x >? y" := (Sc.gtb x y) : sc_scope.
Notation "x <=? y" := (Sc.leb x y) : sc_scope.
Notation "x =? y" := (Sc.eqb x y) : sc_scope.

(** ** The rotation primitive *)

Section SymOrtho.
Context {T : Type} {ops : Sc.Ops T}.
Local Open Scope sc_scope.
Import Sc.

(** [Tensor.square] *)
Definition square (x : T) : T := x * x.

(** [torch.where] on 0-dim tensors *)
Definition torch_where (cond : bool) (x y : T) : T := if cond then x else y.

(** [_sym_ortho(a, b)], lines 30-62: the default branch is computed
    first and overwritten under the masks [case1], [case2], [case3]. *)
Definition _sym_ortho (a b : T) : T * T * T :=
  let a_sign := sign a in
  let b_sign := sign b in
  let a_abs := abs a in
  let b_abs := abs b in
  let tau := b / a in
  let c := a_sign / sqrt (one + square tau) in
  let s := c * tau in
  let r := a / c in
  (* case 1 *)
  let case1 := b =? zero in
  let c := torch_where case1 a_sign c in
  let s := torch_where case1 zero s in
  let r := torch_where case1 a_abs r in
  let stop := case1 in
  (* case 2 *)
  let case2 := andb (a =? zero) (negb stop) in
  let c := torch_where case2 zero c in
  let s := torch_where case2 b_sign s in
  let r := torch_where case2 b_abs r in
  let stop := orb stop case2 in
  (* case 3 *)
  let case3 := andb (b_abs >? a_abs) (negb stop) in
  let s := torch_where case3 (b_sign / sqrt (one + one / square tau)) s in
  let c := torch_where case3 (s / tau) c in
  let r := torch_where case3 (b / s) r in
  (c, s, r).

End SymOrtho.

(** ** Tensors, the object store and the effects of the driver *)

(** A 1-D tensor is a list of scalars; the caller's and the driver's
    tensors live in a store and are named by locations, so that in-place
    updates ([u *= c], [x += w]) and aliasing ([u = b], [x = x0]) are
    what they are in the source.  A location names the storage of a
    tensor: two tensors of the caller that occupy the same storage ([b]
    and [b.detach()] or [b.view(-1)]) are one location, and two
    locations never overlap.  Arguments that share only a part of their
    storage ([x0 = b[:n]] with [n < m]) are not represented. *)
Definition loc := nat.

Section Model.
Context {T : Type} {ops : Sc.Ops T}.
Local Open Scope sc_scope.
Import Sc.

(** [Tensor.norm()] of a 1-D tensor: the 2-norm.  Of a tensor with one
    element torch returns the absolute value, without squaring it (so
    that no overflow or underflow occurs there); otherwise the square
    root of the sum of the squares. *)
Definition vnorm (v : list T) : T :=
  match v with
  | [a] => abs a
  | _ => sqrt (fold_left (fun acc a => acc + a * a) v zero)
  end.

(** [b.new_zeros(n)] *)
Definition zeros (n : nat) : list T := repeat zero n.

Fixpoint map2 (f : T -> T -> T) (u w : list T) : list T :=
  match u, w with
  | a :: u', b :: w' => f a b :: map2 f u' w'
  | _, _ => []
  end.

(** Out-of-place elementwise operation with torch broadcasting of 1-D
    shapes: equal lengths, or one side of length 1; otherwise torch
    raises a RuntimeError ([None]). *)
Definition broadcast2 (f : T -> T -> T) (u w : list T) : option (list T) :=
  if Nat.eqb (length u) (length w) then Some (map2 f u w)
  else match u, w with
       | _, [b] => Some (map (fun a => f a b) u)
       | [a], _ => Some (map (f a) w)
       | _, _ => None
       end.

(** In-place elementwise operation: the result must have the shape of
    the left operand. *)
Definition inplace2 (f : T -> T -> T) (u w : list T) : option (list T) :=
  if Nat.eqb (length u) (length w) then Some (map2 f u w)
  else match w with
       | [b] => Some (map (fun a => f a b) u)
       | _ => None
       end.

Fixpoint update (l : nat) (v : list T) (h : list (list T)) : list (list T) :=
  match h, l with
  | [], _ => []
  | _ :: h', O => v :: h'
  | c :: h', S l' => c :: update l' v h'
  end.

(** Exceptions the modelled code can raise *)
Inductive exn :=
| RuntimeError     (* shape mismatch in tensor arithmetic *)
| IndexError       (* x[0] on an empty tensor *)
| NameError        (* an unbound local variable *)
| OperatorError.   (* raised inside A.matvec / A.rmatvec *)

(** Operator applications, in call order, with the argument's value *)
Inductive call :=
| Matvec (arg : list T)
| Rmatvec (arg : list T).

(** Printed text: format strings are kept as written in the source,
    with the values they are applied to. *)
Inductive arg := AInt (z : Z) | ANum (t : T).
Inductive pystr :=
| Lit (s : string)
| Fmt (template : string) (args : list arg).
Inductive line :=
| Println (args : list pystr)      (* print(a, b, ...) *)
| PrintlnJoin (parts : list pystr). (* print(str.join of the parts) *)

Record world := World {
  heap : list (list T);         (* the tensors, by location *)
  calls : list call;            (* operator applications, oldest first *)
  out : list line               (* printed lines, oldest first *)
}.

Inductive res (A : Type) :=
| Ok (a : A) (w : world)
| Raise (e : exn) (w : world)
| OutOfFuel.
Arguments Raise {A} e w.
Arguments OutOfFuel {A}.
Arguments Ok {A} a w.

Definition M (A : Type) := world -> res A.

Definition ret {A} (a : A) : M A := fun w => Ok a w.
Definition bind {A B} (m : M A) (k : A -> M B) : M B :=
  fun w => match m w with
           | Ok a w' => k a w'
           | Raise e w' => Raise e w'
           | OutOfFuel => OutOfFuel
           end.
Definition raise {A} (e : exn) : M A := fun w => Raise e w.

(** creating a tensor *)
Definition alloc (v : list T) : M loc :=
  fun w => Ok (length (heap w))
              (World (heap w ++ [v]) (calls w) (out w)).
(** reading a tensor's value *)
Definition load (l : loc) : M (list T) :=
  fun w => Ok (nth l (heap w) []) w.
(** overwriting a tensor's value in place *)
Definition store (l : loc) (v : list T) : M unit :=
  fun w => Ok tt (World (update l v (heap w)) (calls w) (out w)).
(** [print(...)] *)
Definition print (ln : line) : M unit :=
  fun w => Ok tt (World (heap w) (calls w) (out w ++ [ln])).
Definition log_call (c : call) : M unit :=
  fun w => Ok tt (World (heap w) (calls w ++ [c]) (out w)).

Local Notation "x <- m ;; k" := (bind m (fun x => k))
  (at level 61, m at next level, right associativity).
Local Notation "m ;;; k" := (bind m (fun _ => k))
  (at level 61, right associativity).

(** *** The operator and the tensor operations of the driver *)

(** What [aslinearoperator(A)] returns ([linear_operator.py] is not part
    of the sources): a shape and the two products.  A product reads its
    argument, returns a new tensor and may raise ([None]). *)
Record LinearOperator := {
  shape : nat * nat;
  matvec : list T -> option (list T);
  rmatvec : list T -> option (list T)
}.

(** [A.matvec(x)] *)
Definition call_matvec (A : LinearOperator) (x : loc) : M loc :=
  xv <- load x ;;
  log_call (Matvec xv) ;;;
  match matvec A xv with
  | Some y => alloc y
  | None => raise OperatorError
  end.

(** [A.rmatvec(u)] *)
Definition call_rmatvec (A : LinearOperator) (u : loc) : M loc :=
  uv <- load u ;;
  log_call (Rmatvec uv) ;;;
  match rmatvec A uv with
  | Some y => alloc y
  | None => raise OperatorError
  end.

(** [u.norm()] *)
Definition norm (u : loc) : M T :=
  uv <- load u ;; ret (vnorm uv).

(** [c * u], a new tensor *)
Definition scaled (c : T) (u : loc) : M loc :=
  uv <- load u ;; alloc (map (fun a => c * a) uv).

(** [u - w], a new tensor *)
Definition minus (u w : loc) : M loc :=
  uv <- load u ;;
  wv <- load w ;;
  match broadcast2 sub uv wv with
  | Some r => alloc r
  | None => raise RuntimeError
  end.

(** [u *= c] *)
Definition imul (u : loc) (c : T) : M unit :=
  uv <- load u ;; store u (map (fun a => a * c) uv).

(** [u += w] *)
Definition iadd (u w : loc) : M unit :=
  uv <- load u ;;
  wv <- load w ;;
  match inplace2 add uv wv with
  | Some r => store u r
  | None => raise RuntimeError
  end.

(** [v.clone()] *)
Definition clone (v : loc) : M loc :=
  vv <- load v ;; alloc vv.

(** [x[0]] *)
Definition item0 (x : loc) : M T :=
  xv <- load x ;;
  match xv with
  | a :: _ => ret a
  | [] => raise IndexError
  end.

(** [if show: ...] around printing code *)
Definition when (c : bool) (m : M unit) : M unit :=
  if c then m else ret tt.

(** The local variables that live across loop passes and in the
    returned tuple.  The tensors [u], [v], [h], [hbar], [x] are
    locations; everything else is a 0-dim tensor or a Python number. *)
Record vars := Vars {
  itn : Z;
  u : loc; v : loc; h : loc; hbar : loc; x : loc;
  alpha : T; beta : T;
  zetabar : T; alphabar : T; rho : T; rhobar : T; cbar : T; sbar : T;
  betadd : T; betad : T; rhodold : T; tautildeold : T; thetatilde : T;
  zeta : T; d : T;
  normA2 : T; maxrbar : T; minrbar : T;
  normA : T; condA : T; normx : T; normr : T; normar : T
}.

(** The printing state: the print counter and the row strings *)
Record printer := Printer {
  pcount : Z;
  str1 : option pystr; str2 : option pystr;
  str3 : option pystr; str4 : option pystr
}.

(** The returned 7-tuple [(x, itn, normr, normar, normA, condA, normx)] *)
Definition result : Type := loc * Z * T * T * T * T * T.

Definition result_of (st : vars) : result :=
  (x st, itn st, normr st, normar st, normA st, condA st, normx st).

Definition msg0 : string :=
  "The exact solution is x = 0, or x = x0, if x0 was given   ".
Definition hdg1 : string := "   itn      x(1)       norm r    norm Ar".
Definition hdg2 : string := " compatible   LS      norm A   cond A".
Definition pfreq : Z := 20.

(** [Tensor.masked_fill(mask, value)] on a 0-dim tensor *)
Definition masked_fill (t : T) (mask : bool) (value : T) : T :=
  if mask then value else t.

(** The quantities of the convergence test, lines 362-380 *)
Record tests := Tests {
  test1 : T; test2 : T; test3 : T; t1 : T; rtol : T; stop : bool
}.

(** *** One pass of the main loop, without its printing: lines 264-380 *)

Section Pass.
Variable A : LinearOperator.
Variables damp atol btol : T.
Variable maxiter : Z.
Variables normb ctol : T.

(** The convergence test of a pass, lines 362-380 *)
Definition convergence_test (itn : Z) (normr normar normA normx condA : T)
  : tests :=
  let test1 := normr / normb in
  let test2 :=
    masked_fill (normar / (normA * normr)) (normA * normr =? zero) inf in
  let test3 := one / condA in
  let t1 := test1 / (one + normA * normx / normb) in
  let rtol := btol + atol * normA * normx / normb in
  (* guards against extremely small atol, btol or ctol *)
  let stop := (itn >=? maxiter)%Z || (one + test3 <=? one)
              || (one + test2 <=? one) || (one + t1 <=? one) in
  (* tolerances set by the user *)
  let stop := stop || (test3 <=? ctol) || (test2 <=? atol)
              || (test1 <=? rtol) || (itn >=? maxiter)%Z in
  Tests test1 test2 test3 t1 rtol stop.

Definition pass (st : vars) : M (vars * tests) :=
  let itn := (itn st + 1)%Z in
  (* next step of the bidiagonalization *)
  imul (u st) (- alpha st) ;;;
  t <- call_matvec A (v st) ;;
  iadd (u st) t ;;;
  beta <- norm (u st) ;;
  alpha <- (if beta >? zero then
              imul (u st) (one / beta) ;;;
              imul (v st) (- beta) ;;;
              t <- call_rmatvec A (u st) ;;
              iadd (v st) t ;;;
              alpha <- norm (v st) ;;
              when (alpha >? zero) (imul (v st) (one / alpha)) ;;;
              ret alpha
            else ret (alpha st)) ;;
  (* rotation Qhat_{k,2k+1} *)
  let '(chat, shat, alphahat) := _sym_ortho (alphabar st) damp in
  (* plane rotation Q_i turning B_i into R_i *)
  let rhoold := rho st in
  let '(c, s, rho) := _sym_ortho alphahat beta in
  let thetanew := s * alpha in
  let alphabar := c * alpha in
  (* plane rotation Qbar_i turning R_i^T into R_i^bar *)
  let rhobarold := rhobar st in
  let zetaold := zeta st in
  let thetabar := sbar st * rho in
  let rhotemp := cbar st * rho in
  let '(cbar, sbar, rhobar) := _sym_ortho (cbar st * rho) thetanew in
  let zeta := cbar * zetabar st in
  let zetabar := - sbar * zetabar st in
  (* update h, h_hat, x *)
  imul (hbar st) (- (thetabar * rho / (rhoold * rhobarold))) ;;;
  iadd (hbar st) (h st) ;;;
  t <- scaled (zeta / (rho * rhobar)) (hbar st) ;;
  iadd (x st) t ;;;
  imul (h st) (- (thetanew / rho)) ;;;
  iadd (h st) (v st) ;;;
  (* estimate of ||r||: rotation Qhat_{k,2k+1} *)
  let betaacute := chat * betadd st in
  let betacheck := - shat * betadd st in
  (* rotation Q_{k,k+1} *)
  let betahat := c * betaacute in
  let betadd := - s * betaacute in
  (* rotation Qtilde_{k-1} *)
  let thetatildeold := thetatilde st in
  let '(ctildeold, stildeold, rhotildeold) :=
    _sym_ortho (rhodold st) thetabar in
  let thetatilde := stildeold * rhobar in
  let rhodold := ctildeold * rhobar in
  let betad := - stildeold * betad st + ctildeold * betahat in
  let tautildeold :=
    (zetaold - thetatildeold * tautildeold st) / rhotildeold in
  let taud := (zeta - thetatilde * tautildeold) / rhodold in
  let d := d st + betacheck * betacheck in
  let normr := sqrt (d + square (betad - taud) + betadd * betadd) in
  (* estimate ||A|| *)
  let normA2 := normA2 st + beta * beta in
  let normA := sqrt normA2 in
  let normA2 := normA2 + alpha * alpha in
  (* estimate cond(A) *)
  let maxrbar := max (maxrbar st) rhobarold in
  let minrbar :=
    torch_where (itn >? 1)%Z (min (minrbar st) rhobarold) (minrbar st) in
  let condA := max maxrbar rhotemp / min minrbar rhotemp in
  (* norms for the convergence test *)
  let normar := abs zetabar in
  normx <- norm (x st) ;;
  ret (Vars itn (u st) (v st) (h st) (hbar st) (x st)
            alpha beta
            zetabar alphabar rho rhobar cbar sbar
            betadd betad rhodold tautildeold thetatilde
            zeta d
            normA2 maxrbar minrbar
            normA condA normx normr normar,
       convergence_test itn normr normar normA normx condA).

(** *** The progress row of a pass: lines 384-399 (under [if show]) *)
Variable n : nat.

Definition report (st : vars) (ts : tests) (pr : printer) : M printer :=
  if (n <=? 40)%nat || (itn st <=? 10)%Z || (itn st >=? maxiter - 10)%Z
     || (itn st mod 10 =? 0)%Z || (test3 ts <=? lit_1_1 * ctol)
     || (test2 ts <=? lit_1_1 * atol) || (test1 ts <=? lit_1_1 * rtol ts)
     || stop ts
  then
    pcount <- (if (pcount pr >=? pfreq)%Z then
                 print (Println [Lit " "]) ;;;
                 print (Println [Lit hdg1; Lit hdg2]) ;;;
                 ret 0%Z
               else ret (pcount pr)) ;;
    let pcount := (pcount + 1)%Z in
    x_0 <- item0 (x st) ;;
    let str1 := Fmt "%6g %12.5e" [AInt (itn st); ANum x_0] in
    let str2 := Fmt " %10.3e %10.3e" [ANum (normr st); ANum (normar st)] in
    let str3 := Fmt "  %8.1e %8.1e" [ANum (test1 ts); ANum (test2 ts)] in
    let str4 := Fmt " %8.1e %8.1e" [ANum (normA st); ANum (condA st)] in
    print (PrintlnJoin [str1; str2; str3; str4]) ;;;
    ret (Printer pcount (Some str1) (Some str2) (Some str3) (Some str4))
  else ret pr.

(** *** The main loop: [while True: ... if stop: break] *)
Variable show : bool.

(** The body of the loop: a pass, then its row when [show] is set *)
Definition body (st : vars) (pr : printer) : M (vars * tests * printer) :=
  r <- pass st ;;
  let '(st', ts) := r in
  pr' <- (if show then report st' ts pr else ret pr) ;;
  ret (st', ts, pr').

Fixpoint loop (fuel : nat) (st : vars) (pr : printer)
  : M (vars * printer) :=
  match fuel with
  | O => fun _ => OutOfFuel
  | S fuel' =>
    r <- body st pr ;;
    let '(st', ts, pr') := r in
    if stop ts then ret (st', pr') else loop fuel' st' pr'
  end.

End Pass.

(** *** Initialisation: lines 183-245 *)

Definition initialize (A : LinearOperator) (b : loc) (n : nat) (normb : T)
           (x0 : option loc) : M vars :=
  let u := b in
  r <- match x0 with
       | None =>
         x <- alloc (zeros n) ;;
         let beta := normb in
         ret (x, u, beta)
       | Some x0 =>
         let x := x0 in
         t <- call_matvec A x ;;
         u <- minus u t ;;
         beta <- norm u ;;
         ret (x, u, beta)
       end ;;
  let '(x, u, beta) := r in
  r <- (if beta >? zero then
          u <- scaled (one / beta) u ;;
          v <- call_rmatvec A u ;;
          alpha <- norm v ;;
          ret (u, v, alpha)
        else
          v <- alloc (zeros n) ;;
          ret (u, v, zero)) ;;
  let '(u, v, alpha) := r in
  v <- (if alpha >? zero then scaled (one / alpha) v else ret v) ;;
  (* variables for the first iteration *)
  let itn := 0%Z in
  let zetabar := alpha * beta in
  let alphabar := alpha in
  let rho := one in
  let rhobar := one in
  let cbar := one in
  let sbar := zero in
  h <- clone v ;;
  hbar <- alloc (zeros n) ;;
  (* variables for the estimation of ||r|| *)
  let betadd := beta in
  let betad := zero in
  let rhodold := one in
  let tautildeold := zero in
  let thetatilde := zero in
  let zeta := zero in
  let d := zero in
  (* variables for the estimation of ||A|| and cond(A) *)
  let normA2 := alpha * alpha in
  let maxrbar := zero in
  let minrbar := lit_0_99 * finfo_max in
  let normA := sqrt normA2 in
  let condA := one in
  let normx := zero in
  let normr := beta in
  let normar := alpha * beta in
  ret (Vars itn u v h hbar x
            alpha beta
            zetabar alphabar rho rhobar cbar sbar
            betadd betad rhodold tautildeold thetatilde
            zeta d
            normA2 maxrbar minrbar
            normA condA normx normr normar).

(** *** [lsmr(A, b, damp, atol, btol, conlim, maxiter, show, x0)] *)

(** The heading printed under [if show], lines 175-181 *)
Definition banner (m n : nat) (damp atol btol conlim : T) (maxiter : Z)
  : M unit :=
  print (Println [Lit " "]) ;;;
  print (Println [Lit "LSMR            Least-squares solution of  Ax = b\n"]) ;;;
  print (Println [Fmt "The matrix A has {m} rows and {n} columns"
                    [AInt (Z.of_nat m); AInt (Z.of_nat n)]]) ;;;
  print (Println [Fmt "damp = %20.14e\n" [ANum damp]]) ;;;
  print (Println [Fmt "atol = %8.2e                 conlim = %8.2e\n"
                    [ANum atol; ANum conlim]]) ;;;
  print (Println [Fmt "btol = %8.2e             maxiter = %8g\n"
                    [ANum btol; AInt maxiter]]).

(** The first row, printed before the loop under [if show], lines 252-260 *)
Definition first_row (st : vars) : M printer :=
  print (Println [Lit " "]) ;;;
  print (Println [Lit hdg1; Lit hdg2]) ;;;
  let test1 := one in
  let test2 := alpha st / beta st in
  x_0 <- item0 (x st) ;;
  let str1 := Fmt "%6g %12.5e" [AInt (itn st); ANum x_0] in
  let str2 := Fmt " %10.3e %10.3e" [ANum (normr st); ANum (normar st)] in
  let str3 := Fmt "  %8.1e %8.1e" [ANum test1; ANum test2] in
  print (PrintlnJoin [str1; str2; str3]) ;;;
  ret (Printer 0 (Some str1) (Some str2) (Some str3) None).

(** The closing lines, printed under [if show], lines 406-416; a row
    string that was never assigned is an unbound local. *)
Definition closing (st : vars) (pr : printer) : M unit :=
  print (Println [Lit " "]) ;;;
  print (Println [Lit "LSMR finished"]) ;;;
  print (Println [Fmt "               normr =%8.1e" [ANum (normr st)]]) ;;;
  print (Println [Fmt "    normA =%8.1e    normAr =%8.1e"
                    [ANum (normA st); ANum (normar st)]]) ;;;
  print (Println [Fmt "itn   =%8g    condA =%8.1e"
                    [AInt (itn st); ANum (condA st)]]) ;;;
  print (Println [Fmt "    normx =%8.1e" [ANum (normx st)]]) ;;;
  match str1 pr, str2 pr with
  | Some s1, Some s2 =>
    print (Println [s1; s2]) ;;;
    match str3 pr, str4 pr with
    | Some s3, Some s4 => print (Println [s3; s4])
    | _, _ => raise NameError
    end
  | _, _ => raise NameError
  end.

(** [b] and [x0] are 1-D tensors given by their locations; [fuel]
    bounds the number of passes of the [while True] loop. *)
Definition lsmr (fuel : nat) (A : LinearOperator) (b : loc)
           (damp atol btol conlim : T) (maxiter : option Z) (show : bool)
           (x0 : option loc) : M result :=
  let '(m, n) := shape A in
  let minDim := Nat.min m n in
  let maxiter := match maxiter with
                 | None => Z.of_nat minDim
                 | Some k => k
                 end in
  when show (banner m n damp atol btol conlim maxiter) ;;;
  normb <- norm b ;;
  st <- initialize A b n normb x0 ;;
  let ctol := if conlim >? zero then one / conlim else zero in
  if normar st =? zero then
    when show (print (Println [Lit msg0])) ;;;
    ret (result_of st)
  else
    pr <- (if show then first_row st
           else ret (Printer 0 None None None None)) ;;
    r <- loop A damp atol btol maxiter normb ctol n show fuel st pr ;;
    let '(st, pr) := r in
    when show (closing st pr) ;;;
    ret (result_of st).

End Model.

Arguments Ok {T A} a w.
Arguments Raise {T A} e w.
Arguments OutOfFuel {T A}.

Declare Scope monad_scope.
Delimit Scope monad_scope with monad.
Notation "x <- m ;; k" := (bind m (fun x => k))
  (at level 61, m at next level, right associativity) : monad_scope.
Notation "m ;;; k" := (bind m (fun _ => k))
  (at level 61, right associativity) : monad_scope.

(** ** Exact arithmetic: the reals with the IEEE special values *)

(** Tensor arithmetic never raises: a division by zero gives an infinity
    or NaN, and [masked_fill] writes +inf.  [ereal] is real arithmetic
    (no rounding, no overflow, one zero) extended with these values, with
    the IEEE 754 rules for them. *)
Inductive ereal :=
| ER (r : R)
| EPInf
| ENInf
| ENaN.

Module EReal.
Local Open Scope R_scope.

(** the infinity of the sign of [a*b], NaN when the product is zero *)
Definition signed_inf (a : R) (positive : bool) : ereal :=
  if Rlt_dec 0 a then (if positive then EPInf else ENInf)
  else if Rlt_dec a 0 then (if positive then ENInf else EPInf)
  else ENaN.

Definition add (x y : ereal) : ereal :=
  match x, y with
  | ENaN, _ | _, ENaN => ENaN
  | ER a, ER b => ER (a + b)
  | EPInf, ENInf | ENInf, EPInf => ENaN
  | EPInf, _ | _, EPInf => EPInf
  | ENInf, _ | _, ENInf => ENInf
  end.

Definition neg (x : ereal) : ereal :=
  match x with
  | ER a => ER (- a)
  | EPInf => ENInf
  | ENInf => EPInf
  | ENaN => ENaN
  end.

Definition sub (x y : ereal) : ereal := add x (neg y).

Definition mul (x y : ereal) : ereal :=
  match x, y with
  | ENaN, _ | _, ENaN => ENaN
  | ER a, ER b => ER (a * b)
  | ER a, EPInf | EPInf, ER a => signed_inf a true
  | ER a, ENInf | ENInf, ER a => signed_inf a false
  | EPInf, EPInf | ENInf, ENInf => EPInf
  | EPInf, ENInf | ENInf, EPInf => ENInf
  end.

Definition div (x y : ereal) : ereal :=
  match x, y with
  | ENaN, _ | _, ENaN => ENaN
  | ER a, ER b => if Req_dec_T b 0 then signed_inf a true else ER (a / b)
  | ER _, _ => ER 0
  | EPInf, ER b => if Rlt_dec b 0 then ENInf else EPInf
  | ENInf, ER b => if Rlt_dec b 0 then EPInf else ENInf
  | _, _ => ENaN
  end.

Definition sqrt (x : ereal) : ereal :=
  match x with
  | ER a => if Rlt_dec a 0 then ENaN else ER (R_sqrt.sqrt a)
  | EPInf => EPInf
  | _ => ENaN
  end.

Definition abs (x : ereal) : ereal :=
  match x with
  | ER a => ER (Rabs a)
  | EPInf | ENInf => EPInf
  | ENaN => ENaN
  end.

(** [Tensor.sign]: [(0 < x) - (x < 0)] *)
Definition sign (x : ereal) : ereal :=
  match x with
  | ER a => if Rlt_dec 0 a then ER 1 else if Rlt_dec a 0 then ER (-1) else ER 0
  | EPInf => ER 1
  | ENInf => ER (-1)
  | ENaN => ER 0
  end.

(** comparison, undefined on NaN *)
Definition compare (x y : ereal) : option comparison :=
  match x, y with
  | ENaN, _ | _, ENaN => None
  | ER a, ER b =>
    Some (if Rlt_dec a b then Lt else if Rlt_dec b a then Gt else Eq)
  | EPInf, EPInf | ENInf, ENInf => Some Eq
  | ENInf, _ | _, EPInf => Some Lt
  | _, ENInf | EPInf, _ => Some Gt
  end.

Definition gtb (x y : ereal) : bool :=
  match compare x y with Some Gt => true | _ => false end.
Definition leb (x y : ereal) : bool :=
  match compare x y with Some Lt | Some Eq => true | _ => false end.
Definition eqb (x y : ereal) : bool :=
  match compare x y with Some Eq => true | _ => false end.

(** [torch.max], [torch.min]: NaN if either argument is *)
Definition max (x y : ereal) : ereal :=
  match compare x y with
  | None => ENaN
  | Some Lt => y
  | Some _ => x
  end.
Definition min (x y : ereal) : ereal :=
  match compare x y with
  | None => ENaN
  | Some Gt => y
  | Some _ => x
  end.

(** the largest binary64 number, [(2^53 - 1) * 2^971] *)
Definition finfo_max : R := IZR (2 ^ 53 - 1) * IZR (2 ^ 971).

#[global] Instance ops : Sc.Ops ereal := {|
  Sc.zero := ER 0;
  Sc.one := ER 1;
  Sc.inf := EPInf;
  Sc.lit_0_99 := ER (99 / 100);
  Sc.lit_1_1 := ER (11 / 10);
  Sc.finfo_max := ER finfo_max;
  Sc.add := add;
  Sc.sub := sub;
  Sc.mul := mul;
  Sc.div := div;
  Sc.neg := neg;
  Sc.sqrt := sqrt;
  Sc.abs := abs;
  Sc.sign := sign;
  Sc.max := max;
  Sc.min := min;
  Sc.gtb := gtb;
  Sc.leb := leb;
  Sc.eqb := eqb
|}.

End EReal.

(** ** Binary64 arithmetic: the kernel's floats *)

Module Float64.
Import PrimFloat.

Definition of_Z (z : Z) : float :=
  match z with
  | Z0 => PrimFloat.of_uint63 (Uint63.of_Z 0)
  | Zpos _ => PrimFloat.of_uint63 (Uint63.of_Z z)
  | Zneg _ => PrimFloat.opp (PrimFloat.of_uint63 (Uint63.of_Z (- z)))
  end.

(** [Tensor.sign]: [(0 < x) - (x < 0)] *)
Definition sign (x : float) : float :=
  if PrimFloat.ltb (of_Z 0) x then of_Z 1
  else if PrimFloat.ltb x (of_Z 0) then of_Z (-1)
  else of_Z 0.

(** [torch.max], [torch.min]: NaN if either argument is *)
Definition max (x y : float) : float :=
  if PrimFloat.is_nan x then x
  else if PrimFloat.is_nan y then y
  else if PrimFloat.ltb x y then y else x.
Definition min (x y : float) : float :=
  if PrimFloat.is_nan x then x
  else if PrimFloat.is_nan y then y
  else if PrimFloat.ltb y x then y else x.

#[global] Instance ops : Sc.Ops float := {|
  Sc.zero := of_Z 0;
  Sc.one := of_Z 1;
  Sc.inf := PrimFloat.infinity;
  Sc.lit_0_99 := PrimFloat.div (of_Z 99) (of_Z 100);
  Sc.lit_1_1 := PrimFloat.div (of_Z 11) (of_Z 10);
  Sc.finfo_max := PrimFloat.next_down PrimFloat.infinity;
  Sc.add := PrimFloat.add;
  Sc.sub := PrimFloat.sub;
  Sc.mul := PrimFloat.mul;
  Sc.div := PrimFloat.div;
  Sc.neg := PrimFloat.opp;
  Sc.sqrt := PrimFloat.sqrt;
  Sc.abs := PrimFloat.abs;
  Sc.sign := sign;
  Sc.max := max;
  Sc.min := min;
  Sc.gtb := fun x y => PrimFloat.ltb y x;
  Sc.leb := PrimFloat.leb;
  Sc.eqb := PrimFloat.eqb
|}.

(** a dense matrix, by rows, as an operator *)
Definition dot (r v : list float) : float :=
  fold_left PrimFloat.add (map2 PrimFloat.mul r v) (of_Z 0).
Definition mv (rows : list (list float)) (v : list float) : list float :=
  map (fun r => dot r v) rows.
Fixpoint transpose (ncols : nat) (rows : list (list float))
  : list (list float) :=
  match ncols with
  | O => []
  | S k => map (fun r => hd (of_Z 0) r) rows
           :: transpose k (map (@tl float) rows)
  end.
(** [mv] raises on an argument of the wrong length *)
Definition dense (m n : nat) (rows : list (list float))
  : LinearOperator (T := float) :=
  {| shape := (m, n);
     matvec := fun v => if Nat.eqb (length v) n then Some (mv rows v)
                        else None;
     rmatvec := fun w => if Nat.eqb (length w) m
                         then Some (mv (transpose n rows) w)
                         else None |}.

End Float64.

(** * Specification vocabulary *)

Section Vocabulary.
Context {T : Type} {ops : Sc.Ops T}.
Local Open Scope sc_scope.
Import Sc.

(** the value of the tensor at a location *)
Definition cell (w : world) (l : loc) : list T := nth l (heap w) [].

(** the shapes of the tensors in the store *)
Definition lens (w : world) : list nat := map (@length T) (heap w).

Definition prefix {A} (l l' : list A) : Prop := exists e, l' = l ++ e.

(** How a computation may change the world: tensors keep their shape;
    the store, the call log and the output only grow; and only the
    tensors at the locations [L] are overwritten. *)
Definition evolves (L : list loc) (w w' : world) : Prop :=
  prefix (lens w) (lens w') /\
  prefix (calls w) (calls w') /\
  prefix (out w) (out w') /\
  forall l, l < length (heap w) -> ~ In l L -> cell w' l = cell w l.

(** the world a computation ends in, when it returns or raises *)
Definition final_world {A} (r : @res T A) : option (@world T) :=
  match r with
  | Ok _ w' | Raise _ w' => Some w'
  | OutOfFuel => None
  end.

Definition footprint {A} (L : list loc) (m : @M T A) : Prop :=
  forall w w', final_world (m w) = Some w' -> evolves L w w'.

(** the tensors a pass updates in place *)
Definition cells (st : @vars T) : list loc :=
  [u st; v st; h st; hbar st; x st].

(** a computation that needs no fuel *)
Definition halts {A} (m : @M T A) : Prop := forall w, m w <> OutOfFuel.

(** what a computation returns, whatever the world *)
Definition returns {A} (m : @M T A) (Q : A -> Prop) : Prop :=
  forall w a w', m w = Ok a w' -> Q a.

(** Two worlds with the same tensors and the same operator calls: they
    differ in the printed output only. *)
Definition same_store (w1 w2 : @world T) : Prop :=
  heap w1 = heap w2 /\ calls w1 = calls w2.

(** Two runs with the same outcome (the same returned values or the same
    exception, the same tensors and operator calls), printed output
    apart. *)
Definition same_outcome {A B} (R : A -> B -> Prop) (r1 : @res T A)
           (r2 : @res T B)
  : Prop :=
  match r1, r2 with
  | Ok a w1, Ok b w2 => R a b /\ same_store w1 w2
  | Raise e1 w1, Raise e2 w2 => e1 = e2 /\ same_store w1 w2
  | OutOfFuel, OutOfFuel => True
  | _, _ => False
  end.

(** a computation that does not read the printed output *)
Definition oblivious {A} (m : @M T A) : Prop :=
  forall w1 w2, same_store w1 w2 -> same_outcome eq (m w1) (m w2).

(** a computation that only prints *)
Definition quiet {A} (m : @M T A) : Prop :=
  forall w, exists a w', m w = Ok a w' /\ same_store w w'.

(** the row strings that the closing lines print are assigned *)
Definition rows_bound (pr : @printer T) : Prop :=
  str1 pr <> None /\ str2 pr <> None /\ str3 pr <> None.
Definition all_bound (pr : @printer T) : Prop :=
  rows_bound pr /\ str4 pr <> None.

(** known shapes: [(l, k)] says that [l] is a tensor of length [k] *)
Definition shapes (G : list (loc * nat)) (w : @world T) : Prop :=
  forall l k, In (l, k) G -> nth_error (lens w) l = Some k.

(** The operator honours its shape: the products are defined on vectors
    of the right length and return vectors of the right length. *)
Definition conforming (A : @LinearOperator T) : Prop :=
  (forall xv, length xv = snd (shape A) ->
              exists y, matvec A xv = Some y /\ length y = fst (shape A)) /\
  (forall uv, length uv = fst (shape A) ->
              exists y, rmatvec A uv = Some y /\ length y = snd (shape A)).

(** the iteration limit in force *)
Definition maxiter_of (A : @LinearOperator T) (maxiter : option Z) : Z :=
  match maxiter with
  | None => Z.of_nat (Nat.min (fst (shape A)) (snd (shape A)))
  | Some k => k
  end.

(** the components of the returned tuple *)
Definition x_of (r : @result T) : loc :=
  let '(x, _, _, _, _, _, _) := r in x.
Definition itn_of (r : @result T) : Z :=
  let '(_, itn, _, _, _, _, _) := r in itn.
Definition normar_of (r : @result T) : T :=
  let '(_, _, _, normar, _, _, _) := r in normar.
Definition condA_of (r : @result T) : T :=
  let '(_, _, _, _, _, condA, _) := r in condA.

(** What the arithmetic must satisfy at zero for a zero right-hand side
    to be recognised: exact on the reals and in binary64. *)
Class ZeroLaws : Prop := {
  add_zero_sq : zero + zero * zero = zero;
  sub_zero : zero - zero = zero;
  sqrt_zero : sqrt zero = zero;
  abs_zero : abs zero = zero;
  gtb_zero : (zero >? zero) = false;
  eqb_zero_sq : (zero * zero =? zero) = true
}.

(** [||b||] is a number the initial test can decide on: it is positive,
    or zero times it is zero (it is not NaN). *)
Definition norm_decides (bv : list T) : Prop :=
  (vnorm bv >? zero) = true \/ (zero * vnorm bv =? zero) = true.

(** Line 310 in a pass from the store [w] to the store [w'] that ends
    in the state [st']: [x += (zeta / (rho * rhobar)) * hbar], with the
    [zeta], [rho], [rhobar] and [hbar] of the pass; the tensor [x] holds
    its old value plus the step. *)
Definition adds_step (st' : @vars T) (w w' : world) : Prop :=
  inplace2 add (cell w (x st'))
           (map (fun a => zeta st' / (rho st' * rhobar st') * a)
                (cell w' (hbar st')))
  = Some (cell w' (x st')).

(** Passes of the loop with body [B] that lead from [st], [pr], [w] to
    [st'], [pr'], [w'], the last one with the tests [ts]: every pass
    keeps [x] where it is and adds its step to it in place. *)
Inductive updating
          (B : @vars T -> @printer T -> @M T (@vars T * @tests T * @printer T))
  : @vars T -> @printer T -> world ->
    @vars T -> @tests T -> @printer T -> world -> Prop :=
| updating_once st pr w st' ts pr' w' :
    B st pr w = Ok (st', ts, pr') w' ->
    x st' = x st -> adds_step st' w w' ->
    updating B st pr w st' ts pr' w'
| updating_more st pr w st1 ts1 pr1 w1 st' ts' pr' w' :
    B st pr w = Ok (st1, ts1, pr1) w1 ->
    x st1 = x st -> adds_step st1 w w1 ->
    stop ts1 = false ->
    updating B st1 pr1 w1 st' ts' pr' w' ->
    updating B st pr w st' ts' pr' w'.

End Vocabulary.

(** The passes of the loop started in a state: [iterates B st pr w st'
    ts pr' w'] when some pass of the loop, started in [st], [pr], [w]
    with body [B], ends in [st'], [pr'], [w'] with the tests [ts]. *)
Inductive iterates {T : Type}
          (B : @vars T -> @printer T -> @M T (@vars T * @tests T * @printer T))
  : @vars T -> @printer T -> @world T ->
    @vars T -> @tests T -> @printer T -> @world T -> Prop :=
| iterates_once st pr w st' ts pr' w' :
    B st pr w = Ok (st', ts, pr') w' ->
    iterates B st pr w st' ts pr' w'
| iterates_more st pr w st1 ts1 pr1 w1 st' ts' pr' w' :
    iterates B st pr w st1 ts1 pr1 w1 ->
    stop ts1 = false ->
    B st1 pr1 w1 = Ok (st', ts', pr') w' ->
    iterates B st pr w st' ts' pr' w'.

(** a computation that does not raise from a store with the shapes [G];
    it keeps every shape and leaves the shapes [G' a] behind *)
Definition safe {T} (G : list (loc * nat)) {A} (m : @M T A)
           (G' : A -> list (loc * nat)) : Prop :=
  forall w, shapes G w ->
            match m w with
            | Ok a w' => prefix (lens w) (lens w') /\ shapes (G' a) w'
            | Raise _ _ => False
            | OutOfFuel => True
            end.

(** the shapes of the five tensors of a state, for an [m] by [n]
    operator *)
Definition shapes_of {T} (m n : nat) (st : @vars T) : list (loc * nat) :=
  [(u st, m); (v st, n); (h st, n); (hbar st, n); (x st, n)].

(** a computation that prints nothing *)
Definition silent {T A} (m : @M T A) : Prop :=
  forall w w', final_world (m w) = Some w' -> out w' = out w.

Section Reference.
Context {T : Type} {ops : Sc.Ops T}.
Local Open Scope sc_scope.
Import Sc.

(** The scalar rotation that the source keeps as a comment above
    [_sym_ortho] (lines 11-27), branch by branch; the literal 0 it
    returns is [zero]. *)
Definition sym_ortho_scalar (a b : T) : T * T * T :=
  if b =? zero then (sign a, zero, abs a)
  else if a =? zero then (zero, sign b, abs b)
  else if abs b >? abs a then
    let tau := a / b in
    let s := sign b / sqrt (one + tau * tau) in
    let c := s * tau in
    let r := b / s in
    (c, s, r)
  else
    let tau := b / a in
    let c := sign a / sqrt (one + tau * tau) in
    let s := c * tau in
    let r := a / c in
    (c, s, r).

End Reference.

Section Observations.
Context {T : Type} {ops : Sc.Ops T}.

(** more components of the returned tuple *)
Definition normr_of (r : @result T) : T :=
  let '(_, _, normr, _, _, _, _) := r in normr.
Definition normA_of (r : @result T) : T :=
  let '(_, _, _, _, normA, _, _) := r in normA.
Definition normx_of (r : @result T) : T :=
  let '(_, _, _, _, _, _, normx) := r in normx.

(** the applications of [A.matvec] and of [A.rmatvec] in a log *)
Definition is_matvec (c : @call T) : bool :=
  match c with Matvec _ => true | Rmatvec _ => false end.
Definition matvecs (cs : list (@call T)) : nat :=
  length (filter is_matvec cs).
Definition rmatvecs (cs : list (@call T)) : nat :=
  length (filter (fun c => negb (is_matvec c)) cs).

(** a computation that, when it returns, has applied [A.matvec] [k1]
    times and [A.rmatvec] at most [k2] times *)
Definition applies {A} (k1 k2 : nat) (m : @M T A) : Prop :=
  forall w a w', m w = Ok a w' ->
                 exists cs, calls w' = calls w ++ cs /\
                            matvecs cs = k1 /\ rmatvecs cs <= k2.

(** a computation under which tensors keep their shape and the store,
    the log of operator calls and the output only grow, whether it
    returns or raises *)
Definition grows {A} (m : @M T A) : Prop :=
  forall w w', final_world (m w) = Some w' ->
               prefix (lens w) (lens w') /\
               prefix (calls w) (calls w') /\
               prefix (out w) (out w').

(** a computation whose exceptions all satisfy [P] *)
Definition raises_only {A} (P : exn -> Prop) (m : @M T A) : Prop :=
  forall w e w', m w = Raise e w' -> P e.

End Observations.

(** the exceptions of the arithmetic on tensors and of the operator *)
Definition numeric (e : exn) : Prop := e = RuntimeError \/ e = OperatorError.

(** ** Real data *)

Section RealVocabulary.
Local Open Scope R_scope.

(** the hypotenuse *)
Definition hyp (a b : R) : R := R_sqrt.sqrt (a * a + b * b).

Definition is_real (t : ereal) : Prop := exists r, t = ER r.
Definition real_vec (v : list ereal) : Prop := Forall is_real v.

(** an operator that maps vectors of reals to vectors of reals *)
Definition real_operator (A : @LinearOperator ereal) : Prop :=
  (forall xv y, real_vec xv -> matvec A xv = Some y -> real_vec y) /\
  (forall uv y, real_vec uv -> rmatvec A uv = Some y -> real_vec y).

(** at least 1, +inf included *)
Definition at_least_one (t : ereal) : Prop := Sc.leb Sc.one t = true.

(** The invariant of the loop behind [condA]: [u] and [v] are live
    tensors of reals, apart from [h], [hbar] and [x]; the scalars the
    condition estimate is computed from are real, with [cbar], [rhobar]
    and [minrbar] nonnegative and the larger of [maxrbar] and [rhobar]
    at least 1. *)
Definition chain_ok (st : @vars ereal) (w : @world ereal) : Prop :=
  (u st < length (heap w))%nat /\ (v st < length (heap w))%nat /\
  ~ In (u st) [hbar st; x st; h st] /\ ~ In (v st) [hbar st; x st; h st] /\
  real_vec (cell w (u st)) /\ real_vec (cell w (v st)) /\
  exists a ab cb rb M mn,
    alpha st = ER a /\ alphabar st = ER ab /\ cbar st = ER cb /\
    rhobar st = ER rb /\ maxrbar st = ER M /\ minrbar st = ER mn /\
    0 <= cb /\ 0 <= rb /\ 0 <= mn /\ 1 <= Rmax M rb.

(** a live tensor of reals *)
Definition live_real (w : @world ereal) (l : loc) : Prop :=
  (l < length (heap w))%nat /\ real_vec (cell w l).

End RealVocabulary.

(** ** Concrete operators and stores *)

(** the binary64 number of an integer *)
Definition f64 : Z -> PrimFloat.float := Float64.of_Z.

(** the defaults of the signature: [atol=1e-6], [btol=1e-6],
    [conlim=1e8] *)
Definition tol : PrimFloat.float := PrimFloat.div (f64 1) (f64 1000000).
Definition conlim8 : PrimFloat.float := f64 100000000.

(** the 1x1 matrices [[1]] and [[2]] *)
Definition eye1 : @LinearOperator PrimFloat.float :=
  Float64.dense 1 1 [[f64 1]].
Definition two1 : @LinearOperator PrimFloat.float :=
  Float64.dense 1 1 [[f64 2]].

(** An operator of shape (1, 1) given by two callables that accept a
    vector of any length and sum it. *)
Definition summing : @LinearOperator PrimFloat.float :=
  {| shape := (1%nat, 1%nat);
     matvec := fun xv => Some [fold_left PrimFloat.add xv (f64 0)];
     rmatvec := fun uv => Some [fold_left PrimFloat.add uv (f64 0)] |}.

(** the identity on the reals, of shape (1, 1) *)
Definition real_eye1 : @LinearOperator ereal :=
  {| shape := (1%nat, 1%nat);
     matvec := fun xv => Some xv;
     rmatvec := fun uv => Some uv |}.

(** [2^600], whose square is beyond the binary64 range *)
Definition big : PrimFloat.float :=
  fold_left PrimFloat.mul (repeat (f64 (2 ^ 60)) 10) (f64 1).

(** the 2x2 matrix [2^600 * I] *)
Definition big2 : @LinearOperator PrimFloat.float :=
  Float64.dense 2 2 [[big; f64 0]; [f64 0; big]].

(** a matrix with 2 rows and no column: the solution vector is empty *)
Definition thin : @LinearOperator PrimFloat.float :=
  Float64.dense 2 0 [[]; []].

(** the 2x2 matrix [diag(1, 2)], and an operator with the same products
    whose [matvec] raises on a vector with a negative component *)
Definition diag12 : @LinearOperator PrimFloat.float :=
  Float64.dense 2 2 [[f64 1; f64 0]; [f64 0; f64 2]].
Definition picky : @LinearOperator PrimFloat.float :=
  {| shape := (2%nat, 2%nat);
     matvec := fun xv => if forallb (PrimFloat.leb (f64 0)) xv
                         then matvec diag12 xv else None;
     rmatvec := rmatvec diag12 |}.

(** a store holding the caller's tensors, nothing called or printed yet *)
Definition fresh {T} (tensors : list (list T)) : @world T :=
  World tensors [] [].

(** * Effects of the driver *)

Section Effects.
Context {T : Type} {ops : Sc.Ops T}.
Local Open Scope monad_scope.
Implicit Types w : @world T.
Implicit Types st : @vars T.

Lemma prefix_refl {A} (l : list A) : prefix l l.
Proof. exists []. rewrite app_nil_r. reflexivity. Qed.

Lemma prefix_trans {A} (l1 l2 l3 : list A) :
  prefix l1 l2 -> prefix l2 l3 -> prefix l1 l3.
Proof.
  intros [e1 E1] [e2 E2]. exists (e1 ++ e2). subst. rewrite app_assoc. reflexivity.
Qed.

Lemma prefix_app {A} (l e : list A) : prefix l (l ++ e).
Proof. exists e. reflexivity. Qed.

Lemma prefix_length {A} (l l' : list A) : prefix l l' -> length l <= length l'.
Proof. intros [e E]. subst. rewrite length_app. lia. Qed.

Lemma prefix_nth_error {A} (l l' : list A) i a :
  prefix l l' -> nth_error l i = Some a -> nth_error l' i = Some a.
Proof.
  intros [e E] H. subst. rewrite nth_error_app1; [assumption|].
  apply nth_error_Some. congruence.
Qed.

Lemma length_lens w : length (lens w) = length (heap w).
Proof. unfold lens. apply length_map. Qed.

Lemma footprint_alt {A} L (m : @M T A) :
  footprint L m <->
  forall w, match m w with
            | Ok _ w' | Raise _ w' => evolves L w w'
            | OutOfFuel => True
            end.
Proof.
  unfold footprint. split.
  - intros H w. specialize (H w). destruct (m w); simpl in H; auto.
  - intros H w w' E. specialize (H w). destruct (m w); simpl in E;
      try discriminate; injection E as <-; assumption.
Qed.

Lemma evolves_refl L w : evolves L w w.
Proof. repeat split; try apply prefix_refl. Qed.

Lemma evolves_trans L w1 w2 w3 :
  evolves L w1 w2 -> evolves L w2 w3 -> evolves L w1 w3.
Proof.
  intros (A1 & B1 & C1 & D1) (A2 & B2 & C2 & D2).
  repeat split; try (eapply prefix_trans; eassumption).
  intros l Hl Hn. rewrite D2, D1; try assumption; try reflexivity.
  apply prefix_length in A1. rewrite !length_lens in A1. lia.
Qed.

Lemma evolves_mono L L' w w' :
  incl L L' -> evolves L w w' -> evolves L' w w'.
Proof.
  intros Hi (A1 & B1 & C1 & D1). repeat split; try assumption.
  intros l Hl Hn. apply D1; [assumption|]. intros Hin. apply Hn, Hi, Hin.
Qed.

Lemma evolves_length L w w' :
  evolves L w w' -> length (heap w) <= length (heap w').
Proof.
  intros (A1 & _). apply prefix_length in A1. rewrite !length_lens in A1. lia.
Qed.

(** *** The store *)

Lemma length_update l (v : list T) h : length (update l v h) = length h.
Proof.
  revert l; induction h as [|c h IH]; intros [|l]; simpl; try reflexivity.
  rewrite IH. reflexivity.
Qed.

Lemma nth_update_same l (v : list T) h :
  l < length h -> nth l (update l v h) [] = v.
Proof.
  revert l; induction h as [|c h IH]; intros [|l] Hl; simpl in *; try lia.
  - reflexivity.
  - apply IH. lia.
Qed.

Lemma nth_update_other l l' (v : list T) h :
  l' <> l -> nth l' (update l v h) [] = nth l' h [].
Proof.
  revert l l'; induction h as [|c h IH]; intros [|l] [|l'] Hne; simpl;
    try reflexivity; try lia.
  apply IH. lia.
Qed.

Lemma update_invalid l (v : list T) h : length h <= l -> update l v h = h.
Proof.
  revert l; induction h as [|c h IH]; intros [|l] Hl; simpl in *;
    try reflexivity; try lia.
  rewrite IH by lia. reflexivity.
Qed.

Lemma lens_update l (v : list T) h :
  length v = length (nth l h []) ->
  map (@length T) (update l v h) = map (@length T) h.
Proof.
  revert l; induction h as [|c h IH]; intros [|l] Hv; simpl in *; try reflexivity.
  - rewrite Hv. reflexivity.
  - rewrite IH by assumption. reflexivity.
Qed.

Lemma nth_snoc_old {A} (l : list A) a i d : i < length l -> nth i (l ++ [a]) d = nth i l d.
Proof. intros H. apply app_nth1. assumption. Qed.

Lemma nth_snoc_new {A} (l : list A) a d : nth (length l) (l ++ [a]) d = a.
Proof. rewrite app_nth2 by lia. rewrite Nat.sub_diag. reflexivity. Qed.

(** an in-place update that keeps the shape *)
Lemma evolves_update L w l v :
  In l L -> length v = length (nth l (heap w) []) ->
  evolves L w (World (update l v (heap w)) (calls w) (out w)).
Proof.
  intros Hin Hv. repeat split; simpl; try apply prefix_refl.
  - unfold lens. simpl. rewrite lens_update by assumption. apply prefix_refl.
  - intros l' Hl' Hn. apply nth_update_other. intros ->. contradiction.
Qed.

Lemma evolves_push L w v :
  evolves L w (World (heap w ++ [v]) (calls w) (out w)).
Proof.
  repeat split; simpl; try apply prefix_refl.
  - unfold lens. simpl. rewrite map_app. apply prefix_app.
  - intros l Hl _. apply nth_snoc_old. assumption.
Qed.

Lemma length_map2 f (u w : list T) :
  length u = length w -> length (map2 f u w) = length u.
Proof.
  revert w; induction u as [|a u IH]; intros [|b w] H; simpl in *; try lia.
  rewrite IH by lia. reflexivity.
Qed.

Lemma inplace2_length f (u w r : list T) :
  inplace2 f u w = Some r -> length r = length u.
Proof.
  unfold inplace2. destruct (Nat.eqb (length u) (length w)) eqn:E.
  - intros H; injection H as <-. apply length_map2. apply Nat.eqb_eq. assumption.
  - destruct w as [|b [|? ?]]; try discriminate.
    intros H; injection H as <-. apply length_map.
Qed.

Lemma inplace2_same f (u w : list T) :
  length u = length w -> inplace2 f u w = Some (map2 f u w).
Proof.
  intros H. unfold inplace2. apply Nat.eqb_eq in H. rewrite H. reflexivity.
Qed.

(** *** Footprints of the operations *)

Lemma footprint_ret {A} L (a : A) : footprint L (ret (T := T) a).
Proof. apply footprint_alt. intros w. apply evolves_refl. Qed.

Lemma footprint_raise {A} L e : footprint L (raise (T := T) (A := A) e).
Proof. apply footprint_alt. intros w. apply evolves_refl. Qed.

Lemma footprint_bind {A B} L (m : @M T A) (k : A -> M B) :
  footprint L m -> (forall a, footprint L (k a)) -> footprint L (bind m k).
Proof.
  rewrite !footprint_alt. intros Hm Hk w. unfold bind. specialize (Hm w).
  destruct (m w) as [a w1|e w1|]; try assumption.
  specialize (Hk a). rewrite footprint_alt in Hk.
  specialize (Hk w1). destruct (k a w1); try exact I;
    eapply evolves_trans; eassumption.
Qed.

Lemma footprint_mono {A} L L' (m : @M T A) :
  incl L L' -> footprint L m -> footprint L' m.
Proof.
  rewrite !footprint_alt. intros Hi Hm w. specialize (Hm w).
  destruct (m w); try exact I; eapply evolves_mono; eassumption.
Qed.

Lemma footprint_alloc L (v : list T) : footprint L (alloc v).
Proof. apply footprint_alt. intros w. apply evolves_push. Qed.

Lemma footprint_load L l : footprint L (load (T := T) l).
Proof. apply footprint_alt. intros w. apply evolves_refl. Qed.

Lemma footprint_print L (ln : @line T) : footprint L (print ln).
Proof.
  apply footprint_alt. intros w. repeat split; simpl; try apply prefix_refl.
  apply prefix_app.
Qed.

Lemma footprint_log_call L (c : @call T) : footprint L (log_call c).
Proof.
  apply footprint_alt. intros w. repeat split; simpl; try apply prefix_refl.
  apply prefix_app.
Qed.

Lemma footprint_call_matvec L (A : @LinearOperator T) x :
  footprint L (call_matvec A x).
Proof.
  unfold call_matvec. apply footprint_bind; [apply footprint_load|intros xv].
  apply footprint_bind; [apply footprint_log_call|intros _].
  destruct (matvec A xv); [apply footprint_alloc|apply footprint_raise].
Qed.

Lemma footprint_call_rmatvec L (A : @LinearOperator T) x :
  footprint L (call_rmatvec A x).
Proof.
  unfold call_rmatvec. apply footprint_bind; [apply footprint_load|intros xv].
  apply footprint_bind; [apply footprint_log_call|intros _].
  destruct (rmatvec A xv); [apply footprint_alloc|apply footprint_raise].
Qed.

Lemma footprint_norm L l : footprint L (norm (T := T) l).
Proof.
  unfold norm. apply footprint_bind; [apply footprint_load|intros; apply footprint_ret].
Qed.

Lemma footprint_scaled L (c : T) l : footprint L (scaled c l).
Proof.
  unfold scaled. apply footprint_bind; [apply footprint_load|intros; apply footprint_alloc].
Qed.

Lemma footprint_minus L l l' : footprint L (minus (T := T) l l').
Proof.
  unfold minus. apply footprint_bind; [apply footprint_load|intros uv].
  apply footprint_bind; [apply footprint_load|intros wv].
  destruct (broadcast2 Sc.sub uv wv); [apply footprint_alloc|apply footprint_raise].
Qed.

Lemma footprint_clone L l : footprint L (clone (T := T) l).
Proof.
  unfold clone. apply footprint_bind; [apply footprint_load|intros; apply footprint_alloc].
Qed.

Lemma footprint_item0 L l : footprint L (item0 (T := T) l).
Proof.
  unfold item0. apply footprint_bind; [apply footprint_load|intros [|a ?]].
  - apply footprint_raise.
  - apply footprint_ret.
Qed.

Lemma footprint_imul L l (c : T) : In l L -> footprint L (imul l c).
Proof.
  intros Hin. apply footprint_alt. intros w. unfold imul, bind, load, store.
  apply evolves_update; [assumption|]. apply length_map.
Qed.

Lemma footprint_iadd L l l' : In l L -> footprint L (iadd (T := T) l l').
Proof.
  intros Hin. apply footprint_alt. intros w. unfold iadd, bind, load.
  destruct (inplace2 Sc.add (nth l (heap w) []) (nth l' (heap w) [])) eqn:E.
  - unfold store. apply evolves_update; [assumption|].
    eapply inplace2_length; eassumption.
  - apply evolves_refl.
Qed.

Lemma footprint_when L c (m : @M T unit) :
  footprint L m -> footprint L (when c m).
Proof. intros H. destruct c; [assumption|apply footprint_ret]. Qed.

End Effects.

Create HintDb footprint.
#[global] Hint Resolve footprint_ret footprint_raise footprint_alloc footprint_load
  footprint_print footprint_log_call footprint_call_matvec footprint_call_rmatvec
  footprint_norm footprint_scaled footprint_minus footprint_clone footprint_item0
  footprint_when : footprint.

Ltac footprint_step :=
  lazymatch goal with
  | |- footprint ?L (let x := ?e in @?m x) =>
    let y := fresh x in pose (y := e); change (footprint L (m y)); cbv beta
  | |- footprint _ (if ?c then _ else _) => destruct c
  | |- footprint _ (match ?o with _ => _ end) => destruct o
  | |- footprint _ (imul _ _) => apply footprint_imul; simpl; tauto
  | |- footprint _ (iadd _ _) => apply footprint_iadd; simpl; tauto
  | |- footprint _ (when _ _) => apply footprint_when
  | |- footprint _ (bind _ _) => apply footprint_bind; [|intros ?]
  | |- _ => solve [auto with footprint]
  end.

Section EffectsOfDriver.
Context {T : Type} {ops : Sc.Ops T}.
Implicit Types w : @world T.
Implicit Types st : @vars T.

Lemma footprint_pass (A : LinearOperator) damp atol btol maxiter normb ctol st :
  footprint (cells st) (pass A damp atol btol maxiter normb ctol st).
Proof.
  unfold pass, cells.
  repeat footprint_step.
Qed.

End EffectsOfDriver.

Section Inversion.
Context {T : Type} {ops : Sc.Ops T}.
Implicit Types w : @world T.
Implicit Types st : @vars T.

Lemma bind_ok {A B} (m : @M T A) (k : A -> M B) w a w1 :
  m w = Ok a w1 -> bind m k w = k a w1.
Proof. intros E. unfold bind. rewrite E. reflexivity. Qed.

Lemma bind_inv {A B} (m : @M T A) (k : A -> M B) w b w' :
  bind m k w = Ok b w' -> exists a w1, m w = Ok a w1 /\ k a w1 = Ok b w'.
Proof.
  unfold bind. destruct (m w) as [a w1| |]; try discriminate.
  intros H. exists a, w1. split; [reflexivity|assumption].
Qed.

Lemma bind_final {A B} (m : @M T A) (k : A -> M B) w w' :
  final_world (bind m k w) = Some w' ->
  (exists e, m w = Raise e w') \/
  (exists a w1, m w = Ok a w1 /\ final_world (k a w1) = Some w').
Proof.
  unfold bind. destruct (m w) as [a w1|e w1|]; simpl; try discriminate.
  - intros H. right. exists a, w1. split; [reflexivity|assumption].
  - intros H. injection H as <-. left. exists e. reflexivity.
Qed.

Lemma ret_inv {A} (a b : A) w w' : ret a w = Ok b w' -> a = b /\ w = w'.
Proof. unfold ret. intros H. injection H as <- <-. split; reflexivity. Qed.

(** *** What a computation returns *)

Lemma returns_ret {A} (a : A) (Q : A -> Prop) : Q a -> returns (ret (T := T) a) Q.
Proof. intros H w b w' E. apply ret_inv in E. destruct E as [<- _]. assumption. Qed.

Lemma returns_bind {A B} (m : @M T A) (k : A -> M B) (Q : B -> Prop) :
  (forall a, returns (k a) Q) -> returns (bind m k) Q.
Proof.
  intros Hk w b w' E. apply bind_inv in E. destruct E as (a & w1 & _ & E).
  eapply Hk; eassumption.
Qed.

Lemma returns_raise {A} e (Q : A -> Prop) : returns (raise (T := T) e) Q.
Proof. intros w a w' E. discriminate. Qed.

Lemma returns_conseq {A} (m : @M T A) (Q Q' : A -> Prop) :
  (forall a, Q a -> Q' a) -> returns m Q -> returns m Q'.
Proof. intros HQ H w a w' E. apply HQ. eapply H; eassumption. Qed.

(** *** Computations that need no fuel *)

Lemma halts_ret {A} (a : A) : halts (ret (T := T) a).
Proof. intros w. discriminate. Qed.

Lemma halts_raise {A} e : halts (raise (T := T) (A := A) e).
Proof. intros w. discriminate. Qed.

Lemma halts_bind {A B} (m : @M T A) (k : A -> M B) :
  halts m -> (forall a, halts (k a)) -> halts (bind m k).
Proof.
  intros Hm Hk w. unfold bind. specialize (Hm w).
  destruct (m w) as [a w1| |]; try discriminate; [apply Hk|contradiction].
Qed.

Lemma halts_alloc (v : list T) : halts (alloc v).
Proof. intros w. discriminate. Qed.
Lemma halts_load l : halts (load (T := T) l).
Proof. intros w. discriminate. Qed.
Lemma halts_store l (v : list T) : halts (store l v).
Proof. intros w. discriminate. Qed.
Lemma halts_print (ln : @line T) : halts (print ln).
Proof. intros w. discriminate. Qed.
Lemma halts_log_call (c : @call T) : halts (log_call c).
Proof. intros w. discriminate. Qed.

End Inversion.

Create HintDb halts.
#[global] Hint Resolve halts_ret halts_raise halts_alloc halts_load halts_store
  halts_print halts_log_call : halts.

Ltac halts_step :=
  lazymatch goal with
  | |- halts (let x := ?e in @?m x) =>
    let y := fresh x in pose (y := e); change (halts (m y)); cbv beta
  | |- halts (if ?c then _ else _) => destruct c
  | |- halts (match ?o with _ => _ end) => destruct o
  | |- halts (bind _ _) => apply halts_bind; [|intros ?]
  | |- halts (call_matvec _ _) => unfold call_matvec
  | |- halts (call_rmatvec _ _) => unfold call_rmatvec
  | |- halts (norm _) => unfold norm
  | |- halts (scaled _ _) => unfold scaled
  | |- halts (minus _ _) => unfold minus
  | |- halts (imul _ _) => unfold imul
  | |- halts (iadd _ _) => unfold iadd
  | |- halts (clone _) => unfold clone
  | |- halts (item0 _) => unfold item0
  | |- halts (when _ _) => unfold when
  | |- _ => solve [auto with halts]
  end.

Ltac returns_step :=
  lazymatch goal with
  | |- returns (let x := ?e in @?m x) ?Q =>
    let y := fresh x in pose (y := e); change (returns (m y) Q); cbv beta
  | |- returns (if ?c then _ else _) _ => destruct c
  | |- returns (match ?o with _ => _ end) _ => destruct o
  | |- returns (bind _ _) _ => apply returns_bind; intros ?
  | |- returns (raise _) _ => apply returns_raise
  | |- returns (ret _) _ => apply returns_ret
  end.

Section DriverFacts.
Context {T : Type} {ops : Sc.Ops T}.
Implicit Types w : @world T.
Implicit Types st : @vars T.
Implicit Types pr : @printer T.
Variable A : @LinearOperator T.
Variables damp atol btol : T.
Variable maxiter : Z.
Variables normb ctol : T.
Variable n : nat.

(** a pass counts one iteration, keeps the five tensors where they are
    and runs the convergence test on the new estimates *)
Lemma pass_returns st :
  returns (pass A damp atol btol maxiter normb ctol st)
          (fun r => itn (fst r) = (itn st + 1)%Z /\
                    cells (fst r) = cells st /\
                    x (fst r) = x st /\
                    snd r = convergence_test atol btol maxiter normb ctol
                              (itn (fst r)) (normr (fst r)) (normar (fst r))
                              (normA (fst r)) (normx (fst r)) (condA (fst r))).
Proof.
  unfold pass. repeat returns_step.
  simpl. repeat split; reflexivity.
Qed.

Lemma halts_pass st : halts (pass A damp atol btol maxiter normb ctol st).
Proof. unfold pass. repeat halts_step. Qed.

Lemma halts_report st ts pr : halts (report atol maxiter ctol n st ts pr).
Proof. unfold report. repeat halts_step. Qed.

Lemma halts_body show st pr :
  halts (body A damp atol btol maxiter normb ctol n show st pr).
Proof.
  unfold body. apply halts_bind; [apply halts_pass|intros [st' ts]].
  apply halts_bind; [|intros; apply halts_ret].
  destruct show; [apply halts_report|apply halts_ret].
Qed.

Lemma footprint_report L st ts pr :
  footprint L (report atol maxiter ctol n st ts pr).
Proof.
  unfold report. repeat footprint_step.
Qed.

Lemma footprint_body show st pr :
  footprint (cells st) (body A damp atol btol maxiter normb ctol n show st pr).
Proof.
  unfold body. apply footprint_bind; [apply footprint_pass|intros [st' ts]].
  apply footprint_bind; [|intros; apply footprint_ret].
  destruct show; [apply footprint_report|apply footprint_ret].
Qed.

Lemma body_returns show st pr :
  returns (body A damp atol btol maxiter normb ctol n show st pr)
          (fun r => let '(st', ts, _) := r in
                    itn st' = (itn st + 1)%Z /\
                    cells st' = cells st /\
                    x st' = x st /\
                    ts = convergence_test atol btol maxiter normb ctol
                           (itn st') (normr st') (normar st')
                           (normA st') (normx st') (condA st')).
Proof.
  unfold body. intros w r w' E.
  apply bind_inv in E. destruct E as ([st' ts] & w1 & E1 & E).
  apply pass_returns in E1. simpl in E1.
  apply bind_inv in E. destruct E as (pr' & w2 & _ & E).
  apply ret_inv in E. destruct E as [<- _]. exact E1.
Qed.

Lemma stop_at_cap itn0 normr0 normar0 normA0 normx0 condA0 :
  (maxiter <= itn0)%Z ->
  stop (convergence_test atol btol maxiter normb ctol
          itn0 normr0 normar0 normA0 normx0 condA0) = true.
Proof.
  intros H. unfold convergence_test. cbn [stop].
  assert (E : (itn0 >=? maxiter)%Z = true) by (apply Z.geb_le; lia).
  rewrite E. rewrite !orb_true_r. reflexivity.
Qed.

Lemma footprint_loop show fuel : forall st pr,
  footprint (cells st)
            (loop A damp atol btol maxiter normb ctol n show fuel st pr).
Proof.
  induction fuel as [|fuel IH]; intros st pr.
  - apply footprint_alt. intros w. exact I.
  - cbn [loop]. intros w w' E.
    apply bind_final in E. destruct E as [[e E]|(r & w1 & E1 & E)].
    + apply (footprint_body show st pr w). rewrite E. reflexivity.
    + pose proof (footprint_body show st pr w) as F1.
      rewrite E1 in F1. specialize (F1 _ eq_refl).
      pose proof E1 as R1. apply body_returns in R1.
      destruct r as [[st' ts] pr']. destruct R1 as (_ & Hc & _).
      eapply evolves_trans; [exact F1|].
      destruct (stop ts).
      * simpl in E. injection E as <-. apply evolves_refl.
      * rewrite <- Hc. eapply IH. eassumption.
Qed.

(** the loop stops within the iteration limit, whatever the tolerances *)
Lemma loop_returns show fuel : forall st pr w st' pr' w',
  loop A damp atol btol maxiter normb ctol n show fuel st pr w
  = Ok (st', pr') w' ->
  (itn st < itn st' <= Z.max (itn st + 1) maxiter)%Z /\
  cells st' = cells st /\ x st' = x st.
Proof.
  induction fuel as [|fuel IH]; intros st pr w st' pr' w' E.
  - discriminate.
  - cbn [loop] in E. apply bind_inv in E.
    destruct E as ([[st1 ts] pr1] & w1 & E1 & E).
    apply body_returns in E1. destruct E1 as (Hi & Hc & Hx & Hts).
    destruct (stop ts) eqn:Hs.
    + apply ret_inv in E. destruct E as [E _]. injection E as <- <-.
      repeat split; try assumption; lia.
    + apply IH in E. destruct E as (Hi' & Hc' & Hx').
      assert (itn st1 < maxiter)%Z.
      { destruct (Z_lt_le_dec (itn st1) maxiter); [assumption|].
        rewrite Hts, stop_at_cap in Hs by assumption. discriminate. }
      repeat split; try congruence; lia.
Qed.

(** with fuel for the passes up to the iteration limit, the loop does not
    run out of it *)
Lemma loop_terminates show fuel : forall st pr w,
  (1 <= fuel)%nat -> (Z.to_nat (maxiter - itn st) <= fuel)%nat ->
  loop A damp atol btol maxiter normb ctol n show fuel st pr w <> OutOfFuel.
Proof.
  induction fuel as [|fuel IH]; intros st pr w H1 H2; [lia|].
  cbn [loop]. unfold bind at 1.
  destruct (body A damp atol btol maxiter normb ctol n show st pr w)
    as [[[st1 ts] pr1] w1| |] eqn:E1; try discriminate.
  - pose proof E1 as R1. apply body_returns in R1.
    destruct R1 as (Hi & _ & _ & Hts).
    destruct (stop ts) eqn:Hs; [discriminate|].
    assert (itn st1 < maxiter)%Z.
    { destruct (Z_lt_le_dec (itn st1) maxiter); [assumption|].
      rewrite Hts, stop_at_cap in Hs by assumption. discriminate. }
    apply IH; lia.
  - (* the body itself needs no fuel *)
    exfalso. exact (halts_body show st pr w E1).
Qed.

End DriverFacts.

Section Relational.
Context {T : Type} {ops : Sc.Ops T}.
Implicit Types w : @world T.
Implicit Types st : @vars T.

Lemma same_store_refl w : same_store w w.
Proof. split; reflexivity. Qed.

Lemma same_store_sym w1 w2 : same_store w1 w2 -> same_store w2 w1.
Proof. intros [? ?]. split; congruence. Qed.

Lemma same_store_trans w1 w2 w3 :
  same_store w1 w2 -> same_store w2 w3 -> same_store w1 w3.
Proof. intros [? ?] [? ?]. split; congruence. Qed.

Lemma same_store_cell w1 w2 l : same_store w1 w2 -> cell w1 l = cell w2 l.
Proof. intros [E _]. unfold cell. rewrite E. reflexivity. Qed.

(** *** Computations that do not read the output *)

Lemma oblivious_ret {A} (a : A) : oblivious (ret (T := T) a).
Proof. intros w1 w2 H. simpl. split; [reflexivity|assumption]. Qed.

Lemma oblivious_raise {A} e : oblivious (raise (T := T) (A := A) e).
Proof. intros w1 w2 H. simpl. split; [reflexivity|assumption]. Qed.

Lemma oblivious_bind {A B} (m : @M T A) (k : A -> M B) :
  oblivious m -> (forall a, oblivious (k a)) -> oblivious (bind m k).
Proof.
  intros Hm Hk w1 w2 H. unfold bind. specialize (Hm w1 w2 H).
  destruct (m w1) as [a1 w1'|e1 w1'|], (m w2) as [a2 w2'|e2 w2'|];
    simpl in Hm; try contradiction; try assumption.
  destruct Hm as [<- Hs]. apply Hk. assumption.
Qed.

Lemma oblivious_alloc (v : list T) : oblivious (alloc v).
Proof.
  intros w1 w2 [Hh Hc]. simpl. unfold same_store. simpl.
  rewrite Hh, Hc. repeat split; reflexivity.
Qed.

Lemma oblivious_load l : oblivious (load (T := T) l).
Proof.
  intros w1 w2 [Hh Hc]. simpl. rewrite Hh. repeat split; assumption.
Qed.

Lemma oblivious_store l (v : list T) : oblivious (store l v).
Proof.
  intros w1 w2 [Hh Hc]. simpl. unfold same_store. simpl.
  rewrite Hh, Hc. repeat split; reflexivity.
Qed.

Lemma oblivious_print (ln : @line T) : oblivious (print ln).
Proof. intros w1 w2 [Hh Hc]. simpl. repeat split; assumption. Qed.

Lemma oblivious_log_call (c : @call T) : oblivious (log_call c).
Proof.
  intros w1 w2 [Hh Hc]. simpl. unfold same_store. simpl.
  rewrite Hh, Hc. repeat split; reflexivity.
Qed.

(** *** Computations that only print *)

Lemma quiet_ret {A} (a : A) : quiet (ret (T := T) a).
Proof. intros w. exists a, w. split; [reflexivity|apply same_store_refl]. Qed.

Lemma quiet_print (ln : @line T) : quiet (print ln).
Proof.
  intros w. eexists tt, _. split; [reflexivity|]. split; reflexivity.
Qed.

Lemma quiet_bind {A B} (m : @M T A) (k : A -> M B) :
  quiet m -> (forall a, quiet (k a)) -> quiet (bind m k).
Proof.
  intros Hm Hk w. destruct (Hm w) as (a & w1 & E1 & S1).
  destruct (Hk a w1) as (b & w2 & E2 & S2).
  exists b, w2. split; [unfold bind; rewrite E1; assumption|].
  eapply same_store_trans; eassumption.
Qed.

Lemma quiet_when c (m : @M T unit) : quiet m -> quiet (when c m).
Proof. intros H. destruct c; [assumption|apply quiet_ret]. Qed.

(** a computation that only prints does not change the outcome *)
Lemma quiet_then {A B C} (R : B -> C -> Prop) (p : @M T A) (k : A -> M B)
      (m : M C) w1 w2 :
  quiet p -> same_store w1 w2 ->
  (forall a w1', same_store w1' w2 -> same_outcome R (k a w1') (m w2)) ->
  same_outcome R (bind p k w1) (m w2).
Proof.
  intros Hp Hs Hk. destruct (Hp w1) as (a & w1' & E & S).
  unfold bind at 1. rewrite E. apply Hk.
  eapply same_store_trans; [apply same_store_sym; eassumption|assumption].
Qed.

End Relational.

Create HintDb oblivious.
#[global] Hint Resolve oblivious_ret oblivious_raise oblivious_alloc
  oblivious_load oblivious_store oblivious_print oblivious_log_call : oblivious.
Create HintDb quiet.
#[global] Hint Resolve quiet_ret quiet_print : quiet.

Ltac oblivious_step :=
  lazymatch goal with
  | |- oblivious (let x := ?e in @?m x) =>
    let y := fresh x in pose (y := e); change (oblivious (m y)); cbv beta
  | |- oblivious (if ?c then _ else _) => destruct c
  | |- oblivious (match ?o with _ => _ end) => destruct o
  | |- oblivious (bind _ _) => apply oblivious_bind; [|intros ?]
  | |- oblivious (call_matvec _ _) => unfold call_matvec
  | |- oblivious (call_rmatvec _ _) => unfold call_rmatvec
  | |- oblivious (norm _) => unfold norm
  | |- oblivious (scaled _ _) => unfold scaled
  | |- oblivious (minus _ _) => unfold minus
  | |- oblivious (imul _ _) => unfold imul
  | |- oblivious (iadd _ _) => unfold iadd
  | |- oblivious (clone _) => unfold clone
  | |- oblivious (item0 _) => unfold item0
  | |- oblivious (when _ _) => unfold when
  | |- _ => solve [auto with oblivious]
  end.

Ltac quiet_step :=
  lazymatch goal with
  | |- quiet (let x := ?e in @?m x) =>
    let y := fresh x in pose (y := e); change (quiet (m y)); cbv beta
  | |- quiet (bind _ _) => apply quiet_bind; [|intros ?]
  | |- quiet (when _ _) => apply quiet_when
  | |- _ => solve [auto with quiet]
  end.

Section DriverRelational.
Context {T : Type} {ops : Sc.Ops T}.
Implicit Types w : @world T.
Implicit Types st : @vars T.
Implicit Types pr : @printer T.
Variable A : @LinearOperator T.
Variables damp atol btol conlim : T.
Variable maxiter : Z.
Variables normb ctol : T.
Variable n : nat.

Lemma oblivious_pass st :
  oblivious (pass A damp atol btol maxiter normb ctol st).
Proof. unfold pass. repeat oblivious_step. Qed.

Lemma oblivious_initialize b x0 : oblivious (initialize A b n normb x0).
Proof. unfold initialize. repeat oblivious_step. Qed.

Lemma halts_initialize b x0 : halts (initialize A b n normb x0).
Proof. unfold initialize. repeat halts_step. Qed.

Lemma footprint_initialize b x0 : footprint [] (initialize A b n normb x0).
Proof. unfold initialize. repeat footprint_step. Qed.

Lemma quiet_banner m : quiet (banner m n damp atol btol conlim maxiter).
Proof. unfold banner. repeat quiet_step. Qed.

End DriverRelational.

Section Primitives.
Context {T : Type} {ops : Sc.Ops T}.
Implicit Types w : @world T.
Implicit Types st : @vars T.
Local Open Scope sc_scope.
Import Sc.

Lemma alloc_inv (cv : list T) w l w' :
  alloc cv w = Ok l w' ->
  l = length (heap w) /\ heap w' = heap w ++ [cv] /\
  calls w' = calls w /\ out w' = out w.
Proof. unfold alloc. intros E. injection E as <- <-. repeat split. Qed.

Lemma norm_inv l w a w' :
  norm l w = Ok a w' -> a = vnorm (cell w l) /\ w' = w.
Proof. unfold norm, bind, load, ret. intros E. injection E as <- <-. split; reflexivity. Qed.

Lemma scaled_inv (c : T) l w t w' :
  scaled c l w = Ok t w' ->
  t = length (heap w) /\
  heap w' = heap w ++ [map (fun a => c * a) (cell w l)] /\
  calls w' = calls w /\ out w' = out w.
Proof. unfold scaled, bind, load. apply alloc_inv. Qed.

Lemma clone_inv l w t w' :
  clone l w = Ok t w' ->
  t = length (heap w) /\ heap w' = heap w ++ [cell w l] /\
  calls w' = calls w /\ out w' = out w.
Proof. unfold clone, bind, load. apply alloc_inv. Qed.

Lemma call_matvec_inv (A : @LinearOperator T) l w t w' :
  call_matvec A l w = Ok t w' ->
  exists y, matvec A (cell w l) = Some y /\
            t = length (heap w) /\ heap w' = heap w ++ [y] /\
            calls w' = calls w ++ [Matvec (cell w l)] /\ out w' = out w.
Proof.
  unfold call_matvec, bind, load, log_call. fold (cell w l).
  destruct (matvec A (cell w l)) as [y|]; [|discriminate].
  intros E. apply alloc_inv in E. simpl in E. exists y. tauto.
Qed.

Lemma call_rmatvec_inv (A : @LinearOperator T) l w t w' :
  call_rmatvec A l w = Ok t w' ->
  exists y, rmatvec A (cell w l) = Some y /\
            t = length (heap w) /\ heap w' = heap w ++ [y] /\
            calls w' = calls w ++ [Rmatvec (cell w l)] /\ out w' = out w.
Proof.
  unfold call_rmatvec, bind, load, log_call. fold (cell w l).
  destruct (rmatvec A (cell w l)) as [y|]; [|discriminate].
  intros E. apply alloc_inv in E. simpl in E. exists y. tauto.
Qed.

Lemma minus_inv l l' w t w' :
  minus l l' w = Ok t w' ->
  exists r, broadcast2 sub (cell w l) (cell w l') = Some r /\
            t = length (heap w) /\ heap w' = heap w ++ [r] /\
            calls w' = calls w /\ out w' = out w.
Proof.
  unfold minus, bind, load. fold (cell w l) (cell w l').
  destruct (broadcast2 sub (cell w l) (cell w l')) as [r|]; [|discriminate].
  intros E. apply alloc_inv in E. exists r. tauto.
Qed.

Lemma cell_app_old w (hp : list (list T)) c l :
  heap w = hp ++ [c] -> l < length hp -> cell w l = nth l hp [].
Proof. intros E Hl. unfold cell. rewrite E. apply app_nth1. assumption. Qed.

Lemma cell_app_new w (hp : list (list T)) c :
  heap w = hp ++ [c] -> cell w (length hp) = c.
Proof. intros E. unfold cell. rewrite E. apply nth_snoc_new. Qed.

(** the norm of a zero vector, where arithmetic is exact at zero *)
Lemma vnorm_zeros {Z0 : ZeroLaws} k : vnorm (zeros k) = zero.
Proof.
  assert (E : fold_left (fun acc a => acc + a * a) (repeat zero k) zero = zero).
  { induction k as [|k IH]; simpl; [reflexivity|].
    rewrite add_zero_sq. assumption. }
  unfold vnorm, zeros. destruct k as [|[|k]]; cbn [repeat].
  - apply sqrt_zero.
  - apply abs_zero.
  - change (zero :: zero :: repeat zero k) with (repeat zero (S (S k))).
    rewrite E. apply sqrt_zero.
Qed.

End Primitives.

Section Initialize.
Context {T : Type} {ops : Sc.Ops T}.
Implicit Types w : @world T.
Implicit Types st : @vars T.
Local Open Scope sc_scope.
Import Sc.
Variable A : @LinearOperator T.
Variable n : nat.

Lemma initialize_returns b normb x0 :
  returns (initialize A b n normb x0)
          (fun st => itn st = 0%Z /\ condA st = one /\
                     normar st = alpha st * beta st /\
                     normr st = beta st).
Proof.
  unfold initialize. repeat returns_step; simpl; repeat split; reflexivity.
Qed.

(** Where the five tensors are after initialisation: [v], [h] and [hbar]
    are new; [x] is the caller's [x0] or new; [u] is new unless [x0] was
    omitted and [||b||] is not positive, when it still is [b]. *)
Lemma initialize_places b normb x0 w st w' :
  initialize A b n normb x0 w = Ok st w' ->
  b < length (heap w) ->
  match x0 with Some l => l < length (heap w) | None => True end ->
  length (heap w) <= v st /\ v st < h st /\ h st < hbar st /\
  hbar st < length (heap w') /\ u st < v st /\ x st < v st /\
  x st <> u st /\
  match x0 with
  | Some l => x st = l /\ length (heap w) <= u st
  | None => x st = length (heap w) /\ cell w' (x st) = zeros n /\
            (length (heap w) < u st \/
             u st = b /\ (normb >? zero) = false /\
             alpha st = zero /\ beta st = normb)
  end.
Proof.
  unfold initialize. intros E Hb Hx0.
  destruct x0 as [l|].
  - (* x0 given *)
    apply bind_inv in E. destruct E as ([[x1 u1] beta1] & w1 & E1 & E).
    apply bind_inv in E1. destruct E1 as (t & wa & Ea & E1).
    apply call_matvec_inv in Ea. destruct Ea as (y & _ & -> & Ha & _).
    apply bind_inv in E1. destruct E1 as (u2 & wb & Eb & E1).
    apply minus_inv in Eb. destruct Eb as (r & _ & -> & Hb' & _).
    apply bind_inv in E1. destruct E1 as (beta2 & wc & Ec & E1).
    apply norm_inv in Ec. destruct Ec as [-> ->].
    apply ret_inv in E1. destruct E1 as [E1 <-]. injection E1 as <- <- <-.
    apply bind_inv in E. destruct E as ([[u3 v3] alpha3] & w2 & E2 & E).
    assert (H2 : length (heap wb) <= v3 /\ v3 < length (heap w2) /\
                 length (heap w) <= u3 /\ u3 < v3 /\
                 length (heap wb) <= length (heap w2)).
    { destruct (vnorm (cell wb (length (heap wa))) >? zero).
      - apply bind_inv in E2. destruct E2 as (u4 & wd & Ed & E2).
        apply scaled_inv in Ed. destruct Ed as (-> & Hd & _).
        apply bind_inv in E2. destruct E2 as (v4 & we & Ee & E2).
        apply call_rmatvec_inv in Ee. destruct Ee as (y' & _ & -> & He & _).
        apply bind_inv in E2. destruct E2 as (al & wf & Ef & E2).
        apply norm_inv in Ef. destruct Ef as [-> ->].
        apply ret_inv in E2. destruct E2 as [E2 <-]. injection E2 as <- <- <-.
        rewrite He, Hd, Hb', Ha. rewrite !length_app. simpl. lia.
      - apply bind_inv in E2. destruct E2 as (v4 & wd & Ed & E2).
        apply alloc_inv in Ed. destruct Ed as (-> & Hd & _).
        apply ret_inv in E2. destruct E2 as [E2 <-]. injection E2 as <- <- <-.
        rewrite Hd, Hb', Ha. rewrite !length_app. simpl. lia. }
    destruct H2 as (Hv1 & Hv2 & Hu1 & Hu2 & Hg).
    apply bind_inv in E. destruct E as (v5 & w3 & E3 & E).
    assert (H3 : length (heap wb) <= v5 /\ v5 < length (heap w3) /\ u3 < v5).
    { destruct (alpha3 >? zero).
      - apply scaled_inv in E3. destruct E3 as (-> & Hd & _).
        rewrite Hd, length_app. simpl. lia.
      - apply ret_inv in E3. destruct E3 as [<- <-]. lia. }
    destruct H3 as (Hv3 & Hv4 & Hu3).
    apply bind_inv in E. destruct E as (h5 & w4 & E4 & E).
    apply clone_inv in E4. destruct E4 as (-> & H4 & _).
    apply bind_inv in E. destruct E as (hb5 & w5 & E5 & E).
    apply alloc_inv in E5. destruct E5 as (-> & H5 & _).
    apply ret_inv in E. destruct E as [<- <-]. cbn [u v h hbar x].
    rewrite Hb', Ha in Hv3. rewrite !length_app in Hv3. simpl in Hv3.
    rewrite H5, H4. rewrite !length_app. simpl.
    repeat split; try lia.
  - (* x0 omitted *)
    apply bind_inv in E. destruct E as ([[x1 u1] beta1] & w1 & E1 & E).
    apply bind_inv in E1. destruct E1 as (x2 & wa & Ea & E1).
    apply alloc_inv in Ea. destruct Ea as (-> & Ha & _).
    apply ret_inv in E1. destruct E1 as [E1 <-]. injection E1 as <- <- <-.
    apply bind_inv in E. destruct E as ([[u3 v3] alpha3] & w2 & E2 & E).
    assert (H2 : length (heap wa) <= v3 /\ v3 < length (heap w2) /\ u3 < v3 /\
                 prefix (heap wa) (heap w2) /\
                 (length (heap w) < u3 \/
                  u3 = b /\ (normb >? zero) = false /\ alpha3 = zero)).
    { destruct (normb >? zero) eqn:Hn.
      - apply bind_inv in E2. destruct E2 as (u4 & wd & Ed & E2).
        apply scaled_inv in Ed. destruct Ed as (-> & Hd & _).
        apply bind_inv in E2. destruct E2 as (v4 & we & Ee & E2).
        apply call_rmatvec_inv in Ee. destruct Ee as (y' & _ & -> & He & _).
        apply bind_inv in E2. destruct E2 as (al & wf & Ef & E2).
        apply norm_inv in Ef. destruct Ef as [-> ->].
        apply ret_inv in E2. destruct E2 as [E2 <-]. injection E2 as <- <- <-.
        rewrite He, Hd, Ha. rewrite !length_app. simpl.
        split; [lia|]. split; [lia|]. split; [lia|]. split; [|left; lia].
        exists [map (fun a => one / normb * a) (cell wa b); y'].
        rewrite <- app_assoc. reflexivity.
      - apply bind_inv in E2. destruct E2 as (v4 & wd & Ed & E2).
        apply alloc_inv in Ed. destruct Ed as (-> & Hd & _).
        apply ret_inv in E2. destruct E2 as [E2 <-]. injection E2 as <- <- <-.
        rewrite Hd, Ha. rewrite !length_app. simpl.
        split; [lia|]. split; [lia|]. split; [lia|].
        split; [exists [zeros n]; reflexivity|].
        right. repeat split; reflexivity. }
    destruct H2 as (Hv1 & Hv2 & Hu2 & Hp2 & Hu).
    apply bind_inv in E. destruct E as (v5 & w3 & E3 & E).
    assert (H3 : length (heap wa) <= v5 /\ v5 < length (heap w3) /\ u3 < v5 /\
                 prefix (heap w2) (heap w3)).
    { destruct (alpha3 >? zero).
      - apply scaled_inv in E3. destruct E3 as (-> & Hd & _).
        rewrite Hd, length_app. simpl. repeat split; try lia. apply prefix_app.
      - apply ret_inv in E3. destruct E3 as [<- <-].
        repeat split; try lia. apply prefix_refl. }
    destruct H3 as (Hv3 & Hv4 & Hu3 & Hp3).
    apply bind_inv in E. destruct E as (h5 & w4 & E4 & E).
    apply clone_inv in E4. destruct E4 as (-> & H4 & _).
    apply bind_inv in E. destruct E as (hb5 & w5 & E5 & E).
    apply alloc_inv in E5. destruct E5 as (-> & H5 & _).
    apply ret_inv in E. destruct E as [<- <-]. cbn [u v h hbar x alpha beta].
    rewrite Ha in Hv3. rewrite !length_app in Hv3. simpl in Hv3.
    assert (Hx : cell w5 (length (heap w)) = zeros n).
    { destruct Hp2 as [e2 E2'], Hp3 as [e3 E3'].
      unfold cell. rewrite H5, H4, E3', E2', Ha.
      rewrite <- !app_assoc. rewrite app_nth2 by lia.
      rewrite Nat.sub_diag. reflexivity. }
    rewrite H5, H4. rewrite !length_app. simpl.
    repeat split; try lia; try assumption.
    destruct Hu as [Hu|(-> & Hn & ->)]; [left; assumption|].
    right. repeat split; reflexivity || assumption.
Qed.

End Initialize.

Section Lsmr.
Context {T : Type} {ops : Sc.Ops T}.
Implicit Types w : @world T.
Implicit Types st : @vars T.
Implicit Types pr : @printer T.
Local Open Scope sc_scope.
Import Sc.
Variable fuel : nat.
Variable A : @LinearOperator T.
Variable b : loc.
Variables damp atol btol conlim : T.
Variable maxiter : option Z.
Variable show : bool.
Variable x0 : option loc.

(** the tolerance on [1/condA] in force *)
Let ctol : T := if conlim >? zero then one / conlim else zero.
Let n : nat := snd (shape A).
Let cap : Z := maxiter_of A maxiter.

Lemma quiet_when_banner :
  quiet (when show (banner (fst (shape A)) n damp atol btol conlim cap)).
Proof. apply quiet_when, quiet_banner. Qed.

(** how a call that returns has run *)
Lemma lsmr_inv w r w' :
  lsmr fuel A b damp atol btol conlim maxiter show x0 w = Ok r w' ->
  exists wb st w1,
    same_store w wb /\
    initialize A b n (vnorm (cell w b)) x0 wb = Ok st w1 /\
    (((normar st =? zero) = true /\ r = result_of st /\ same_store w1 w') \/
     ((normar st =? zero) = false /\
      exists pr0 w2 st' pr' w3,
        same_store w1 w2 /\
        loop A damp atol btol cap (vnorm (cell w b)) ctol n show fuel
             st pr0 w2 = Ok (st', pr') w3 /\
        r = result_of st' /\ same_store w3 w')).
Proof.
  unfold lsmr. subst n cap ctol. unfold maxiter_of.
  destruct (shape A) as [m0 n0]. cbn [fst snd].
  set (mi := match maxiter with None => Z.of_nat (Nat.min m0 n0) | Some k => k end).
  intros E. apply bind_inv in E. destruct E as ([] & wb & Eb & E).
  assert (Sb : same_store w wb).
  { assert (Qb : quiet (when show (banner m0 n0 damp atol btol conlim mi)))
      by apply quiet_when, quiet_banner.
    destruct (Qb w) as ([] & wb' & Eb' & Sb').
    rewrite Eb in Eb'. injection Eb' as <-. assumption. }
  apply bind_inv in E. destruct E as (normb & w0 & En & E).
  apply norm_inv in En. destruct En as [-> ->].
  rewrite <- (same_store_cell b Sb) in E.
  apply bind_inv in E. destruct E as (st & w1 & Ei & E).
  exists wb, st, w1. split; [assumption|]. split; [assumption|].
  destruct (normar st =? zero) eqn:Hz.
  - left. split; [reflexivity|].
    apply bind_inv in E. destruct E as ([] & w2 & Ep & E).
    apply ret_inv in E. destruct E as [<- <-]. split; [reflexivity|].
    assert (Qp : quiet (when show (print (T := T) (Println [Lit msg0]))))
      by apply quiet_when, quiet_print.
    destruct (Qp w1) as ([] & w2' & Ep' & Sp').
    rewrite Ep in Ep'. injection Ep' as <-. assumption.
  - right. split; [reflexivity|].
    apply bind_inv in E. destruct E as (pr0 & w2 & Ef & E).
    apply bind_inv in E. destruct E as ([st' pr'] & w3 & El & E).
    apply bind_inv in E. destruct E as ([] & w4 & Ec & E).
    apply ret_inv in E. destruct E as [<- <-].
    exists pr0, w2, st', pr', w3. split; [|split; [assumption|split; [reflexivity|]]].
    + destruct show.
      * unfold first_row in Ef.
        apply bind_inv in Ef. destruct Ef as ([] & wa & Ea & Ef).
        apply bind_inv in Ef. destruct Ef as ([] & wc & Ec' & Ef).
        apply bind_inv in Ef. destruct Ef as (x_0 & wd & Ed & Ef).
        apply bind_inv in Ef. destruct Ef as ([] & we & Ee & Ef).
        apply ret_inv in Ef. destruct Ef as [_ <-].
        unfold print in Ea, Ec', Ee.
        injection Ea as <-. injection Ec' as <-. injection Ee as <-.
        unfold item0, bind, load in Ed.
        destruct (nth (x st) (heap _) []); [discriminate|].
        apply ret_inv in Ed. destruct Ed as [_ <-].
        split; reflexivity.
      * apply ret_inv in Ef. destruct Ef as [_ <-]. apply same_store_refl.
    + destruct show; cbn [when] in Ec.
      * unfold closing in Ec.
        repeat (apply bind_inv in Ec; destruct Ec as ([] & ? & Ea & Ec);
                unfold print in Ea; injection Ea as <-).
        destruct (str1 pr'), (str2 pr'); try discriminate.
        apply bind_inv in Ec; destruct Ec as ([] & ? & Ea & Ec).
        unfold print in Ea; injection Ea as <-.
        destruct (str3 pr'), (str4 pr'); try discriminate.
        unfold print in Ec. injection Ec as <-. split; reflexivity.
      * apply ret_inv in Ec. destruct Ec as [_ <-]. apply same_store_refl.
Qed.

(** when the initial test finds [normar == 0], the call returns at once *)
Lemma lsmr_immediate w st w1 :
  initialize A b n (vnorm (cell w b)) x0 w = Ok st w1 ->
  (normar st =? zero) = true ->
  exists w2, lsmr fuel A b damp atol btol conlim maxiter show x0 w
             = Ok (result_of st) w2 /\ same_store w1 w2.
Proof.
  intros Ei Hz. unfold lsmr. subst n. unfold maxiter_of.
  destruct (shape A) as [m0 n0]. cbn [fst snd] in *.
  set (mi := match maxiter with None => Z.of_nat (Nat.min m0 n0) | Some k => k end).
  assert (Qb : quiet (when show (banner m0 n0 damp atol btol conlim mi)))
    by apply quiet_when, quiet_banner.
  destruct (Qb w) as ([] & wb & Eb & Sb).
  unfold bind at 1. rewrite Eb.
  unfold bind at 1. unfold norm at 1. unfold bind at 1, load at 1, ret at 1.
  change (nth b (heap wb) []) with (cell wb b).
  rewrite <- (same_store_cell b Sb).
  assert (Ho : same_outcome eq (initialize A b n0 (vnorm (cell w b)) x0 w)
                            (initialize A b n0 (vnorm (cell w b)) x0 wb))
    by (apply oblivious_initialize; assumption).
  rewrite Ei in Ho.
  unfold bind at 1.
  destruct (initialize A b n0 (vnorm (cell w b)) x0 wb) as [st2 w1'| |];
    simpl in Ho; try contradiction.
  destruct Ho as [<- S1]. rewrite Hz.
  assert (Qp : quiet (when show (print (T := T) (Println [Lit msg0]))))
    by apply quiet_when, quiet_print.
  destruct (Qp w1') as ([] & w2 & Ep & Sp).
  unfold bind at 1. rewrite Ep. exists w2. split; [reflexivity|].
  eapply same_store_trans; eassumption.
Qed.

End Lsmr.

Section LsmrEffects.
Context {T : Type} {ops : Sc.Ops T}.
Implicit Types w : @world T.
Implicit Types st : @vars T.
Implicit Types pr : @printer T.
Local Open Scope sc_scope.
Import Sc.

Lemma footprint_first_row L st : footprint L (first_row st).
Proof. unfold first_row. repeat footprint_step. Qed.

Lemma footprint_closing L st pr : footprint L (closing st pr).
Proof. unfold closing. repeat footprint_step. Qed.

Lemma halts_first_row st : halts (first_row st).
Proof. unfold first_row. repeat halts_step. Qed.

Lemma halts_closing st pr : halts (closing st pr).
Proof. unfold closing. repeat halts_step. Qed.

Lemma halts_banner m n (damp atol btol conlim : T) mi :
  halts (banner m n damp atol btol conlim mi).
Proof. unfold banner. repeat halts_step. Qed.

Lemma evolves_calls L w w' : evolves L w w' -> prefix (calls w) (calls w').
Proof. intros (_ & H & _). exact H. Qed.

Lemma evolves_cell L w w' l :
  evolves L w w' -> l < length (heap w) -> ~ In l L -> cell w' l = cell w l.
Proof. intros (_ & _ & _ & H). apply H. Qed.

Lemma evolves_same_store L w w1 w' :
  same_store w1 w' -> evolves L w w1 -> length (heap w) <= length (heap w').
Proof.
  intros [Hh _] E. rewrite <- Hh. eapply evolves_length; eassumption.
Qed.

End LsmrEffects.

Section Claims.
Context {T : Type} {ops : Sc.Ops T}.
Implicit Types w : @world T.
Implicit Types st : @vars T.
Implicit Types pr : @printer T.
Local Open Scope sc_scope.
Import Sc.
Variable fuel : nat.
Variable A : @LinearOperator T.
Variable b : loc.
Variables damp atol btol conlim : T.

(** C2.  If initialisation ends with [alpha * beta == 0], [lsmr] returns
    at once through the normal return path: the result is the initial
    state's tuple, with iteration count 0 and [normar == 0]; nothing
    happens after initialisation but printing; and [x] is the caller's
    [x0], unchanged, or a new zero vector of length [n]. *)
Theorem lsmr_immediate_return maxiter show x0 w st w1 :
  b < length (heap w) ->
  match x0 with Some l => l < length (heap w) | None => True end ->
  initialize A b (snd (shape A)) (vnorm (cell w b)) x0 w = Ok st w1 ->
  (alpha st * beta st =? zero) = true ->
  exists w2,
    lsmr fuel A b damp atol btol conlim maxiter show x0 w
    = Ok (result_of st) w2 /\
    same_store w1 w2 /\
    itn_of (result_of st) = 0%Z /\
    (normar_of (result_of st) =? zero) = true /\
    match x0 with
    | Some l => x_of (result_of st) = l /\ cell w2 l = cell w l
    | None => cell w2 (x_of (result_of st)) = zeros (snd (shape A))
    end.
Proof.
  intros Hb Hx0 Ei Hz.
  pose proof Ei as Hr. apply initialize_returns in Hr.
  destruct Hr as (Hitn & _ & Hnormar & _).
  pose proof (initialize_places _ _ _ _ _ Ei Hb Hx0) as Hp.
  destruct Hp as (_ & _ & _ & _ & _ & _ & _ & Hx).
  assert (Hz' : (normar st =? zero) = true) by (rewrite Hnormar; exact Hz).
  destruct (lsmr_immediate fuel A b damp atol btol conlim maxiter show x0 w Ei Hz')
    as (w2 & El & Hs).
  exists w2. split; [exact El|]. split; [exact Hs|].
  unfold result_of. cbn [itn_of normar_of x_of].
  split; [exact Hitn|]. split; [exact Hz'|].
  destruct x0 as [l|].
  - destruct Hx as [Hxl _]. split; [exact Hxl|].
    rewrite <- (same_store_cell l Hs).
    pose proof (footprint_initialize A (vnorm (cell w b)) (snd (shape A)) b (Some l) w) as F.
    rewrite Ei in F. specialize (F _ eq_refl).
    apply (evolves_cell F); [assumption|]. intros [].
  - destruct Hx as (_ & Hc & _).
    rewrite <- (same_store_cell _ Hs). exact Hc.
Qed.

Lemma map2_sub_zeros {Z0 : ZeroLaws} k :
  map2 sub (zeros k) (zeros k) = zeros k.
Proof.
  unfold zeros. induction k as [|k IH]; cbn; [reflexivity|].
  rewrite sub_zero, IH. reflexivity.
Qed.

(** initialisation with [b = 0] and [x0] omitted *)
Lemma initialize_zero_rhs {Z0 : ZeroLaws} n w k :
  cell w b = zeros k ->
  exists st w1,
    initialize A b n (vnorm (cell w b)) None w = Ok st w1 /\
    itn st = 0%Z /\ x st = length (heap w) /\
    normar st = zero * zero /\
    cell w1 (x st) = zeros n.
Proof.
  intros Hb.
  assert (Hn : vnorm (cell w b) = zero) by (rewrite Hb; apply vnorm_zeros).
  rewrite Hn. unfold initialize.
  unfold bind at 1. unfold bind at 1. unfold alloc at 1. unfold ret at 1.
  unfold bind at 1. rewrite gtb_zero.
  unfold bind at 1. unfold alloc at 1. unfold ret at 1.
  unfold bind at 1. rewrite gtb_zero. unfold ret at 1.
  unfold bind at 1. unfold clone at 1, bind at 1, load at 1, alloc at 1.
  unfold bind at 1. unfold alloc at 1. unfold ret at 1.
  eexists _, _. split; [reflexivity|]. cbn [itn x normar heap].
  repeat split; try reflexivity.
  unfold cell. cbn [heap]. rewrite <- !app_assoc.
  rewrite app_nth2 by lia. rewrite Nat.sub_diag. reflexivity.
Qed.

(** initialisation with [b = 0] and an [x0] that [A] maps to zero *)
Lemma initialize_zero_residual {Z0 : ZeroLaws} n normb l w k :
  b < length (heap w) -> l < length (heap w) ->
  cell w b = zeros k -> matvec A (cell w l) = Some (zeros k) ->
  exists st w1,
    initialize A b n normb (Some l) w = Ok st w1 /\
    itn st = 0%Z /\ x st = l /\ normar st = zero * zero.
Proof.
  intros Hb Hl Eb Ey. unfold initialize.
  unfold bind at 1. unfold bind at 1. unfold call_matvec at 1.
  unfold bind at 1. unfold load at 1. unfold bind at 1. unfold log_call at 1.
  fold (cell w l). rewrite Ey. unfold alloc at 1. cbn [heap calls out].
  unfold bind at 1. unfold minus at 1. unfold bind at 1. unfold load at 1.
  unfold bind at 1. unfold load at 1. cbn [heap calls out].
  rewrite nth_snoc_old by assumption.
  rewrite (@nth_snoc_new (list T) (heap w) (zeros k) []).
  fold (cell w b). rewrite Eb.
  unfold broadcast2. rewrite Nat.eqb_refl. rewrite map2_sub_zeros.
  unfold alloc at 1. cbn [heap calls out].
  unfold bind at 1. unfold norm at 1. unfold bind at 1. unfold load at 1.
  cbn [heap].
  rewrite (@nth_snoc_new (list T) (heap w ++ [zeros k]) (zeros k) []).
  rewrite vnorm_zeros. unfold ret at 1. unfold ret at 1.
  unfold bind at 1. rewrite gtb_zero.
  unfold bind at 1. unfold alloc at 1. unfold ret at 1.
  unfold bind at 1. rewrite gtb_zero. unfold ret at 1.
  unfold bind at 1. unfold clone at 1, bind at 1, load at 1, alloc at 1.
  unfold bind at 1. unfold alloc at 1. unfold ret at 1.
  eexists _, _. split; [reflexivity|]. cbn [itn x normar heap].
  repeat split; reflexivity.
Qed.

(** C4, as amended.  With [b] a zero vector, [lsmr] returns the initial
    guess with iteration count 0 when [x0] is omitted (a new zero vector
    of length [n]), whatever the operator, and when [x0] is a tensor that
    [A.matvec] maps to the zero vector ([x0] is left as it was). *)
Theorem lsmr_zero_rhs {Z0 : ZeroLaws} maxiter show w k :
  cell w b = zeros k ->
  (exists r w2,
      lsmr fuel A b damp atol btol conlim maxiter show None w = Ok r w2 /\
      itn_of r = 0%Z /\
      x_of r = length (heap w) /\
      cell w2 (x_of r) = zeros (snd (shape A))) /\
  (forall l,
      b < length (heap w) -> l < length (heap w) ->
      matvec A (cell w l) = Some (zeros k) ->
      exists r w2,
        lsmr fuel A b damp atol btol conlim maxiter show (Some l) w = Ok r w2 /\
        itn_of r = 0%Z /\
        x_of r = l /\
        cell w2 l = cell w l).
Proof.
  intros Hb. split.
  - destruct (@initialize_zero_rhs _ (snd (shape A)) w k Hb)
      as (st & w1 & Ei & Hitn & Hx & Hnormar & Hc).
    assert (Hz : (normar st =? zero) = true)
      by (rewrite Hnormar; apply eqb_zero_sq).
    destruct (lsmr_immediate fuel A b damp atol btol conlim maxiter show None w
                             Ei Hz) as (w2 & El & Hs).
    exists (result_of st), w2. split; [exact El|].
    unfold result_of. cbn [itn_of x_of].
    split; [exact Hitn|]. split; [exact Hx|].
    rewrite <- (same_store_cell _ Hs). exact Hc.
  - intros l Hlb Hl Ey.
    destruct (@initialize_zero_residual _ (snd (shape A)) (vnorm (cell w b))
                                        l w k Hlb Hl Hb Ey)
      as (st & w1 & Ei & Hitn & Hx & Hnormar).
    assert (Hz : (normar st =? zero) = true)
      by (rewrite Hnormar; apply eqb_zero_sq).
    destruct (lsmr_immediate fuel A b damp atol btol conlim maxiter show
                             (Some l) w Ei Hz) as (w2 & El & Hs).
    exists (result_of st), w2. split; [exact El|].
    unfold result_of. cbn [itn_of x_of].
    split; [exact Hitn|]. split; [exact Hx|].
    rewrite <- (same_store_cell l Hs).
    pose proof (footprint_initialize A (vnorm (cell w b)) (snd (shape A)) b
                                     (Some l) w) as F.
    rewrite Ei in F. specialize (F _ eq_refl).
    apply (evolves_cell F); [assumption|]. intros [].
Qed.

End Claims.

Section Cap.
Context {T : Type} {ops : Sc.Ops T}.
Implicit Types w : @world T.
Implicit Types st : @vars T.
Implicit Types pr : @printer T.
Local Open Scope sc_scope.
Import Sc.
Variable fuel : nat.
Variable A : @LinearOperator T.
Variable b : loc.
Variables damp atol btol conlim : T.

Lemma lsmr_terminates maxiter show x0 w :
  (Z.to_nat (Z.max (maxiter_of A maxiter) 1) <= fuel)%nat ->
  lsmr fuel A b damp atol btol conlim maxiter show x0 w <> OutOfFuel.
Proof.
  intros Hf. unfold lsmr. unfold maxiter_of in Hf.
  destruct (shape A) as [m0 n0]. cbn [fst snd] in Hf.
  set (mi := match maxiter with None => Z.of_nat (Nat.min m0 n0) | Some k => k end) in *.
  unfold bind at 1.
  destruct (when show (banner m0 n0 damp atol btol conlim mi) w) as [[] wb| |] eqn:Eb;
    try discriminate.
  2:{ exfalso. revert Eb. destruct show; cbn [when];
        [apply halts_banner|discriminate]. }
  unfold bind at 1. unfold norm at 1. unfold bind at 1, load at 1, ret at 1.
  unfold bind at 1.
  destruct (initialize A b n0 (vnorm (nth b (heap wb) [])) x0 wb)
    as [st w1| |] eqn:Ei; try discriminate.
  2:{ exfalso. exact (halts_initialize A _ n0 b x0 wb Ei). }
  apply initialize_returns in Ei. destruct Ei as (Hitn & _).
  destruct (normar st =? zero).
  - destruct show; cbn [when]; discriminate.
  - unfold bind at 1.
    destruct (if show then first_row st else ret _) as [pr0 w2| |] eqn:Ef;
      try discriminate.
    2:{ exfalso. revert Ef. destruct show; [apply halts_first_row|discriminate]. }
    unfold bind at 1.
    match goal with
    | |- context [loop ?a1 ?a2 ?a3 ?a4 ?a5 ?a6 ?a7 ?a8 ?a9 ?a10 ?a11 ?a12 ?a13] =>
      destruct (loop a1 a2 a3 a4 a5 a6 a7 a8 a9 a10 a11 a12 a13)
        as [[st' pr'] w3| |] eqn:El
    end; try discriminate.
    + unfold bind at 1.
      destruct (when show (closing st' pr') w3) as [[] w4| |] eqn:Ec;
        try discriminate.
      exfalso. revert Ec. destruct show; cbn [when];
        [apply halts_closing|discriminate].
    + exfalso. revert El. apply loop_terminates; rewrite ?Hitn; lia.
Qed.

Lemma lsmr_itn_bound maxiter show x0 w r w' :
  lsmr fuel A b damp atol btol conlim maxiter show x0 w = Ok r w' ->
  (0 <= itn_of r <= Z.max (maxiter_of A maxiter) 1)%Z.
Proof.
  intros E. apply lsmr_inv in E.
  destruct E as (wb & st & w1 & _ & Ei & [(_ & -> & _)|(_ & H)]).
  - apply initialize_returns in Ei. destruct Ei as (Hitn & _).
    unfold result_of. cbn [itn_of]. lia.
  - destruct H as (pr0 & w2 & st' & pr' & w3 & _ & El & -> & _).
    apply initialize_returns in Ei. destruct Ei as (Hitn & _).
    apply loop_returns in El. destruct El as (Hi & _).
    unfold result_of. cbn [itn_of]. lia.
Qed.

(** *** The first operator application *)

Lemma final_bind_calls {X Y} (m : @M T X) (k : X -> M Y) w w' pre :
  (forall w1, final_world (m w) = Some w1 -> prefix pre (calls w1)) ->
  (forall a, exists L, footprint L (k a)) ->
  final_world (bind m k w) = Some w' -> prefix pre (calls w').
Proof.
  intros Hm Hk E. apply bind_final in E.
  destruct E as [[e E]|(a & w1 & E1 & E)].
  - apply Hm. rewrite E. reflexivity.
  - destruct (Hk a) as [L F]. apply F in E. apply evolves_calls in E.
    eapply prefix_trans; [|exact E]. apply Hm. rewrite E1. reflexivity.
Qed.

Lemma call_matvec_calls l w w1 :
  final_world (call_matvec A l w) = Some w1 ->
  prefix (calls w ++ [Matvec (cell w l)]) (calls w1).
Proof.
  unfold call_matvec, bind, load, log_call. fold (cell w l).
  destruct (matvec A (cell w l)); cbn; intros E; injection E as <-;
    apply prefix_refl.
Qed.

Lemma call_rmatvec_calls l w w1 :
  final_world (call_rmatvec A l w) = Some w1 ->
  prefix (calls w ++ [Rmatvec (cell w l)]) (calls w1).
Proof.
  unfold call_rmatvec, bind, load, log_call. fold (cell w l).
  destruct (rmatvec A (cell w l)); cbn; intros E; injection E as <-;
    apply prefix_refl.
Qed.

Lemma initialize_first_call_x0 n normb l w w' :
  final_world (initialize A b n normb (Some l) w) = Some w' ->
  prefix (calls w ++ [Matvec (cell w l)]) (calls w').
Proof.
  unfold initialize. apply final_bind_calls.
  - intros w1. apply final_bind_calls.
    + apply call_matvec_calls.
    + intros t. exists []. repeat footprint_step.
  - intros [[x1 u1] beta1]. exists []. repeat footprint_step.
Qed.

Lemma initialize_first_call_b n normb w w' :
  b < length (heap w) ->
  (normb >? zero) = true ->
  final_world (initialize A b n normb None w) = Some w' ->
  prefix (calls w ++
          [Rmatvec (map (fun a => one / normb * a) (cell w b))]) (calls w').
Proof.
  unfold initialize. intros Hb Hn.
  unfold bind at 1. unfold bind at 1.
  unfold alloc at 1, ret at 1. rewrite Hn.
  set (wx := World (heap w ++ [zeros n]) (calls w) (out w)).
  change (calls w) with (calls wx).
  assert (Hc : cell w b = cell wx b).
  { unfold cell, wx. cbn [heap]. rewrite app_nth1 by assumption. reflexivity. }
  rewrite Hc. clearbody wx. clear Hc.
  apply final_bind_calls.
  - intros w1. unfold bind at 1. unfold scaled at 1.
    unfold bind at 1, load at 1, alloc at 1. fold (cell wx b).
    set (wa := World _ _ _).
    replace (map (fun a => one / normb * a) (cell wx b))
      with (cell wa (length (heap wx)))
      by (unfold cell, wa; cbn [heap]; apply nth_snoc_new).
    change (calls wx) with (calls wa). clearbody wa.
    apply final_bind_calls.
    + apply call_rmatvec_calls.
    + intros t. exists []. repeat footprint_step.
  - intros [[u1 v1] alpha1]. exists []. repeat footprint_step.
Qed.

(** C8, as amended.  [lsmr] checks no shape: whatever the lengths of
    [b] and [x0], the first thing a call does to the operator is to apply
    it to the tensor it was given: [A.matvec] to [x0] as it is when [x0]
    is supplied, and [A.rmatvec] to [b / ||b||] when it is not and
    [||b|| > 0].  An error can only come from that application or after
    it. *)
Theorem lsmr_applies_operator_unchecked maxiter show w :
  b < length (heap w) ->
  (forall l w',
      final_world (lsmr fuel A b damp atol btol conlim maxiter show (Some l) w)
      = Some w' ->
      exists rest, calls w' = calls w ++ Matvec (cell w l) :: rest) /\
  ((vnorm (cell w b) >? zero) = true ->
   forall w',
   final_world (lsmr fuel A b damp atol btol conlim maxiter show None w)
   = Some w' ->
   exists rest,
     calls w' = calls w ++
                Rmatvec (map (fun a => one / vnorm (cell w b) * a) (cell w b))
                :: rest).
Proof.
  intros Hb.
  assert (Hrest : forall w' x0 pre,
             (forall wb w1,
                 same_store w wb ->
                 final_world (initialize A b (snd (shape A))
                                         (vnorm (cell w b)) x0 wb) = Some w1 ->
                 prefix pre (calls w1)) ->
             final_world (lsmr fuel A b damp atol btol conlim maxiter show x0 w)
             = Some w' -> prefix pre (calls w')).
  { intros w' x0 pre Hi. unfold lsmr.
    destruct (shape A) as [m0 n0]. cbn [fst snd] in *.
    set (mi := match maxiter with None => Z.of_nat (Nat.min m0 n0) | Some k => k end).
    assert (Qb : quiet (when show (banner m0 n0 damp atol btol conlim mi)))
      by apply quiet_when, quiet_banner.
    destruct (Qb w) as ([] & wb & Eb & Sb).
    unfold bind at 1. rewrite Eb.
    unfold bind at 1. unfold norm at 1. unfold bind at 1, load at 1, ret at 1.
    change (nth b (heap wb) []) with (cell wb b).
    rewrite <- (same_store_cell b Sb).
    apply final_bind_calls.
    - intros w1. apply Hi. assumption.
    - intros st. exists (cells st).
      destruct (normar st =? zero); [repeat footprint_step|].
      apply footprint_bind.
      { destruct show; [apply footprint_first_row|apply footprint_ret]. }
      intros pr0. apply footprint_bind; [apply footprint_loop|].
      intros [st' pr']. apply footprint_bind; [|intros; apply footprint_ret].
      apply footprint_when, footprint_closing. }
  split.
  - intros l w' E.
    apply (Hrest w' (Some l) (calls w ++ [Matvec (cell w l)])) in E.
    + destruct E as [e E]. exists e. rewrite E, <- app_assoc. reflexivity.
    + intros wb w1 Sb Ei. apply initialize_first_call_x0 in Ei.
      destruct Sb as [Sh Sc]. unfold cell in *. rewrite <- Sh, <- Sc in Ei.
      exact Ei.
  - intros Hn w' E.
    apply (Hrest w' None (calls w ++
             [Rmatvec (map (fun a => one / vnorm (cell w b) * a) (cell w b))]))
      in E.
    + destruct E as [e E]. exists e. rewrite E, <- app_assoc. reflexivity.
    + intros wb w1 Sb Ei. apply initialize_first_call_b in Ei.
      * destruct Sb as [Sh Sc]. unfold cell in *. rewrite <- Sh, <- Sc in Ei.
        exact Ei.
      * destruct Sb as [Sh _]. rewrite <- Sh. assumption.
      * assumption.
Qed.

End Cap.

Section ShowFlag.
Context {T : Type} {ops : Sc.Ops T}.
Implicit Types w : @world T.
Implicit Types st : @vars T.
Implicit Types pr : @printer T.
Local Open Scope sc_scope.
Import Sc.

Lemma cell_nonempty_valid w l : cell w l <> [] -> l < length (heap w).
Proof.
  intros H. destruct (Nat.lt_ge_cases l (length (heap w))) as [|Hge]; [assumption|].
  exfalso. apply H. unfold cell. apply nth_overflow. assumption.
Qed.

Lemma nth_error_lens w l :
  l < length (heap w) -> nth_error (lens w) l = Some (length (cell w l)).
Proof.
  intros H. unfold lens, cell. rewrite nth_error_map.
  rewrite (nth_error_nth' (heap w) [] H). reflexivity.
Qed.

(** a tensor keeps its length *)
Lemma evolves_cell_length L w w' l :
  evolves L w w' -> l < length (heap w) ->
  length (cell w' l) = length (cell w l).
Proof.
  intros E Hl. pose proof (evolves_length E) as Hlen.
  destruct E as (Hp & _).
  assert (H0 : nth_error (lens w) l = Some (length (cell w l)))
    by (apply nth_error_lens; assumption).
  assert (H1 : nth_error (lens w') l = Some (length (cell w l)))
    by (eapply prefix_nth_error; eassumption).
  rewrite nth_error_lens in H1 by lia. congruence.
Qed.

Lemma evolves_cell_nonempty L w w' l :
  evolves L w w' -> cell w l <> [] -> cell w' l <> [].
Proof.
  intros E H. assert (Hl : l < length (heap w)) by (apply cell_nonempty_valid; assumption).
  assert (Hlen : length (cell w' l) = length (cell w l))
    by (eapply evolves_cell_length; eassumption).
  destruct (cell w l); [contradiction|]. destruct (cell w' l); [discriminate|].
  discriminate.
Qed.

Lemma item0_quiet l w :
  cell w l <> [] -> exists a, item0 l w = Ok a w.
Proof.
  intros H. unfold item0, bind, load. fold (cell w l).
  destruct (cell w l) as [|a ?]; [contradiction|]. exists a. reflexivity.
Qed.

Variable A : @LinearOperator T.
Variables damp atol btol : T.
Variable maxiter : Z.
Variables normb ctol : T.
Variable n : nat.

(** the row of a pass only prints, when [x] has a first component *)
Lemma report_quiet st ts pr w :
  cell w (x st) <> [] ->
  exists pr' w', report atol maxiter ctol n st ts pr w = Ok pr' w' /\
                 same_store w w' /\
                 (rows_bound pr -> rows_bound pr') /\
                 (stop ts = true -> all_bound pr').
Proof.
  intros Hx. unfold report.
  match goal with |- context [if ?c then _ else _] => destruct c eqn:Hc end.
  - assert (H1 : exists pc w1,
               (if (pcount pr >=? pfreq)%Z
                then bind (print (Println [Lit " "]))
                       (fun _ => bind (print (Println [Lit hdg1; Lit hdg2]))
                                   (fun _ => ret 0%Z))
                else ret (pcount pr)) w = Ok pc w1 /\ same_store w w1).
    { destruct (pcount pr >=? pfreq)%Z.
      - eexists _, _. split; [reflexivity|]. split; reflexivity.
      - eexists _, _. split; [reflexivity|]. apply same_store_refl. }
    destruct H1 as (pc & w1 & E1 & S1).
    unfold bind at 1. rewrite E1.
    assert (Hx1 : cell w1 (x st) <> []) by (rewrite <- (same_store_cell _ S1); exact Hx).
    destruct (@item0_quiet (x st) w1 Hx1) as [a Ea].
    unfold bind at 1. rewrite Ea.
    eexists _, _. split; [reflexivity|].
    split; [destruct S1; split; assumption|].
    split; [intros _|intros _; split]; repeat split; cbn; discriminate.
  - exists pr, w. split; [reflexivity|]. split; [apply same_store_refl|].
    split; [tauto|]. intros Hs. rewrite Hs in Hc.
    rewrite !orb_true_r in Hc. discriminate.
Qed.

(** a pass with its row and a pass without have the same outcome *)
Lemma body_show st pr1 pr2 w1 w2 :
  same_store w1 w2 -> cell w1 (x st) <> [] -> rows_bound pr1 ->
  same_outcome (fun r1 r2 => fst r1 = fst r2 /\ rows_bound (snd r1) /\
                             (stop (snd (fst r1)) = true -> all_bound (snd r1)))
               (body A damp atol btol maxiter normb ctol n true st pr1 w1)
               (body A damp atol btol maxiter normb ctol n false st pr2 w2).
Proof.
  intros Hs Hx Hr. unfold body.
  assert (Ho : same_outcome eq (pass A damp atol btol maxiter normb ctol st w1)
                               (pass A damp atol btol maxiter normb ctol st w2))
    by (apply oblivious_pass; assumption).
  assert (Hf : forall w', final_world (pass A damp atol btol maxiter normb ctol st w1)
                          = Some w' -> evolves (cells st) w1 w')
    by (intros w'; apply footprint_pass).
  unfold bind at 1 3.
  destruct (pass A damp atol btol maxiter normb ctol st w1)
    as [[st1 ts1] w1'|e1 w1'|] eqn:E1,
     (pass A damp atol btol maxiter normb ctol st w2)
    as [[st2 ts2] w2'|e2 w2'|] eqn:E2;
    simpl in Ho; try contradiction; try assumption.
  destruct Ho as [Ho Hs']. injection Ho as <- <-.
  specialize (Hf _ eq_refl).
  assert (Hx' : cell w1' (x st) <> []) by (eapply evolves_cell_nonempty; eassumption).
  apply pass_returns in E1. cbn [fst snd] in E1. destruct E1 as (_ & _ & Hxx & _).
  rewrite <- Hxx in Hx'.
  destruct (@report_quiet st1 ts1 pr1 w1' Hx') as (pr' & w1'' & Er & Sr & Hb1 & Hb2).
  unfold bind. rewrite Er. cbn.
  split; [|eapply same_store_trans; [apply same_store_sym; exact Sr|exact Hs']].
  split; [reflexivity|]. split; [apply Hb1; assumption|exact Hb2].
Qed.

(** the loop with its rows and the loop without have the same outcome *)
Lemma loop_show fuel : forall st pr1 pr2 w1 w2,
  same_store w1 w2 -> cell w1 (x st) <> [] -> rows_bound pr1 ->
  same_outcome (fun r1 r2 => fst r1 = fst r2 /\ all_bound (snd r1))
               (loop A damp atol btol maxiter normb ctol n true fuel st pr1 w1)
               (loop A damp atol btol maxiter normb ctol n false fuel st pr2 w2).
Proof.
  induction fuel as [|fuel IH]; intros st pr1 pr2 w1 w2 Hs Hx Hr.
  - exact I.
  - cbn [loop].
    pose proof (@body_show st pr1 pr2 w1 w2 Hs Hx Hr) as Hb.
    assert (Hf : forall w', final_world (body A damp atol btol maxiter normb ctol n true st pr1 w1)
                            = Some w' -> evolves (cells st) w1 w')
      by (intros w'; apply footprint_body).
    unfold bind at 1 2.
    destruct (body A damp atol btol maxiter normb ctol n true st pr1 w1)
      as [[[st1 ts1] p1] w1'|e1 w1'|] eqn:E1,
       (body A damp atol btol maxiter normb ctol n false st pr2 w2)
      as [[[st2 ts2] p2] w2'|e2 w2'|] eqn:E2;
      simpl in Hb; try contradiction; try assumption.
    destruct Hb as [(Hb & Hr1 & Ha1) Hs']. injection Hb as <- <-.
    destruct (stop ts1) eqn:Hst.
    + cbn. split; [|assumption]. split; [reflexivity|]. apply Ha1. reflexivity.
    + apply IH; try assumption.
      specialize (Hf _ eq_refl).
      apply body_returns in E1. destruct E1 as (_ & _ & Hxx & _).
      rewrite Hxx. eapply evolves_cell_nonempty; eassumption.
Qed.

End ShowFlag.

Section ShowClaim.
Context {T : Type} {ops : Sc.Ops T}.
Implicit Types w : @world T.
Implicit Types st : @vars T.
Implicit Types pr : @printer T.
Local Open Scope sc_scope.
Import Sc.

Lemma first_row_quiet st w :
  cell w (x st) <> [] ->
  exists pr w', first_row st w = Ok pr w' /\ same_store w w' /\ rows_bound pr.
Proof.
  intros Hx. unfold first_row.
  unfold bind at 1. unfold print at 1.
  unfold bind at 1. unfold print at 1.
  set (wa := World _ _ _).
  assert (Hxa : cell wa (x st) <> []) by exact Hx.
  destruct (@item0_quiet T (x st) wa Hxa) as [a Ea].
  unfold bind at 1. rewrite Ea.
  eexists _, _. split; [reflexivity|]. split; [split; reflexivity|].
  repeat split; cbn; discriminate.
Qed.

Lemma closing_quiet st pr w :
  all_bound pr -> exists w', closing st pr w = Ok tt w' /\ same_store w w'.
Proof.
  intros ((H1 & H2 & H3) & H4). unfold closing.
  destruct (str1 pr) as [s1|]; [|contradiction].
  destruct (str2 pr) as [s2|]; [|contradiction].
  destruct (str3 pr) as [s3|]; [|contradiction].
  destruct (str4 pr) as [s4|]; [|contradiction].
  eexists. split; [reflexivity|]. split; reflexivity.
Qed.

Lemma sim_bind {X1 X2 Y1 Y2} (R : X1 -> X2 -> Prop) (R' : Y1 -> Y2 -> Prop)
      (m1 : @M T X1) (m2 : @M T X2) (k1 : X1 -> M Y1) (k2 : X2 -> M Y2) w1 w2 :
  same_outcome R (m1 w1) (m2 w2) ->
  (forall a1 a2 w1' w2',
      m1 w1 = Ok a1 w1' -> R a1 a2 -> same_store w1' w2' ->
      same_outcome R' (k1 a1 w1') (k2 a2 w2')) ->
  same_outcome R' (bind m1 k1 w1) (bind m2 k2 w2).
Proof.
  intros Hm Hk. unfold bind.
  destruct (m1 w1) as [a1 w1'|e1 w1'|], (m2 w2) as [a2 w2'|e2 w2'|];
    simpl in Hm; try contradiction; try assumption.
  destruct Hm as [Hr Hs]. apply Hk; auto.
Qed.

Lemma quiet_left {X} (m : @M T X) w1 w2 :
  same_store w1 w2 -> quiet m ->
  same_outcome (fun _ _ => True) (m w1) (ret tt w2).
Proof.
  intros Hs Hq. destruct (Hq w1) as (a & w' & E & S). rewrite E. cbn.
  split; [exact I|].
  eapply same_store_trans; [apply same_store_sym; exact S|exact Hs].
Qed.

(** a call with [show=True] and the same call with [show=False] differ
    in what is printed only *)
Lemma lsmr_show_same fuel (A : @LinearOperator T) b
        damp atol btol conlim maxiter x0 w :
  b < length (heap w) ->
  match x0 with
  | Some l => cell w l <> []
  | None => (0 < snd (shape A))%nat
  end ->
  same_outcome eq
    (lsmr fuel A b damp atol btol conlim maxiter true x0 w)
    (lsmr fuel A b damp atol btol conlim maxiter false x0 w).
Proof.
  intros Hb Hx0. unfold lsmr.
  destruct (shape A) as [m0 n0] eqn:Hshape. cbn [fst snd] in *.
  set (mi := match maxiter with None => Z.of_nat (Nat.min m0 n0) | Some k => k end).
  cbn [when].
  eapply sim_bind; [apply quiet_left; [apply same_store_refl|apply quiet_banner]|].
  intros [] [] wb w0 Eb _ Sb.
  assert (Fb : evolves [] w wb).
  { assert (F : footprint [] (banner m0 n0 damp atol btol conlim mi))
      by (unfold banner; repeat footprint_step).
    apply F. rewrite Eb. reflexivity. }
  unfold ret in Eb |- *. clear Eb.
  eapply sim_bind with (R := eq).
  { unfold norm, bind, load, ret. cbn. destruct Sb as [Sh Sc].
    rewrite Sh. repeat split; assumption. }
  intros normb ? wb' w0' En <- Sb'.
  apply norm_inv in En. destruct En as [Hnb ->].
  eapply sim_bind with (R := eq); [apply oblivious_initialize; assumption|].
  intros st ? w1 w2 E1 <- Hs.
  destruct (normar st =? zero).
  - eapply sim_bind; [apply quiet_left; [exact Hs|apply quiet_print]|].
    intros [] [] w1' w2' _ _ Hs'. cbn. split; [reflexivity|assumption].
  - (* the solution vector is not empty *)
    assert (Hbb : b < length (heap wb))
      by (pose proof (evolves_length Fb); lia).
    assert (Hx : cell w1 (x st) <> []).
    { assert (Hx0' : match x0 with
                     | Some l => l < length (heap wb)
                     | None => True
                     end).
      { destruct x0 as [l|]; [|exact I].
        apply cell_nonempty_valid. eapply evolves_cell_nonempty; eassumption. }
      pose proof (initialize_places _ _ _ _ _ E1 Hbb Hx0') as Hp.
      destruct Hp as (_ & _ & _ & _ & _ & _ & _ & Hp).
      assert (Hf : evolves [] wb w1).
      { assert (F : footprint [] (initialize A b n0 normb x0))
          by apply footprint_initialize.
        apply F. rewrite E1. reflexivity. }
      destruct x0 as [l|].
      - destruct Hp as [-> _].
        eapply evolves_cell_nonempty; [exact Hf|].
        eapply evolves_cell_nonempty; eassumption.
      - destruct Hp as (_ & -> & _). unfold zeros.
        destruct n0; [lia|]. discriminate. }
    eapply sim_bind with (R := fun pr1 _ => rows_bound pr1).
    { destruct (@first_row_quiet st w1 Hx) as (pr0 & w1' & Ef & Sf & Hr).
      rewrite Ef. cbn. split; [assumption|].
      eapply same_store_trans; [apply same_store_sym; exact Sf|exact Hs]. }
    intros pr1 pr2 w1' w2' Ef Hr Hs'.
    assert (Hx' : cell w1' (x st) <> []).
    { eapply evolves_cell_nonempty; [|exact Hx].
      assert (F : footprint [] (first_row st)) by apply footprint_first_row.
      apply F. rewrite Ef. reflexivity. }
    eapply sim_bind; [apply loop_show; assumption|].
    intros [sta pra] [stb prb] wa wb2 _ [Hl Hall] Hsl.
    cbn [fst snd] in Hl, Hall. subst stb.
    eapply sim_bind; [apply quiet_left; [exact Hsl|intros w']|].
    { destruct (@closing_quiet sta pra w' Hall) as (wc & Ec & Sc).
      exists tt, wc. split; assumption. }
    intros [] [] wa' wb' _ _ Hs''. cbn. split; [reflexivity|assumption].
Qed.

End ShowClaim.

(** *** The update of [x] in a pass *)

Section StepOfPass.
Context {T : Type} {ops : Sc.Ops T}.
Implicit Types w : @world T.
Implicit Types st : @vars T.
Implicit Types pr : @printer T.
Local Open Scope sc_scope.
Import Sc.

Lemma imul_inv l (c : T) w a w' :
  imul l c w = Ok a w' ->
  w' = World (update l (map (fun a => a * c) (cell w l)) (heap w))
             (calls w) (out w).
Proof. unfold imul, bind, load, store. intros E. injection E as _ <-. reflexivity. Qed.

Lemma iadd_inv l l' w a w' :
  iadd l l' w = Ok a w' ->
  exists r, inplace2 add (cell w l) (cell w l') = Some r /\
            w' = World (update l r (heap w)) (calls w) (out w).
Proof.
  unfold iadd, bind, load, store. fold (cell w l). fold (cell w l').
  destruct (inplace2 add (cell w l) (cell w l')) as [r|]; [|discriminate].
  intros E. injection E as _ <-. exists r. split; reflexivity.
Qed.

Lemma cell_update_same w l (cv : list T) :
  l < length (heap w) ->
  cell (World (update l cv (heap w)) (calls w) (out w)) l = cv.
Proof. intros H. unfold cell. cbn [heap]. apply nth_update_same. assumption. Qed.

Lemma cell_update_other w l l' (cv : list T) :
  l' <> l ->
  cell (World (update l cv (heap w)) (calls w) (out w)) l' = cell w l'.
Proof. intros H. unfold cell. cbn [heap]. apply nth_update_other. assumption. Qed.

Lemma run_evolves {X} L (m : @M T X) w a w' :
  footprint L m -> m w = Ok a w' -> evolves L w w'.
Proof. intros F E. apply F. rewrite E. reflexivity. Qed.

Variable A : @LinearOperator T.
Variables damp atol btol : T.
Variable maxiter : Z.
Variables normb ctol : T.
Variable n : nat.

(** a pass adds its step to [x], when [x] and [hbar] are tensors of
    their own *)
Lemma pass_adds_step st w st' ts w' :
  pass A damp atol btol maxiter normb ctol st w = Ok (st', ts) w' ->
  x st < length (heap w) -> hbar st < length (heap w) ->
  ~ In (x st) [u st; v st; h st; hbar st] -> hbar st <> h st ->
  adds_step st' w w'.
Proof.
  intros E Hx Hhb Hnx Hne.
  assert (Hxu : x st <> u st) by (intros H; apply Hnx; rewrite H; cbn; tauto).
  assert (Hxv : x st <> v st) by (intros H; apply Hnx; rewrite H; cbn; tauto).
  assert (Hxh : x st <> h st) by (intros H; apply Hnx; rewrite H; cbn; tauto).
  assert (Hxb : x st <> hbar st) by (intros H; apply Hnx; rewrite H; cbn; tauto).
  unfold pass in E. cbv beta iota zeta in E.
  (* the bidiagonalization writes [u] and [v] only *)
  apply bind_inv in E. destruct E as (a1 & w1 & E1 & E).
  apply (run_evolves (L := [u st; v st])) in E1; [|repeat footprint_step].
  apply bind_inv in E. destruct E as (t2 & w2 & E2 & E).
  apply (run_evolves (L := [u st; v st])) in E2; [|repeat footprint_step].
  apply bind_inv in E. destruct E as (a3 & w3 & E3 & E).
  apply (run_evolves (L := [u st; v st])) in E3; [|repeat footprint_step].
  apply bind_inv in E. destruct E as (beta' & w4 & E4 & E).
  apply (run_evolves (L := [u st; v st])) in E4; [|repeat footprint_step].
  apply bind_inv in E. destruct E as (alpha' & w5 & E5 & E).
  apply (run_evolves (L := [u st; v st])) in E5; [|repeat footprint_step].
  assert (F : evolves [u st; v st] w w5)
    by (repeat (eapply evolves_trans; [eassumption|]); apply evolves_refl).
  clear E1 E2 E3 E4 E5 w1 w2 w3 w4.
  assert (Hx5 : cell w5 (x st) = cell w (x st)).
  { apply (evolves_cell F Hx). intros [H|[H|[]]]; congruence. }
  assert (Hl5 : length (heap w) <= length (heap w5))
    by (eapply evolves_length; eassumption).
  clear F.
  (* the rotations *)
  destruct (_sym_ortho (alphabar st) damp) as [[chat shat] alphahat].
  cbv beta iota zeta in E.
  destruct (_sym_ortho alphahat beta') as [[c s] rho'].
  cbv beta iota zeta in E.
  destruct (_sym_ortho (cbar st * rho') (s * alpha')) as [[cbar' sbar'] rhobar'].
  cbv beta iota zeta in E.
  (* the updates of hbar, x and h *)
  apply bind_inv in E. destruct E as (a6 & w6 & E6 & E).
  apply imul_inv in E6.
  apply bind_inv in E. destruct E as (a7 & w7 & E7 & E).
  apply iadd_inv in E7. destruct E7 as (r7 & _ & E7).
  apply bind_inv in E. destruct E as (t8 & w8 & E8 & E).
  apply scaled_inv in E8. destruct E8 as (Et8 & Eh8 & _).
  apply bind_inv in E. destruct E as (a9 & w9 & E9 & E).
  apply iadd_inv in E9. destruct E9 as (r9 & Hr9 & E9).
  apply bind_inv in E. destruct E as (a10 & w10 & E10 & E).
  apply imul_inv in E10.
  apply bind_inv in E. destruct E as (a11 & w11 & E11 & E).
  apply iadd_inv in E11. destruct E11 as (r11 & _ & E11).
  (* what is left computes the estimates *)
  destruct (_sym_ortho (rhodold st) (sbar st * rho'))
    as [[ctildeold stildeold] rhotildeold].
  cbv beta iota zeta in E.
  apply bind_inv in E. destruct E as (nx & w12 & E12 & E).
  apply norm_inv in E12. destruct E12 as [_ ->].
  apply ret_inv in E. destruct E as [E <-]. injection E as <- _.
  unfold adds_step. cbn [x hbar zeta rho rhobar].
  (* the stores, one after the other *)
  assert (L6 : length (heap w6) = length (heap w5))
    by (rewrite E6; cbn [heap]; apply length_update).
  assert (X6 : cell w6 (x st) = cell w5 (x st))
    by (rewrite E6; apply cell_update_other; assumption).
  assert (L7 : length (heap w7) = length (heap w6))
    by (rewrite E7; cbn [heap]; apply length_update).
  assert (X7 : cell w7 (x st) = cell w6 (x st))
    by (rewrite E7; apply cell_update_other; assumption).
  assert (X8 : cell w8 (x st) = cell w7 (x st)).
  { unfold cell. rewrite Eh8. apply nth_snoc_old. lia. }
  assert (B8 : cell w8 (hbar st) = cell w7 (hbar st)).
  { unfold cell. rewrite Eh8. apply nth_snoc_old. lia. }
  assert (T8 : cell w8 t8
               = map (fun a => cbar' * zetabar st / (rho' * rhobar') * a)
                     (cell w7 (hbar st))).
  { unfold cell at 1. rewrite Eh8, Et8. apply nth_snoc_new. }
  assert (L8 : length (heap w8) = S (length (heap w7)))
    by (rewrite Eh8, length_app; cbn; lia).
  assert (X9 : cell w9 (x st) = r9)
    by (rewrite E9; apply cell_update_same; lia).
  assert (B9 : cell w9 (hbar st) = cell w8 (hbar st))
    by (rewrite E9; apply cell_update_other; congruence).
  assert (X10 : cell w10 (x st) = cell w9 (x st))
    by (rewrite E10; apply cell_update_other; assumption).
  assert (B10 : cell w10 (hbar st) = cell w9 (hbar st))
    by (rewrite E10; apply cell_update_other; assumption).
  assert (X11 : cell w11 (x st) = cell w10 (x st))
    by (rewrite E11; apply cell_update_other; assumption).
  assert (B11 : cell w11 (hbar st) = cell w10 (hbar st))
    by (rewrite E11; apply cell_update_other; assumption).
  rewrite X11, X10, X9, B11, B10, B9, B8, <- Hx5, <- X6, <- X7, <- X8, <- T8.
  exact Hr9.
Qed.

(** the same for the body of the loop, which only prints after the pass *)
Lemma body_adds_step show st pr w st' ts pr' w' :
  body A damp atol btol maxiter normb ctol n show st pr w
  = Ok (st', ts, pr') w' ->
  x st < length (heap w) -> hbar st < length (heap w) ->
  ~ In (x st) [u st; v st; h st; hbar st] -> hbar st <> h st ->
  adds_step st' w w'.
Proof.
  intros E Hx Hhb Hnx Hne. unfold body in E.
  apply bind_inv in E. destruct E as ([st1 ts1] & w1 & E1 & E).
  apply bind_inv in E. destruct E as (pr1 & w2 & E2 & E).
  apply ret_inv in E. destruct E as [E <-]. injection E as <- <- <-.
  pose proof E1 as H. apply pass_adds_step in H; try assumption.
  pose proof E1 as Hr. apply pass_returns in Hr.
  destruct Hr as (_ & Hc & Hxx & _). cbn [fst] in Hc, Hxx.
  assert (Hhh : hbar st1 = hbar st) by (unfold cells in Hc; congruence).
  assert (L1 : length (heap w) <= length (heap w1)).
  { eapply evolves_length. eapply run_evolves; [apply footprint_pass|exact E1]. }
  assert (F : evolves [] w1 w2).
  { destruct show.
    - eapply run_evolves; [apply footprint_report|exact E2].
    - apply ret_inv in E2. destruct E2 as [_ <-]. apply evolves_refl. }
  unfold adds_step in *.
  rewrite (evolves_cell (l := hbar st1) F), (evolves_cell (l := x st1) F);
    [exact H|rewrite Hxx; lia|intros []|rewrite Hhh; lia|intros []].
Qed.

(** the passes of the loop, from a state in which [x] and [hbar] are
    tensors of their own *)
Lemma loop_updating show fuel : forall st pr w st' pr' w',
  loop A damp atol btol maxiter normb ctol n show fuel st pr w
  = Ok (st', pr') w' ->
  x st < length (heap w) -> hbar st < length (heap w) ->
  ~ In (x st) [u st; v st; h st; hbar st] -> hbar st <> h st ->
  exists ts,
    updating (body A damp atol btol maxiter normb ctol n show)
             st pr w st' ts pr' w' /\ stop ts = true.
Proof.
  induction fuel as [|fuel IH]; intros st pr w st' pr' w' E Hx Hhb Hnx Hne;
    [discriminate|].
  cbn [loop] in E. apply bind_inv in E.
  destruct E as ([[st1 ts1] pr1] & w1 & E1 & E).
  pose proof E1 as Hr. apply body_returns in Hr.
  destruct Hr as (_ & Hc & Hxx & _).
  pose proof E1 as Hs. apply body_adds_step in Hs; try assumption.
  destruct (stop ts1) eqn:Hstop.
  - apply ret_inv in E. destruct E as [E <-]. injection E as <- <-.
    exists ts1. split; [|exact Hstop].
    apply updating_once; assumption.
  - assert (L1 : length (heap w) <= length (heap w1)).
    { eapply evolves_length. eapply run_evolves; [apply footprint_body|exact E1]. }
    unfold cells in Hc. injection Hc as Hu Hv Hh Hb _.
    apply IH in E.
    + destruct E as (ts & Hup & Hst). exists ts. split; [|exact Hst].
      eapply updating_more; eassumption.
    + rewrite Hxx. lia.
    + rewrite Hb. lia.
    + rewrite Hxx, Hu, Hv, Hh, Hb. exact Hnx.
    + rewrite Hb, Hh. exact Hne.
Qed.

End StepOfPass.

Section InPlace.
Context {T : Type} {ops : Sc.Ops T}.
Implicit Types w : @world T.
Implicit Types st : @vars T.
Implicit Types pr : @printer T.
Local Open Scope sc_scope.
Import Sc.

(** with [x0] given, the tensor at [x0] keeps its value on the early
    return, and otherwise receives the step of every pass *)
Lemma lsmr_x0_trail fuel (A : @LinearOperator T) b
      damp atol btol conlim maxiter show l w r w' :
  b < length (heap w) -> l < length (heap w) ->
  lsmr fuel A b damp atol btol conlim maxiter show (Some l) w = Ok r w' ->
  (itn_of r = 0%Z /\ cell w' l = cell w l) \/
  exists w0 st w1 pr w2 st' ts pr' w3,
    same_store w w0 /\
    initialize A b (snd (shape A)) (vnorm (cell w b)) (Some l) w0 = Ok st w1 /\
    same_store w1 w2 /\ x st = l /\ cell w2 l = cell w l /\
    updating (body A damp atol btol (maxiter_of A maxiter) (vnorm (cell w b))
                   (if conlim >? zero then one / conlim else zero)
                   (snd (shape A)) show) st pr w2 st' ts pr' w3 /\
    stop ts = true /\ r = result_of st' /\ cell w' l = cell w3 l.
Proof.
  intros Hb Hl E. apply lsmr_inv in E.
  destruct E as (wb & st & w1 & Sb & Ei & Hcase).
  assert (Hlw : length (heap w) = length (heap wb))
    by (destruct Sb as [-> _]; reflexivity).
  assert (Hbb : b < length (heap wb)) by lia.
  assert (Hlb : l < length (heap wb)) by lia.
  pose proof (initialize_places _ _ _ _ _ Ei Hbb Hlb) as Hp.
  destruct Hp as (Hv & Hh & Hhb & Hlen & Huv & Hxv & Hxu & Hx & Hu).
  assert (Fi : evolves [] wb w1).
  { assert (F : footprint [] (initialize A b (snd (shape A))
                                         (vnorm (cell w b)) (Some l)))
      by apply footprint_initialize.
    apply F. rewrite Ei. reflexivity. }
  assert (Hw1 : cell w1 l = cell w l).
  { rewrite (same_store_cell l Sb). apply (evolves_cell Fi); [lia|intros []]. }
  destruct Hcase as [(_ & -> & S1)|(_ & pr0 & w2 & st' & pr' & w3 & S2 & El & -> & S3)].
  - left. split.
    + apply initialize_returns in Ei. destruct Ei as (Hitn & _).
      unfold result_of. cbn [itn_of]. exact Hitn.
    + rewrite <- (same_store_cell l S1). exact Hw1.
  - right.
    assert (H12 : heap w1 = heap w2) by (destruct S2 as [-> _]; reflexivity).
    pose proof El as Hup. apply loop_updating in Hup.
    + destruct Hup as (ts & Hup & Hst).
      exists wb, st, w1, pr0, w2, st', ts, pr', w3.
      split; [exact Sb|]. split; [exact Ei|]. split; [exact S2|].
      split; [exact Hx|].
      split; [rewrite <- (same_store_cell l S2); exact Hw1|].
      split; [exact Hup|]. split; [exact Hst|]. split; [reflexivity|].
      symmetry. apply (same_store_cell l S3).
    + rewrite <- H12. lia.
    + rewrite <- H12. exact Hlen.
    + cbn [In]. intros [H|[H|[H|[H|[]]]]]; lia.
    + lia.
Qed.

(** C10, as amended.  The returned [x] is the very tensor passed as
    [x0], and it is updated in place: on the early return it keeps its
    value, and otherwise every pass of the loop adds its step
    [(zeta / (rho * rhobar)) * hbar] to it, so that after the call it
    holds what the last pass left.  No other storage of the caller is
    written: [b], in particular, is not modified when [b] and [x0] do
    not share their storage (and, when [x0] is omitted, [||b||] is a
    number). *)
Theorem lsmr_updates_x0_in_place fuel (A : @LinearOperator T) b
        damp atol btol conlim maxiter show x0 w r w' :
  b < length (heap w) ->
  match x0 with
  | Some l => l < length (heap w)
  | None => norm_decides (cell w b)
  end ->
  lsmr fuel A b damp atol btol conlim maxiter show x0 w = Ok r w' ->
  (forall l, x0 = Some l -> x_of r = l) /\
  (forall l, x0 = Some l ->
     (itn_of r = 0%Z /\ cell w' l = cell w l) \/
     exists w0 st w1 pr w2 st' ts pr' w3,
       same_store w w0 /\
       initialize A b (snd (shape A)) (vnorm (cell w b)) x0 w0 = Ok st w1 /\
       same_store w1 w2 /\ x st = l /\ cell w2 l = cell w l /\
       updating (body A damp atol btol (maxiter_of A maxiter)
                      (vnorm (cell w b))
                      (if conlim >? zero then one / conlim else zero)
                      (snd (shape A)) show) st pr w2 st' ts pr' w3 /\
       stop ts = true /\ r = result_of st' /\ cell w' l = cell w3 l) /\
  (forall l', l' < length (heap w) -> x0 <> Some l' -> cell w' l' = cell w l') /\
  (x0 <> Some b -> cell w' b = cell w b).
Proof.
  intros Hb Hx0 E.
  assert (Trail : forall l, x0 = Some l ->
            (itn_of r = 0%Z /\ cell w' l = cell w l) \/
            exists w0 st w1 pr w2 st' ts pr' w3,
              same_store w w0 /\
              initialize A b (snd (shape A)) (vnorm (cell w b)) x0 w0
              = Ok st w1 /\
              same_store w1 w2 /\ x st = l /\ cell w2 l = cell w l /\
              updating (body A damp atol btol (maxiter_of A maxiter)
                             (vnorm (cell w b))
                             (if conlim >? zero then one / conlim else zero)
                             (snd (shape A)) show) st pr w2 st' ts pr' w3 /\
              stop ts = true /\ r = result_of st' /\ cell w' l = cell w3 l).
  { intros l Hl. subst x0. eapply lsmr_x0_trail; eassumption. }
  assert (Main : (forall l, x0 = Some l -> x_of r = l) /\
                 (forall l', l' < length (heap w) -> x0 <> Some l' ->
                             cell w' l' = cell w l')).
  2:{ destruct Main as [M1 M2]. split; [exact M1|]. split; [exact Trail|].
      split; [exact M2|]. intros Hne. apply M2; assumption. }
  clear Trail.
  apply lsmr_inv in E.
  destruct E as (wb & st & w1 & Sb & Ei & Hcase).
  assert (Hbb : b < length (heap wb)) by (destruct Sb as [<- _]; assumption).
  assert (Hx0' : match x0 with
                 | Some l => l < length (heap wb)
                 | None => True
                 end).
  { destruct x0 as [l|]; [|exact I]. destruct Sb as [<- _]. assumption. }
  pose proof (initialize_places _ _ _ _ _ Ei Hbb Hx0') as Hp.
  destruct Hp as (Hv & Hh & Hhb & Hlen & Huv & Hxv & Hxu & Hx).
  assert (Fi : evolves [] wb w1).
  { assert (F : footprint [] (initialize A b (snd (shape A))
                                         (vnorm (cell w b)) x0))
      by apply footprint_initialize.
    apply F. rewrite Ei. reflexivity. }
  assert (Hxl : forall l, x0 = Some l -> x st = l).
  { intros l ->. destruct Hx as [Hx _]. exact Hx. }
  assert (Hw1 : forall l', l' < length (heap w) -> cell w1 l' = cell w l').
  { intros l' Hl'. rewrite (same_store_cell l' Sb).
    apply (evolves_cell Fi); [destruct Sb as [<- _]; assumption|intros []]. }
  destruct Hcase as [(_ & -> & S1)|(Hz & pr0 & w2 & st' & pr' & w3 & S2 & El & -> & S3)].
  - unfold result_of. cbn [x_of]. split; [exact Hxl|].
    intros l' Hl' _. rewrite <- (same_store_cell l' S1). apply Hw1. assumption.
  - pose proof El as Hr. apply loop_returns in Hr. destruct Hr as (_ & _ & Hxx).
    unfold result_of. cbn [x_of]. split.
    { intros l Hl. rewrite Hxx. apply Hxl. assumption. }
    intros l' Hl' Hne.
    assert (Fl : evolves (cells st) w2 w3).
    { assert (F : footprint (cells st)
                    (loop A damp atol btol (maxiter_of A maxiter)
                          (vnorm (cell w b))
                          (if conlim >? zero then one / conlim else zero)
                          (snd (shape A)) show fuel st pr0))
        by apply footprint_loop.
      apply F. rewrite El. reflexivity. }
    rewrite <- (same_store_cell l' S3).
    assert (Hlw : length (heap w) = length (heap wb)) by (destruct Sb as [-> _]; reflexivity).
    assert (Hl2 : l' < length (heap w2)).
    { destruct S2 as [<- _]. pose proof (evolves_length Fi). lia. }
    rewrite (evolves_cell Fl Hl2).
    + rewrite <- (same_store_cell l' S2). apply Hw1. assumption.
    + (* l' is none of the five tensors of the loop *)
      unfold cells. cbn [In]. intros [Hc|[Hc|[Hc|[Hc|[Hc|[]]]]]]; try lia.
      * (* u *)
        destruct x0 as [l|].
        -- destruct Hx as [_ Hu]. lia.
        -- destruct Hx as (_ & _ & [Hu|(Hub & Hn & Ha & Hbeta)]); [lia|].
           apply initialize_returns in Ei. destruct Ei as (_ & _ & Hna & _).
           rewrite Hna, Ha, Hbeta in Hz.
           destruct Hx0 as [Hd|Hd]; congruence.
      * (* x *)
        destruct x0 as [l|].
        -- destruct Hx as [Hx _]. apply Hne. congruence.
        -- destruct Hx as (Hx & _). lia.
Qed.

End InPlace.

Section Safety.
Context {T : Type} {ops : Sc.Ops T}.
Implicit Types w : @world T.
Implicit Types st : @vars T.
Implicit Types pr : @printer T.
Implicit Types G : list (loc * nat).

Lemma shapes_incl G G0 w : incl G0 G -> shapes G w -> shapes G0 w.
Proof. intros Hi H l k Hin. apply H, Hi, Hin. Qed.

Lemma shapes_prefix G w w' :
  prefix (lens w) (lens w') -> shapes G w -> shapes G w'.
Proof. intros Hp H l k Hin. eapply prefix_nth_error; [exact Hp|]. apply H, Hin. Qed.

Lemma shapes_app G G0 w : shapes G w -> shapes G0 w -> shapes (G ++ G0) w.
Proof.
  intros H H0 l k Hin. apply in_app_or in Hin. destruct Hin; [apply H|apply H0]; assumption.
Qed.

Lemma shapes_nil w : shapes [] w.
Proof. intros l k []. Qed.

Lemma shapes_cell G w l k :
  shapes G w -> In (l, k) G -> l < length (heap w) /\ length (cell w l) = k.
Proof.
  intros H Hin. specialize (H l k Hin).
  assert (Hl : l < length (heap w)).
  { rewrite <- length_lens. apply nth_error_Some. congruence. }
  split; [assumption|]. rewrite (@nth_error_lens _ w l Hl) in H. congruence.
Qed.

Lemma shapes_new w (cv : list T) :
  shapes [(length (heap w), length cv)] (World (heap w ++ [cv]) (calls w) (out w)).
Proof.
  intros l k [E|[]]. injection E as <- <-. unfold lens. cbn [heap].
  rewrite map_app. rewrite nth_error_app2 by (rewrite length_map; lia).
  rewrite length_map, Nat.sub_diag. reflexivity.
Qed.

Lemma safe_ret {A} G (a : A) (Q' : A -> list (loc * nat)) :
  incl (Q' a) G -> safe G (ret (T := T) a) Q'.
Proof.
  intros Hi w H. cbn. split; [apply prefix_refl|]. eapply shapes_incl; eassumption.
Qed.

Lemma safe_ret_nil {A} G (a : A) : safe G (ret (T := T) a) (fun _ => []).
Proof. apply safe_ret. intros p []. Qed.

Lemma safe_bind {A B} G (m : @M T A) (k : A -> M B) Q1 Q2 :
  safe G m Q1 -> (forall a, safe (Q1 a ++ G) (k a) Q2) ->
  safe G (bind m k) Q2.
Proof.
  intros Hm Hk w H. unfold bind. specialize (Hm w H).
  destruct (m w) as [a w1|e w1|]; [|contradiction|exact I].
  destruct Hm as [Hp H1].
  assert (H1' : shapes (Q1 a ++ G) w1).
  { apply shapes_app; [assumption|]. eapply shapes_prefix; eassumption. }
  specialize (Hk a w1 H1').
  destruct (k a w1) as [b0 w2|e w2|]; [|contradiction|exact I].
  destruct Hk as [Hp2 H2]. split; [|assumption].
  eapply prefix_trans; eassumption.
Qed.

Lemma safe_post {A} G (m : @M T A) (Q : A -> Prop) Q1 Q' :
  safe G m Q1 -> returns m Q ->
  (forall a, Q a -> incl (Q' a) (Q1 a ++ G)) ->
  safe G m Q'.
Proof.
  intros Hm Hr Hi w H. specialize (Hm w H). specialize (Hr w).
  destruct (m w) as [a w1|e w1|]; [|contradiction|exact I].
  destruct Hm as [Hp H1]. split; [assumption|].
  eapply shapes_incl; [apply Hi; eapply Hr; reflexivity|].
  apply shapes_app; [assumption|]. eapply shapes_prefix; eassumption.
Qed.

Lemma safe_pre {A} G G0 (m : @M T A) Q' :
  incl G G0 -> safe G m Q' -> safe G0 m Q'.
Proof. intros Hi Hm w H. apply Hm. eapply shapes_incl; eassumption. Qed.

Lemma safe_alloc G (cv : list T) :
  safe G (alloc cv) (fun t => [(t, length cv)]).
Proof.
  intros w H. cbn. split; [|apply shapes_new].
  unfold lens. cbn [heap]. rewrite map_app. apply prefix_app.
Qed.

Lemma safe_alloc_zeros G k :
  safe G (alloc (zeros (T := T) k)) (fun t => [(t, k)]).
Proof.
  pose proof (@safe_alloc G (zeros (T := T) k)) as H.
  unfold zeros in *. rewrite repeat_length in H. exact H.
Qed.

Lemma safe_print G (ln : @line T) : safe G (print ln) (fun _ => []).
Proof. intros w H. cbn. split; [apply prefix_refl|apply shapes_nil]. Qed.

Lemma safe_norm G l : safe G (norm (T := T) l) (fun _ => []).
Proof. intros w H. cbn. split; [apply prefix_refl|apply shapes_nil]. Qed.

Lemma safe_imul G l (c : T) : safe G (imul l c) (fun _ => []).
Proof.
  intros w H. unfold imul, bind, load, store. split; [|apply shapes_nil].
  unfold lens. cbn [heap]. rewrite lens_update by apply length_map.
  apply prefix_refl.
Qed.

Lemma safe_iadd G l l' k :
  In (l, k) G -> In (l', k) G -> safe G (iadd (T := T) l l') (fun _ => []).
Proof.
  intros Hl Hl' w H. unfold iadd, bind, load.
  destruct (@shapes_cell _ _ _ _ H Hl) as [_ E1]. destruct (@shapes_cell _ _ _ _ H Hl') as [_ E2].
  unfold cell in E1, E2. rewrite inplace2_same by congruence.
  unfold store. split; [|apply shapes_nil].
  unfold lens. cbn [heap].
  rewrite lens_update by (apply length_map2; congruence). apply prefix_refl.
Qed.

Lemma safe_scaled G (c : T) l k :
  In (l, k) G -> safe G (scaled c l) (fun t => [(t, k)]).
Proof.
  intros Hl w H. unfold scaled, bind, load, alloc.
  destruct (@shapes_cell _ _ _ _ H Hl) as [_ E1]. unfold cell in E1.
  split.
  - unfold lens. cbn [heap]. rewrite map_app. apply prefix_app.
  - pose proof (shapes_new w (map (fun a => Sc.mul c a) (nth l (heap w) []))) as Hn.
    rewrite length_map, E1 in Hn. exact Hn.
Qed.

Lemma safe_clone G l k :
  In (l, k) G -> safe G (clone (T := T) l) (fun t => [(t, k)]).
Proof.
  intros Hl w H. unfold clone, bind, load, alloc.
  destruct (@shapes_cell _ _ _ _ H Hl) as [_ E1]. unfold cell in E1.
  split.
  - unfold lens. cbn [heap]. rewrite map_app. apply prefix_app.
  - pose proof (shapes_new w (nth l (heap w) [])) as Hn.
    rewrite E1 in Hn. exact Hn.
Qed.

Lemma safe_minus G l l' k :
  In (l, k) G -> In (l', k) G ->
  safe G (minus (T := T) l l') (fun t => [(t, k)]).
Proof.
  intros Hl Hl' w H. unfold minus, bind, load.
  destruct (@shapes_cell _ _ _ _ H Hl) as [_ E1]. destruct (@shapes_cell _ _ _ _ H Hl') as [_ E2].
  unfold cell in E1, E2. unfold broadcast2.
  assert (E : Nat.eqb (length (nth l (heap w) [])) (length (nth l' (heap w) []))
              = true) by (apply Nat.eqb_eq; congruence).
  rewrite E. unfold alloc. split.
  - unfold lens. cbn [heap]. rewrite map_app. apply prefix_app.
  - pose proof (shapes_new w (map2 Sc.sub (nth l (heap w) []) (nth l' (heap w) [])))
      as Hn.
    rewrite length_map2, E1 in Hn by congruence. exact Hn.
Qed.

Lemma safe_item0 G l k :
  In (l, k) G -> 0 < k -> safe G (item0 (T := T) l) (fun _ => []).
Proof.
  intros Hl Hk w H. unfold item0, bind, load.
  destruct (@shapes_cell _ _ _ _ H Hl) as [_ E1]. unfold cell in E1.
  destruct (nth l (heap w) []) as [|a ?]; [cbn in E1; lia|].
  cbn. split; [apply prefix_refl|apply shapes_nil].
Qed.

Lemma safe_when G c (m : @M T unit) :
  safe G m (fun _ => []) -> safe G (when c m) (fun _ => []).
Proof. intros H. destruct c; [assumption|apply safe_ret_nil]. Qed.

Lemma safe_call_matvec G (A : @LinearOperator T) l :
  conforming A -> In (l, snd (shape A)) G ->
  safe G (call_matvec A l) (fun t => [(t, fst (shape A))]).
Proof.
  intros [HA _] Hl w H. unfold call_matvec, bind, load, log_call.
  destruct (@shapes_cell _ _ _ _ H Hl) as [_ E1]. unfold cell in E1.
  destruct (HA _ E1) as (y & Ey & Hy). rewrite Ey. unfold alloc. cbn [heap calls out].
  split.
  - unfold lens. cbn [heap]. rewrite map_app. apply prefix_app.
  - pose proof (shapes_new (World (heap w) (calls w ++ [Matvec (nth l (heap w) [])])
                                  (out w)) y) as Hn.
    cbn [heap calls out] in Hn. rewrite Hy in Hn. exact Hn.
Qed.

Lemma safe_call_rmatvec G (A : @LinearOperator T) l :
  conforming A -> In (l, fst (shape A)) G ->
  safe G (call_rmatvec A l) (fun t => [(t, snd (shape A))]).
Proof.
  intros [_ HA] Hl w H. unfold call_rmatvec, bind, load, log_call.
  destruct (@shapes_cell _ _ _ _ H Hl) as [_ E1]. unfold cell in E1.
  destruct (HA _ E1) as (y & Ey & Hy). rewrite Ey. unfold alloc. cbn [heap calls out].
  split.
  - unfold lens. cbn [heap]. rewrite map_app. apply prefix_app.
  - pose proof (shapes_new (World (heap w) (calls w ++ [Rmatvec (nth l (heap w) [])])
                                  (out w)) y) as Hn.
    cbn [heap calls out] in Hn. rewrite Hy in Hn. exact Hn.
Qed.

End Safety.

Ltac shape_known := cbn [app In shapes_of]; eauto 20.

Ltac safe_step :=
  lazymatch goal with
  | |- safe ?G (let x := ?e in @?m x) ?Q =>
    let y := fresh x in pose (y := e); change (safe G (m y) Q); cbv beta
  | |- safe _ (if ?c then _ else _) _ => destruct c
  | |- safe _ (match ?o with _ => _ end) _ => destruct o
  | |- safe _ (imul _ _) _ => apply safe_imul
  | |- safe _ (iadd _ _) _ => eapply safe_iadd; shape_known
  | |- safe _ (norm _) _ => apply safe_norm
  | |- safe _ (print _) _ => apply safe_print
  | |- safe _ (when _ _) _ => apply safe_when
  | |- safe _ (scaled _ _) _ => eapply safe_scaled; shape_known
  | |- safe _ (clone _) _ => eapply safe_clone; shape_known
  | |- safe _ (minus _ _) _ => eapply safe_minus; shape_known
  | |- safe _ (call_matvec _ _) _ => apply safe_call_matvec; [assumption|shape_known]
  | |- safe _ (call_rmatvec _ _) _ => apply safe_call_rmatvec; [assumption|shape_known]
  | |- safe _ (bind _ _) _ => eapply safe_bind; [|intros ?]
  | |- safe _ (ret _) _ => apply safe_ret_nil
  end.

Section SafeDriver.
Context {T : Type} {ops : Sc.Ops T}.
Implicit Types w : @world T.
Implicit Types st : @vars T.
Implicit Types pr : @printer T.
Variable A : @LinearOperator T.
Variables damp atol btol : T.
Variable maxiter : Z.
Variables normb ctol : T.
Hypothesis HA : conforming A.

Lemma safe_pass_nil st :
  safe (shapes_of (fst (shape A)) (snd (shape A)) st)
       (pass A damp atol btol maxiter normb ctol st) (fun _ => []).
Proof.
  unfold pass. repeat safe_step.
Qed.

Let m : nat := fst (shape A).
Let n : nat := snd (shape A).

Lemma shapes_of_cells st st' :
  cells st' = cells st -> shapes_of m n st' = shapes_of m n st.
Proof.
  unfold cells, shapes_of. intros E. injection E as -> -> -> -> ->. reflexivity.
Qed.

Lemma safe_pass st :
  safe (shapes_of m n st) (pass A damp atol btol maxiter normb ctol st)
       (fun r => shapes_of m n (fst r)).
Proof.
  eapply safe_post; [apply safe_pass_nil|apply pass_returns|].
  intros [st' ts] (_ & Hc & _). cbn [fst app] in *.
  rewrite (shapes_of_cells Hc). apply incl_refl.
Qed.

Lemma safe_report st ts pr :
  0 < n ->
  safe (shapes_of m n st) (report atol maxiter ctol n st ts pr) (fun _ => []).
Proof.
  intros Hn. unfold report. repeat safe_step.
  all: eapply safe_item0; [shape_known|exact Hn].
Qed.

Lemma safe_body show st pr :
  (show = true -> 0 < n) ->
  safe (shapes_of m n st)
       (body A damp atol btol maxiter normb ctol n show st pr)
       (fun r => shapes_of m n (fst (fst r))).
Proof.
  intros Hn. unfold body.
  eapply safe_bind; [apply safe_pass|intros [st' ts]].
  eapply safe_bind with (Q1 := fun _ => []).
  - destruct show; [|apply safe_ret_nil].
    eapply safe_pre; [|apply safe_report; auto].
    cbn [fst]. apply incl_appl, incl_refl.
  - intros pr'. apply safe_ret. cbn [fst app]. apply incl_appl, incl_refl.
Qed.

Lemma safe_loop show fuel : forall st pr,
  (show = true -> 0 < n) ->
  safe (shapes_of m n st)
       (loop A damp atol btol maxiter normb ctol n show fuel st pr)
       (fun r => shapes_of m n (fst r)).
Proof.
  induction fuel as [|fuel IH]; intros st pr Hn; [intros w _; exact I|].
  cbn [loop].
  eapply safe_bind; [apply safe_body; assumption|intros [[st' ts] pr']].
  cbn [fst]. destruct (stop ts).
  - apply safe_ret. cbn [fst]. apply incl_appl, incl_refl.
  - eapply safe_pre; [|apply IH; assumption]. apply incl_appl, incl_refl.
Qed.

Lemma safe_initialize b x0 :
  safe ((b, m) :: match x0 with Some l => [(l, n)] | None => [] end)
       (initialize A b n normb x0) (shapes_of m n).
Proof.
  unfold initialize. cbv zeta.
  eapply safe_bind with (Q1 := fun r => [(fst (fst r), n); (snd (fst r), m)]).
  { destruct x0 as [l|].
    - safe_step; [safe_step|].
      safe_step; [eapply safe_minus; shape_known|].
      safe_step; [safe_step|].
      apply safe_ret. cbn [fst snd]. intros p Hp. shape_known.
      destruct Hp as [<-|[<-|[]]]; shape_known.
    - safe_step; [apply safe_alloc_zeros|].
      apply safe_ret. cbn [fst snd]. intros p Hp.
      destruct Hp as [<-|[<-|[]]]; shape_known. }
  intros [[x1 u1] beta1]. cbn [fst snd].
  eapply safe_bind with (Q1 := fun r => [(fst (fst r), m); (snd (fst r), n)]).
  { destruct (Sc.gtb beta1 Sc.zero).
    - safe_step; [safe_step|].
      safe_step; [safe_step|].
      safe_step; [safe_step|].
      apply safe_ret. cbn [fst snd]. intros p Hp.
      destruct Hp as [<-|[<-|[]]]; shape_known.
    - safe_step; [apply safe_alloc_zeros|].
      apply safe_ret. cbn [fst snd]. intros p Hp.
      destruct Hp as [<-|[<-|[]]]; shape_known. }
  intros [[u2 v2] alpha2]. cbn [fst snd].
  eapply safe_bind with (Q1 := fun t => [(t, n)]).
  { destruct (Sc.gtb alpha2 Sc.zero).
    - safe_step.
    - apply safe_ret. intros p Hp. destruct Hp as [<-|[]]; shape_known. }
  intros v3.
  safe_step; [safe_step|].
  safe_step; [apply safe_alloc_zeros|].
  apply safe_ret. unfold shapes_of. cbn [u v h hbar x]. intros p Hp.
  destruct Hp as [<-|[<-|[<-|[<-|[<-|[]]]]]]; shape_known.
Qed.

End SafeDriver.

Section SafeLsmr.
Context {T : Type} {ops : Sc.Ops T}.
Implicit Types w : @world T.
Variable A : @LinearOperator T.
Hypothesis HA : conforming A.

(** the shapes a call expects of its tensors: [b] of length [m], [x0]
    of length [n] *)
Lemma safe_lsmr fuel b damp atol btol conlim maxiter x0 :
  safe ((b, fst (shape A))
          :: match x0 with Some l => [(l, snd (shape A))] | None => [] end)
       (lsmr fuel A b damp atol btol conlim maxiter false x0) (fun _ => []).
Proof.
  pose proof (fun normb => @safe_initialize _ _ A normb HA b x0) as Hi.
  pose proof (fun damp atol btol maxiter normb ctol fuel st pr =>
                @safe_loop _ _ A damp atol btol maxiter normb ctol HA false
                           fuel st pr) as Hl.
  unfold lsmr. revert Hi Hl. destruct (shape A) as [m0 n0]. cbn [fst snd].
  intros Hi Hl. cbv zeta. cbn [when].
  safe_step; [safe_step|].
  safe_step; [safe_step|].
  eapply safe_bind; [eapply safe_pre; [|apply Hi]|intros st].
  { apply incl_appr, incl_appr, incl_refl. }
  destruct (Sc.eqb (normar st) Sc.zero).
  - safe_step; [safe_step|]. safe_step.
  - safe_step; [safe_step|].
    eapply safe_bind with (Q1 := fun _ => []).
    + eapply safe_post with (Q := fun _ => True);
        [eapply safe_pre; [|apply Hl; discriminate]| |].
      * apply incl_appr, incl_appl, incl_refl.
      * intros w0 r0 w1 _. exact I.
      * intros r0 _ p [].
    + intros [st' pr']. safe_step; [safe_step|]. safe_step.
Qed.

(** A call on tensors of the operator's shapes returns: with fuel for
    [max(maxiter, 1)] passes it neither raises nor runs out of fuel.
    With [show] set, [x] must have a first component to print. *)
Lemma lsmr_returns fuel b damp atol btol conlim maxiter show x0 w :
  shapes ((b, fst (shape A))
            :: match x0 with Some l => [(l, snd (shape A))] | None => [] end) w ->
  (show = true -> 0 < snd (shape A)) ->
  (Z.to_nat (Z.max (maxiter_of A maxiter) 1) <= fuel)%nat ->
  exists r w', lsmr fuel A b damp atol btol conlim maxiter show x0 w = Ok r w'.
Proof.
  intros H Hn Hf.
  assert (Hq : exists r w',
             lsmr fuel A b damp atol btol conlim maxiter false x0 w = Ok r w').
  { pose proof (@safe_lsmr fuel b damp atol btol conlim maxiter x0 w H) as Hs.
    pose proof (@lsmr_terminates _ _ fuel A b damp atol btol conlim
                                 maxiter false x0 w Hf) as Ht.
    destruct (lsmr fuel A b damp atol btol conlim maxiter false x0 w)
      as [r w'|e w'|]; [|contradiction|congruence].
    exists r, w'. reflexivity. }
  destruct show; [|exact Hq].
  specialize (Hn eq_refl).
  assert (Hb : b < length (heap w)).
  { eapply shapes_cell; [exact H|]. left. reflexivity. }
  assert (Hx : match x0 with
               | Some l => cell w l <> []
               | None => 0 < snd (shape A)
               end).
  { destruct x0 as [l|]; [|assumption].
    destruct (@shapes_cell _ _ _ l (snd (shape A)) H) as [_ E].
    - right. left. reflexivity.
    - intros E0. rewrite E0 in E. cbn in E. lia. }
  pose proof (@lsmr_show_same _ _ fuel A b damp atol btol conlim maxiter x0 w
                              Hb Hx) as Hs.
  destruct Hq as (r & w' & E). rewrite E in Hs.
  destruct (lsmr fuel A b damp atol btol conlim maxiter true x0 w)
    as [r1 w1|e w1|]; cbn in Hs; try contradiction.
  exists r1, w1. reflexivity.
Qed.

End SafeLsmr.

Section IterationCap.
Context {T : Type} {ops : Sc.Ops T}.
Implicit Types w : @world T.
Variable A : @LinearOperator T.

(** C5, as amended.  With fuel for [max(maxiter, 1)] passes, [lsmr] does
    not run out of it: the loop ends by itself.  On tensors of the
    operator's shapes the call returns, raising nothing.  A call that
    returns has an iteration count between 0 and [max(maxiter, 1)]; with
    [maxiter = 1] it is at most 1, whatever the tolerances; and an
    omitted [maxiter] is [min(m, n)]. *)
Theorem lsmr_iteration_cap fuel b damp atol btol conlim maxiter show x0 w :
  (Z.to_nat (Z.max (maxiter_of A maxiter) 1) <= fuel)%nat ->
  lsmr fuel A b damp atol btol conlim maxiter show x0 w <> OutOfFuel /\
  (conforming A ->
   shapes ((b, fst (shape A))
             :: match x0 with Some l => [(l, snd (shape A))] | None => [] end) w ->
   (show = true -> 0 < snd (shape A)) ->
   exists r w', lsmr fuel A b damp atol btol conlim maxiter show x0 w = Ok r w') /\
  (forall r w',
      lsmr fuel A b damp atol btol conlim maxiter show x0 w = Ok r w' ->
      (0 <= itn_of r <= Z.max (maxiter_of A maxiter) 1)%Z /\
      (maxiter = Some 1%Z -> (itn_of r <= 1)%Z)) /\
  lsmr fuel A b damp atol btol conlim None show x0 w
  = lsmr fuel A b damp atol btol conlim
         (Some (Z.of_nat (Nat.min (fst (shape A)) (snd (shape A))))) show x0 w.
Proof.
  intros Hf. split; [apply lsmr_terminates; assumption|]. split; [|split].
  - intros HA H Hn. apply lsmr_returns; assumption.
  - intros r w' E. pose proof E as Hb. apply lsmr_itn_bound in Hb.
    split; [exact Hb|]. intros ->. cbn [maxiter_of] in Hb. lia.
  - unfold lsmr. destruct (shape A) as [m0 n0]. reflexivity.
Qed.

End IterationCap.

Section Silence.
Context {T : Type} {ops : Sc.Ops T}.
Implicit Types w : @world T.
Implicit Types st : @vars T.
Implicit Types pr : @printer T.

Lemma silent_ret {A} (a : A) : silent (ret (T := T) a).
Proof. intros w w' E. cbn in E. injection E as <-. reflexivity. Qed.

Lemma silent_raise {A} e : silent (raise (T := T) (A := A) e).
Proof. intros w w' E. cbn in E. injection E as <-. reflexivity. Qed.

Lemma silent_bind {A B} (m : @M T A) (k : A -> M B) :
  silent m -> (forall a, silent (k a)) -> silent (bind m k).
Proof.
  intros Hm Hk w w' E. apply bind_final in E.
  destruct E as [[e E]|(a & w1 & E1 & E)].
  - apply Hm. rewrite E. reflexivity.
  - rewrite (Hk a w1 w' E). apply Hm. rewrite E1. reflexivity.
Qed.

Lemma silent_alloc (cv : list T) : silent (alloc cv).
Proof. intros w w' E. cbn in E. injection E as <-. reflexivity. Qed.

Lemma silent_load l : silent (load (T := T) l).
Proof. intros w w' E. cbn in E. injection E as <-. reflexivity. Qed.

Lemma silent_store l (cv : list T) : silent (store l cv).
Proof. intros w w' E. cbn in E. injection E as <-. reflexivity. Qed.

Lemma silent_log_call (c : @call T) : silent (log_call c).
Proof. intros w w' E. cbn in E. injection E as <-. reflexivity. Qed.

End Silence.

Create HintDb silent.
#[global] Hint Resolve silent_ret silent_raise silent_alloc silent_load
  silent_store silent_log_call : silent.

Ltac silent_step :=
  lazymatch goal with
  | |- silent (let x := ?e in @?m x) =>
    let y := fresh x in pose (y := e); change (silent (m y)); cbv beta
  | |- silent (if ?c then _ else _) => destruct c
  | |- silent (match ?o with _ => _ end) => destruct o
  | |- silent (bind _ _) => apply silent_bind; [|intros ?]
  | |- _ => solve [auto with silent]
  end.

Section SilentDriver.
Context {T : Type} {ops : Sc.Ops T}.
Implicit Types w : @world T.
Implicit Types st : @vars T.
Implicit Types pr : @printer T.

Lemma silent_call_matvec (A : @LinearOperator T) l : silent (call_matvec A l).
Proof. unfold call_matvec. repeat silent_step. Qed.

Lemma silent_call_rmatvec (A : @LinearOperator T) l : silent (call_rmatvec A l).
Proof. unfold call_rmatvec. repeat silent_step. Qed.

Lemma silent_norm l : silent (norm (T := T) l).
Proof. unfold norm. repeat silent_step. Qed.

Lemma silent_scaled (c : T) l : silent (scaled c l).
Proof. unfold scaled. repeat silent_step. Qed.

Lemma silent_minus l l' : silent (minus (T := T) l l').
Proof. unfold minus. repeat silent_step. Qed.

Lemma silent_clone l : silent (clone (T := T) l).
Proof. unfold clone. repeat silent_step. Qed.

Lemma silent_imul l (c : T) : silent (imul l c).
Proof. unfold imul. repeat silent_step. Qed.

Lemma silent_iadd l l' : silent (iadd (T := T) l l').
Proof. unfold iadd. repeat silent_step. Qed.

End SilentDriver.

#[global] Hint Resolve silent_call_matvec silent_call_rmatvec silent_norm
  silent_scaled silent_minus silent_clone silent_imul silent_iadd : silent.

Section SilentLsmr.
Context {T : Type} {ops : Sc.Ops T}.
Implicit Types w : @world T.
Implicit Types st : @vars T.
Implicit Types pr : @printer T.
Variable A : @LinearOperator T.

Lemma silent_pass damp atol btol maxiter normb ctol st :
  silent (pass A damp atol btol maxiter normb ctol st).
Proof.
  unfold pass, when.
  repeat silent_step.
Qed.

Lemma silent_loop damp atol btol maxiter normb ctol n fuel : forall st pr,
  silent (loop A damp atol btol maxiter normb ctol n false fuel st pr).
Proof.
  induction fuel as [|fuel IH]; intros st pr; [intros w w' E; discriminate|].
  cbn [loop]. unfold body.
  apply silent_bind.
  - apply silent_bind; [apply silent_pass|intros [st' ts]].
    repeat silent_step.
  - intros [[st' ts] pr']. destruct (stop ts); [apply silent_ret|apply IH].
Qed.

Lemma silent_initialize b n normb x0 : silent (initialize A b n normb x0).
Proof. unfold initialize. repeat silent_step. Qed.

(** without [show], a call prints nothing *)
Lemma silent_lsmr fuel b damp atol btol conlim maxiter x0 :
  silent (lsmr fuel A b damp atol btol conlim maxiter false x0).
Proof.
  unfold lsmr. destruct (shape A) as [m0 n0]. cbv zeta. cbn [when].
  apply silent_bind; [apply silent_ret|intros _].
  apply silent_bind; [apply silent_norm|intros normb].
  apply silent_bind; [apply silent_initialize|intros st].
  destruct (Sc.eqb (normar st) Sc.zero).
  - repeat silent_step.
  - apply silent_bind; [apply silent_ret|intros pr].
    apply silent_bind; [apply silent_loop|intros [st' pr']].
    repeat silent_step.
Qed.


End SilentLsmr.

Section Test2.
Context {T : Type} {ops : Sc.Ops T}.
Implicit Types w : @world T.
Implicit Types st : @vars T.
Local Open Scope sc_scope.
Import Sc.

(** C7.  A pass ends with the convergence test on its new estimates.
    When [normA * normr] is exactly zero, [test2] is +inf, not the
    quotient, so that [test2 <= atol] does not hold (for an [atol] that
    is not +inf itself); otherwise [test2] is the quotient
    [normar / (normA * normr)]. *)
Theorem test2_infinite_on_zero_denominator
        (A : @LinearOperator T) damp atol btol maxiter normb ctol
        st w st' ts w' :
  pass A damp atol btol maxiter normb ctol st w = Ok (st', ts) w' ->
  ts = convergence_test atol btol maxiter normb ctol
         (itn st') (normr st') (normar st') (normA st') (normx st')
         (condA st') /\
  ((normA st' * normr st' =? zero) = true ->
   test2 ts = inf /\
   ((inf <=? atol) = false -> (test2 ts <=? atol) = false)) /\
  ((normA st' * normr st' =? zero) = false ->
   test2 ts = normar st' / (normA st' * normr st')).
Proof.
  intros E. apply pass_returns in E. cbn [fst snd] in E.
  destruct E as (_ & _ & _ & Hts). split; [exact Hts|].
  rewrite Hts. unfold convergence_test. cbn [test2]. split.
  - intros Hz. rewrite Hz. cbn [masked_fill]. split; [reflexivity|].
    intros H. exact H.
  - intros Hz. rewrite Hz. reflexivity.
Qed.

End Test2.

Section Growth.
Context {T : Type} {ops : Sc.Ops T}.
Implicit Types w : @world T.
Implicit Types st : @vars T.
Implicit Types pr : @printer T.
Local Open Scope sc_scope.
Import Sc.

Lemma grows_footprint {A} L (m : @M T A) : footprint L m -> grows m.
Proof.
  intros F w w' E. destruct (F w w' E) as (H1 & H2 & H3 & _).
  repeat split; assumption.
Qed.

Lemma grows_bind {A B} (m : @M T A) (k : A -> M B) :
  grows m -> (forall a, grows (k a)) -> grows (bind m k).
Proof.
  intros Hm Hk w w' E. apply bind_final in E.
  destruct E as [[e E]|(a & w1 & E1 & E)].
  - apply Hm. rewrite E. reflexivity.
  - assert (G1 : final_world (m w) = Some w1) by (rewrite E1; reflexivity).
    destruct (Hm w w1 G1) as (A1 & A2 & A3).
    destruct (Hk a w1 w' E) as (B1 & B2 & B3).
    repeat split; eapply prefix_trans; eassumption.
Qed.

Lemma grows_lsmr fuel (A : @LinearOperator T) b damp atol btol conlim maxiter
      show x0 :
  grows (lsmr fuel A b damp atol btol conlim maxiter show x0).
Proof.
  unfold lsmr. destruct (shape A) as [m0 n0]. cbv zeta.
  apply grows_bind.
  { apply grows_footprint with (L := []). apply footprint_when.
    unfold banner. repeat footprint_step. }
  intros _. apply grows_bind; [apply grows_footprint with (L := []); auto with footprint|].
  intros normb. apply grows_bind.
  { apply grows_footprint with (L := []). apply footprint_initialize. }
  intros st. destruct (normar st =? zero).
  - apply grows_footprint with (L := []). repeat footprint_step.
  - apply grows_bind.
    { apply grows_footprint with (L := []).
      destruct show; [apply footprint_first_row|apply footprint_ret]. }
    intros pr. apply grows_bind.
    { apply grows_footprint with (L := cells st). apply footprint_loop. }
    intros [st' pr']. apply grows_footprint with (L := []).
    apply footprint_bind; [apply footprint_when, footprint_closing|].
    intros _. apply footprint_ret.
Qed.

(** X5.  Whatever the outcome of a call, a return or an exception, no
    tensor of the caller has changed its length, no tensor has been
    removed, and the operator calls and the printed lines made before the
    call are still there, in order, before the new ones. *)
Theorem lsmr_keeps_shapes fuel (A : @LinearOperator T) b damp atol btol
        conlim maxiter show x0 w w' :
  final_world (lsmr fuel A b damp atol btol conlim maxiter show x0 w)
  = Some w' ->
  (forall l, l < length (heap w) ->
             l < length (heap w') /\ length (cell w' l) = length (cell w l)) /\
  prefix (calls w) (calls w') /\ prefix (out w) (out w').
Proof.
  intros E. destruct (@grows_lsmr fuel A b damp atol btol conlim maxiter show
                                  x0 w w' E) as (H1 & H2 & H3).
  split; [|split; assumption].
  intros l Hl.
  assert (Hlen : length (heap w) <= length (heap w')).
  { apply prefix_length in H1. rewrite !length_lens in H1. exact H1. }
  split; [lia|].
  assert (H0 : nth_error (lens w) l = Some (length (cell w l)))
    by (apply nth_error_lens; assumption).
  assert (H4 : nth_error (lens w') l = Some (length (cell w l)))
    by (eapply prefix_nth_error; eassumption).
  rewrite nth_error_lens in H4 by lia. congruence.
Qed.

End Growth.

Section OperatorCalls.
Context {T : Type} {ops : Sc.Ops T}.
Implicit Types w : @world T.
Implicit Types st : @vars T.
Implicit Types pr : @printer T.

Lemma matvecs_app (cs cs' : list (@call T)) :
  matvecs (cs ++ cs') = matvecs cs + matvecs cs'.
Proof. unfold matvecs. rewrite filter_app, length_app. reflexivity. Qed.

Lemma rmatvecs_app (cs cs' : list (@call T)) :
  rmatvecs (cs ++ cs') = rmatvecs cs + rmatvecs cs'.
Proof. unfold rmatvecs. rewrite filter_app, length_app. reflexivity. Qed.

Lemma calls_split (cs : list (@call T)) : length cs = matvecs cs + rmatvecs cs.
Proof.
  unfold matvecs, rmatvecs. induction cs as [|[xv|uv] cs IH]; cbn; lia.
Qed.

Lemma applies_ret {A} k2 (a : A) : applies 0 k2 (ret (T := T) a).
Proof.
  intros w a0 w' E. apply ret_inv in E. destruct E as [_ <-].
  exists []. rewrite app_nil_r. repeat split. cbn. lia.
Qed.

Lemma applies_raise {A} k1 k2 e : applies k1 k2 (raise (T := T) (A := A) e).
Proof. intros w a w' E. discriminate. Qed.

Lemma applies_bind {A B} k1 k2 k1' k2' (m : @M T A) (k : A -> M B) :
  applies k1 k2 m -> (forall a, applies k1' k2' (k a)) ->
  applies (k1 + k1') (k2 + k2') (bind m k).
Proof.
  intros Hm Hk w b0 w' E. apply bind_inv in E.
  destruct E as (a & w1 & E1 & E).
  destruct (Hm _ _ _ E1) as (cs & Hc & H1 & H2).
  destruct (Hk a _ _ _ E) as (cs' & Hc' & H1' & H2').
  exists (cs ++ cs'). rewrite Hc', Hc, app_assoc.
  rewrite matvecs_app, rmatvecs_app. repeat split; lia.
Qed.

Lemma applies_le {A} k1 k2 K2 (m : @M T A) :
  k2 <= K2 -> applies k1 k2 m -> applies k1 K2 m.
Proof.
  intros Hle Hm w a w' E. destruct (Hm _ _ _ E) as (cs & Hc & H1 & H2).
  exists cs. repeat split; try assumption. lia.
Qed.

(** an operation that does not touch the log of calls *)
Lemma applies_none {A} k2 (m : @M T A) :
  (forall w a w', m w = Ok a w' -> calls w' = calls w) -> applies 0 k2 m.
Proof.
  intros H w a w' E. exists []. rewrite app_nil_r.
  split; [eapply H; eassumption|]. split; [reflexivity|cbn; lia].
Qed.

Lemma applies_alloc (cv : list T) : applies 0 0 (alloc cv).
Proof. apply applies_none. intros w a w' E. injection E as _ <-. reflexivity. Qed.

Lemma applies_print (ln : @line T) : applies 0 0 (print ln).
Proof. apply applies_none. intros w a w' E. injection E as _ <-. reflexivity. Qed.

Lemma applies_norm l : applies 0 0 (norm (T := T) l).
Proof. apply applies_none. intros w a w' E. injection E as _ <-. reflexivity. Qed.

Lemma applies_scaled (c : T) l : applies 0 0 (scaled c l).
Proof. apply applies_none. intros w a w' E. injection E as _ <-. reflexivity. Qed.

Lemma applies_clone l : applies 0 0 (clone (T := T) l).
Proof. apply applies_none. intros w a w' E. injection E as _ <-. reflexivity. Qed.

Lemma applies_imul l (c : T) : applies 0 0 (imul l c).
Proof. apply applies_none. intros w a w' E. injection E as _ <-. reflexivity. Qed.

Lemma applies_iadd l l' : applies 0 0 (iadd (T := T) l l').
Proof.
  apply applies_none. intros w a w'. unfold iadd, bind, load.
  destruct (inplace2 _ _ _); [|discriminate].
  intros E. injection E as _ <-. reflexivity.
Qed.

Lemma applies_minus l l' : applies 0 0 (minus (T := T) l l').
Proof.
  apply applies_none. intros w a w'. unfold minus, bind, load.
  destruct (broadcast2 _ _ _); [|discriminate].
  intros E. injection E as _ <-. reflexivity.
Qed.

Lemma applies_item0 l : applies 0 0 (item0 (T := T) l).
Proof.
  apply applies_none. intros w a w'. unfold item0, bind, load.
  destruct (nth l (heap w) []); [discriminate|].
  intros E. injection E as _ <-. reflexivity.
Qed.

Lemma applies_when c (m : @M T unit) :
  applies 0 0 m -> applies 0 0 (when c m).
Proof. intros H. destruct c; [assumption|apply applies_ret]. Qed.

Lemma applies_call_matvec (A : @LinearOperator T) l :
  applies 1 0 (call_matvec A l).
Proof.
  intros w a w'. unfold call_matvec, bind, load, log_call.
  destruct (matvec A _); [|discriminate].
  intros E. injection E as _ <-. cbn [calls].
  eexists. split; [reflexivity|]. split; [reflexivity|cbn; lia].
Qed.

Lemma applies_call_rmatvec (A : @LinearOperator T) l :
  applies 0 1 (call_rmatvec A l).
Proof.
  intros w a w'. unfold call_rmatvec, bind, load, log_call.
  destruct (rmatvec A _); [|discriminate].
  intros E. injection E as _ <-. cbn [calls].
  eexists. split; [reflexivity|]. split; [reflexivity|cbn; lia].
Qed.

End OperatorCalls.

Ltac applies_step :=
  lazymatch goal with
  | |- applies ?k1 ?k2 (let x := ?e in @?m x) =>
    let y := fresh x in pose (y := e); change (applies k1 k2 (m y)); cbv beta
  | |- applies _ _ (if ?c then _ else _) => destruct c
  | |- applies _ _ (match ?o with _ => _ end) => destruct o
  | |- applies _ _ (call_matvec _ _) => apply applies_call_matvec
  | |- applies _ _ (call_rmatvec _ _) => apply applies_call_rmatvec
  | |- applies _ _ (imul _ _) => apply applies_imul
  | |- applies _ _ (iadd _ _) => apply applies_iadd
  | |- applies _ _ (norm _) => apply applies_norm
  | |- applies _ _ (scaled _ _) => apply applies_scaled
  | |- applies _ _ (clone _) => apply applies_clone
  | |- applies _ _ (minus _ _) => apply applies_minus
  | |- applies _ _ (item0 _) => apply applies_item0
  | |- applies _ _ (alloc _) => apply applies_alloc
  | |- applies _ _ (print _) => apply applies_print
  | |- applies _ _ (when _ _) => apply applies_when
  | |- applies _ _ (bind _ _) => eapply applies_bind; [|intros ?]
  | |- applies _ _ (ret _) =>
    first [apply applies_ret with (k2 := 0)|apply applies_ret]
  | |- applies _ _ (raise _) => apply applies_raise
  end.

Section OperatorCallsOfDriver.
Context {T : Type} {ops : Sc.Ops T}.
Implicit Types w : @world T.
Implicit Types st : @vars T.
Implicit Types pr : @printer T.
Variable A : @LinearOperator T.
Variables damp atol btol : T.
Variable maxiter : Z.
Variables normb ctol : T.
Variable n : nat.
Variable show : bool.

Lemma applies_pass_sum st :
  exists k1 k2, applies k1 k2 (pass A damp atol btol maxiter normb ctol st) /\
                k1 = 1 /\ k2 = 1.
Proof.
  eexists. eexists. split.
  - unfold pass. repeat applies_step.
  - split; reflexivity.
Qed.

(** a pass applies [A.matvec] once and [A.rmatvec] at most once *)
Lemma applies_pass st :
  applies 1 1 (pass A damp atol btol maxiter normb ctol st).
Proof. destruct (applies_pass_sum st) as (k1 & k2 & H & -> & ->). exact H. Qed.

Lemma applies_report atol' maxiter' ctol' st ts pr :
  applies 0 0 (report atol' maxiter' ctol' n st ts pr).
Proof.
  assert (H : exists k1 k2,
             applies k1 k2 (report atol' maxiter' ctol' n st ts pr) /\
             k1 = 0 /\ k2 = 0).
  { eexists. eexists. split; [unfold report; repeat applies_step|].
    split; reflexivity. }
  destruct H as (k1 & k2 & H & -> & ->). exact H.
Qed.

Lemma applies_body st pr :
  applies 1 1 (body A damp atol btol maxiter normb ctol n show st pr).
Proof.
  unfold body.
  assert (H : applies (1 + (0 + 0)) (1 + (0 + 0))
                      (bind (pass A damp atol btol maxiter normb ctol st)
                            (fun r => let '(st', ts) := r in
                                      bind (if show
                                            then report atol maxiter ctol n st' ts pr
                                            else ret pr)
                                           (fun pr' => ret (st', ts, pr'))))).
  { apply applies_bind; [apply applies_pass|intros [st' ts]].
    apply applies_bind; [|intros pr'; apply applies_ret].
    destruct show; [apply applies_report|apply applies_ret]. }
  exact H.
Qed.

Lemma loop_applies fuel : forall st pr w st' pr' w',
  loop A damp atol btol maxiter normb ctol n show fuel st pr w
  = Ok (st', pr') w' ->
  exists cs, calls w' = calls w ++ cs /\
             matvecs cs = Z.to_nat (itn st' - itn st) /\
             rmatvecs cs <= Z.to_nat (itn st' - itn st).
Proof.
  induction fuel as [|fuel IH]; intros st pr w st' pr' w' E; [discriminate|].
  cbn [loop] in E. apply bind_inv in E.
  destruct E as ([[st1 ts1] pr1] & w1 & E1 & E).
  destruct (@applies_body st pr w _ w1 E1) as (cs & Hc & H1 & H2).
  apply body_returns in E1. destruct E1 as (Hi & _).
  destruct (stop ts1).
  - apply ret_inv in E. destruct E as [E <-]. injection E as <- <-.
    exists cs. rewrite Hi. replace (itn st + 1 - itn st)%Z with 1%Z by lia.
    repeat split; assumption.
  - pose proof E as Hl. apply loop_returns in Hl. destruct Hl as (Hlt & _).
    destruct (IH st1 pr1 w1 st' pr' w' E) as (cs' & Hc' & H1' & H2').
    exists (cs ++ cs'). rewrite Hc', Hc, app_assoc.
    rewrite matvecs_app, rmatvecs_app. repeat split; lia.
Qed.

(** initialisation applies [A.matvec] once if [x0] is given, not at
    all otherwise, and [A.rmatvec] at most once *)
Lemma applies_initialize b (x0 : option loc) :
  applies (match x0 with Some _ => 1 | None => 0 end) 1
          (initialize A b n normb x0).
Proof.
  destruct x0 as [l|].
  - assert (H : exists k1 k2,
               applies k1 k2 (initialize A b n normb (Some l)) /\
               k1 = 1 /\ k2 = 1).
    { eexists. eexists. split; [unfold initialize; repeat applies_step|].
      split; reflexivity. }
    destruct H as (k1 & k2 & H & -> & ->). exact H.
  - assert (H : exists k1 k2,
               applies k1 k2 (initialize A b n normb None) /\
               k1 = 0 /\ k2 = 1).
    { eexists. eexists. split; [unfold initialize; repeat applies_step|].
      split; reflexivity. }
    destruct H as (k1 & k2 & H & -> & ->). exact H.
Qed.

End OperatorCallsOfDriver.

Section Observed.
Context {T : Type} {ops : Sc.Ops T}.
Implicit Types w : @world T.
Implicit Types st : @vars T.
Implicit Types pr : @printer T.
Local Open Scope sc_scope.
Import Sc.
Variable fuel : nat.
Variable A : @LinearOperator T.
Variable b : loc.
Variables damp atol btol conlim : T.
Variable maxiter : option Z.
Variable show : bool.

(** the estimates that initialisation sets, lines 206-245 *)
Lemma initialize_estimates n normb x0 :
  returns (initialize A b n normb x0)
          (fun st => normx st = zero /\ condA st = one /\
                     normA st = sqrt (alpha st * alpha st)).
Proof.
  unfold initialize. repeat returns_step; simpl; repeat split; reflexivity.
Qed.

Lemma same_store_calls w1 w2 : same_store w1 w2 -> calls w1 = calls w2.
Proof. intros [_ H]. exact H. Qed.

(** X4.  A call that returns has applied [A.matvec] exactly once per
    iteration, plus once at entry when [x0] is given, and [A.rmatvec] at
    most once per iteration plus once at entry; it has made no other
    operator call. *)
Theorem lsmr_operator_calls (x0 : option loc) w r w' :
  lsmr fuel A b damp atol btol conlim maxiter show x0 w = Ok r w' ->
  exists cs,
    calls w' = calls w ++ cs /\
    matvecs cs
    = (Z.to_nat (itn_of r) + match x0 with Some _ => 1 | None => 0 end)%nat /\
    rmatvecs cs <= (Z.to_nat (itn_of r) + 1)%nat /\
    length cs = (matvecs cs + rmatvecs cs)%nat.
Proof.
  intros E. apply lsmr_inv in E.
  destruct E as (wb & st & w1 & Sb & Ei & Hcase).
  pose proof Ei as Hr. apply initialize_returns in Hr.
  destruct Hr as (Hitn & _).
  destruct (@applies_initialize _ _ A (vnorm (cell w b)) (snd (shape A)) b x0
                                wb st w1 Ei) as (cs & Hc & H1 & H2).
  rewrite <- (same_store_calls Sb) in Hc.
  destruct Hcase as [(Hz & -> & S1)|(_ & pr0 & w2 & st' & pr' & w3 & S1 & El & -> & S3)].
  - exists cs. rewrite <- (same_store_calls S1). unfold result_of.
    cbn [itn_of]. rewrite Hitn. cbn [Z.to_nat].
    split; [exact Hc|]. split; [lia|]. split; [lia|apply calls_split].
  - pose proof El as Hl. apply loop_returns in Hl. destruct Hl as (Hlt & _).
    apply loop_applies in El. destruct El as (cs' & Hc' & H1' & H2').
    exists (cs ++ cs'). rewrite <- (same_store_calls S3), Hc'.
    rewrite <- (same_store_calls S1), Hc, app_assoc.
    unfold result_of. cbn [itn_of].
    rewrite Hitn in H1', H2'. rewrite Z.sub_0_r in H1', H2'.
    rewrite matvecs_app, rmatvecs_app.
    split; [reflexivity|]. split; [lia|]. split; [lia|].
    rewrite length_app, !calls_split. lia.
Qed.

(** X3.  A returned iteration count is never negative, and it is 0 only
    on the early return of line 246: the tuple then reports
    [normar == 0], [condA = 1] and [normx = 0] (whatever [x0] holds),
    and [x] is [x0] itself, not written, or a new zero vector of length
    [n].  Any other call has made at least one pass. *)
Theorem lsmr_zero_iterations x0 w r w' :
  b < length (heap w) ->
  match x0 with Some l => l < length (heap w) | None => True end ->
  lsmr fuel A b damp atol btol conlim maxiter show x0 w = Ok r w' ->
  (0 <= itn_of r)%Z /\
  (itn_of r = 0%Z ->
   (normar_of r =? zero) = true /\ condA_of r = one /\ normx_of r = zero /\
   match x0 with
   | Some l => x_of r = l /\ cell w' l = cell w l
   | None => x_of r = length (heap w) /\
             cell w' (x_of r) = zeros (snd (shape A))
   end).
Proof.
  intros Hb Hx0 E. apply lsmr_inv in E.
  destruct E as (wb & st & w1 & Sb & Ei & Hcase).
  pose proof Ei as Hr. apply initialize_returns in Hr.
  destruct Hr as (Hitn & _).
  destruct Hcase as [(Hz & -> & S1)|(_ & pr0 & w2 & st' & pr' & w3 & _ & El & -> & _)].
  2:{ apply loop_returns in El. destruct El as (Hi & _).
      unfold result_of. cbn [itn_of]. split; [lia|]. intros H0. lia. }
  unfold result_of. cbn [itn_of normar_of condA_of normx_of x_of].
  split; [lia|]. intros _.
  pose proof Ei as He. apply initialize_estimates in He.
  destruct He as (Hnx & Hc & _).
  split; [exact Hz|]. split; [exact Hc|]. split; [exact Hnx|].
  assert (Hbb : b < length (heap wb)) by (destruct Sb as [<- _]; assumption).
  assert (Hx0' : match x0 with
                 | Some l => l < length (heap wb)
                 | None => True
                 end).
  { destruct x0; [destruct Sb as [<- _]; assumption|exact I]. }
  pose proof (initialize_places _ _ _ _ _ Ei Hbb Hx0') as Hp.
  destruct Hp as (_ & _ & _ & _ & _ & _ & _ & Hx).
  pose proof (footprint_initialize A (vnorm (cell w b)) (snd (shape A)) b x0 wb)
    as F.
  rewrite Ei in F. specialize (F _ eq_refl).
  destruct x0 as [l|].
  - destruct Hx as [Hxl _]. split; [exact Hxl|].
    rewrite <- (same_store_cell l S1).
    rewrite (evolves_cell F); [symmetry; apply same_store_cell; exact Sb|assumption|].
    intros [].
  - destruct Hx as (Hxl & Hc0 & _). destruct Sb as [Sh Sc].
    split; [rewrite Hxl, Sh; reflexivity|].
    rewrite <- (same_store_cell _ S1). exact Hc0.
Qed.

(** X6.  A call that has iterated returns estimates on which the
    convergence test of the loop holds: [stop] is set for the returned
    [itn], [normr], [normar], [normA], [normx], [condA] (with
    [normb = ||b||] as it was at entry).  If the returned count is below
    the iteration limit, one of the six tolerance tests is what stopped
    the loop. *)
Theorem lsmr_stops_on_a_test x0 w r w' :
  lsmr fuel A b damp atol btol conlim maxiter show x0 w = Ok r w' ->
  (1 <= itn_of r)%Z ->
  let ctol := if conlim >? zero then one / conlim else zero in
  let ts := convergence_test atol btol (maxiter_of A maxiter)
                             (vnorm (cell w b)) ctol
                             (itn_of r) (normr_of r) (normar_of r)
                             (normA_of r) (normx_of r) (condA_of r) in
  stop ts = true /\
  ((itn_of r < maxiter_of A maxiter)%Z ->
   (one + test3 ts <=? one) || (one + test2 ts <=? one)
   || (one + t1 ts <=? one) || (test3 ts <=? ctol) || (test2 ts <=? atol)
   || (test1 ts <=? rtol ts) = true).
Proof.
  intros E Hi ctol. apply lsmr_inv in E.
  destruct E as (wb & st & w1 & Sb & Ei & Hcase).
  pose proof Ei as Hr. apply initialize_returns in Hr.
  destruct Hr as (Hitn & _).
  destruct Hcase as [(Hz & -> & S1)|(_ & pr0 & w2 & st' & pr' & w3 & _ & El & -> & _)].
  { unfold result_of in Hi. cbn [itn_of] in Hi. lia. }
  unfold result_of. cbn [itn_of normr_of normar_of normA_of normx_of condA_of].
  assert (Hlast : exists ts0,
             stop ts0 = true /\
             ts0 = convergence_test atol btol (maxiter_of A maxiter)
                     (vnorm (cell w b)) ctol
                     (itn st') (normr st') (normar st')
                     (normA st') (normx st') (condA st')).
  { clear -El. revert st pr0 w2 El.
    induction fuel as [|k IH]; intros st pr0 w2 El; [discriminate|].
    cbn [loop] in El. apply bind_inv in El.
    destruct El as ([[st1 ts1] pr1] & wa & E1 & El).
    apply body_returns in E1. destruct E1 as (_ & _ & _ & Hts).
    destruct (stop ts1) eqn:Hs.
    - apply ret_inv in El. destruct El as [El _]. injection El as <- <-.
      exists ts1. split; assumption.
    - eapply IH. exact El. }
  destruct Hlast as (ts0 & Hs & Hts). rewrite <- Hts.
  split; [exact Hs|]. intros Hlt.
  rewrite Hts in Hs |- *. unfold convergence_test in Hs |- *.
  cbn [stop test1 test2 test3 t1 rtol] in Hs |- *.
  assert (Hge : (itn st' >=? maxiter_of A maxiter)%Z = false)
    by (rewrite Z.geb_leb; apply Z.leb_gt; lia).
  rewrite Hge in Hs. cbn [orb] in Hs. rewrite orb_false_r in Hs. exact Hs.
Qed.

(** X7.  When [x0] is omitted the returned [x] is a new tensor of
    length [n]: it is none of the caller's tensors, [b] included. *)
Theorem lsmr_returns_new_x w r w' :
  b < length (heap w) ->
  lsmr fuel A b damp atol btol conlim maxiter show None w = Ok r w' ->
  x_of r = length (heap w) /\
  x_of r < length (heap w') /\
  x_of r <> b /\
  length (cell w' (x_of r)) = snd (shape A).
Proof.
  intros Hb E. apply lsmr_inv in E.
  destruct E as (wb & st & w1 & Sb & Ei & Hcase).
  assert (Hbb : b < length (heap wb)) by (destruct Sb as [<- _]; assumption).
  pose proof (initialize_places _ _ _ _ _ Ei Hbb I) as Hp.
  destruct Hp as (_ & Hvh & Hhh & Hlt & _ & Hxv & _ & Hxl & Hc0 & _).
  assert (Hsh : length (heap w) = length (heap wb))
    by (destruct Sb as [<- _]; reflexivity).
  assert (Hx1 : x st < length (heap w1)) by lia.
  assert (Hlen1 : length (cell w1 (x st)) = snd (shape A)).
  { rewrite Hc0. unfold zeros. apply repeat_length. }
  destruct Hcase as [(Hz & -> & S1)|(_ & pr0 & w2 & st' & pr' & w3 & S1 & El & -> & S3)].
  - unfold result_of. cbn [x_of]. destruct S1 as [S1 _].
    split; [lia|]. split; [rewrite <- S1; exact Hx1|]. split; [lia|].
    unfold cell in *. rewrite <- S1. exact Hlen1.
  - pose proof El as Hl. apply loop_returns in Hl.
    destruct Hl as (_ & _ & Hx').
    assert (F : evolves (cells st) w2 w3).
    { eapply footprint_loop. rewrite El. reflexivity. }
    unfold result_of. cbn [x_of]. rewrite Hx'.
    destruct S1 as [S1 _]. destruct S3 as [S3 _].
    assert (Hx2 : x st < length (heap w2)) by (rewrite <- S1; exact Hx1).
    split; [lia|]. split.
    { rewrite <- S3. pose proof (evolves_length F). lia. }
    split; [lia|].
    unfold cell at 1. rewrite <- S3. fold (cell w3 (x st)).
    rewrite (evolves_cell_length F Hx2).
    unfold cell in *. rewrite <- S1. exact Hlen1.
Qed.

End Observed.

Section Exceptions.
Context {T : Type} {ops : Sc.Ops T}.
Implicit Types w : @world T.
Implicit Types st : @vars T.
Implicit Types pr : @printer T.

Lemma raises_only_ret {A} P (a : A) : raises_only P (ret (T := T) a).
Proof. intros w e w' E. discriminate. Qed.

Lemma raises_only_raise {A} (P : exn -> Prop) e :
  P e -> raises_only P (raise (T := T) (A := A) e).
Proof. intros H w e0 w' E. injection E as <- _. exact H. Qed.

Lemma raises_only_bind {A B} P (m : @M T A) (k : A -> M B) :
  raises_only P m -> (forall a, raises_only P (k a)) ->
  raises_only P (bind m k).
Proof.
  intros Hm Hk w e w'. unfold bind.
  destruct (m w) as [a w1|e1 w1|] eqn:E1; try discriminate.
  - apply Hk.
  - intros E. injection E as <- _. eapply Hm. exact E1.
Qed.

(** the continuation may rely on what the first computation returns *)
Lemma raises_only_seq {A B} P (Q : A -> Prop) (m : @M T A) (k : A -> M B) :
  raises_only P m -> returns m Q ->
  (forall a, Q a -> raises_only P (k a)) ->
  raises_only P (bind m k).
Proof.
  intros Hm Hr Hk w e w'. unfold bind.
  destruct (m w) as [a w1|e1 w1|] eqn:E1; try discriminate.
  - apply Hk. eapply Hr. exact E1.
  - intros E. injection E as <- _. eapply Hm. exact E1.
Qed.

Lemma raises_only_alloc P (cv : list T) : raises_only P (alloc cv).
Proof. intros w e w' E. discriminate. Qed.

Lemma raises_only_print P (ln : @line T) : raises_only P (print ln).
Proof. intros w e w' E. discriminate. Qed.

Lemma raises_only_norm P l : raises_only P (norm (T := T) l).
Proof. intros w e w' E. discriminate. Qed.

Lemma raises_only_scaled P (c : T) l : raises_only P (scaled c l).
Proof. intros w e w' E. discriminate. Qed.

Lemma raises_only_clone P l : raises_only P (clone (T := T) l).
Proof. intros w e w' E. discriminate. Qed.

Lemma raises_only_imul P l (c : T) : raises_only P (imul l c).
Proof. intros w e w' E. discriminate. Qed.

Lemma raises_only_iadd (P : exn -> Prop) l l' :
  P RuntimeError -> raises_only P (iadd (T := T) l l').
Proof.
  intros H w e w'. unfold iadd, bind, load.
  destruct (inplace2 _ _ _); [discriminate|].
  intros E. injection E as <- _. exact H.
Qed.

Lemma raises_only_minus (P : exn -> Prop) l l' :
  P RuntimeError -> raises_only P (minus (T := T) l l').
Proof.
  intros H w e w'. unfold minus, bind, load.
  destruct (broadcast2 _ _ _); [discriminate|].
  intros E. injection E as <- _. exact H.
Qed.

Lemma raises_only_item0 (P : exn -> Prop) l :
  P IndexError -> raises_only P (item0 (T := T) l).
Proof.
  intros H w e w'. unfold item0, bind, load.
  destruct (nth l (heap w) []); [|discriminate].
  intros E. injection E as <- _. exact H.
Qed.

Lemma raises_only_call_matvec (P : exn -> Prop) (A : @LinearOperator T) l :
  P OperatorError -> raises_only P (call_matvec A l).
Proof.
  intros H w e w'. unfold call_matvec, bind, load, log_call.
  destruct (matvec A _); [discriminate|].
  intros E. injection E as <- _. exact H.
Qed.

Lemma raises_only_call_rmatvec (P : exn -> Prop) (A : @LinearOperator T) l :
  P OperatorError -> raises_only P (call_rmatvec A l).
Proof.
  intros H w e w'. unfold call_rmatvec, bind, load, log_call.
  destruct (rmatvec A _); [discriminate|].
  intros E. injection E as <- _. exact H.
Qed.

Lemma raises_only_when P c (m : @M T unit) :
  raises_only P m -> raises_only P (when c m).
Proof. intros H. destruct c; [assumption|apply raises_only_ret]. Qed.

Lemma returns_seq {A B} (m : @M T A) (k : A -> M B) (Q1 : A -> Prop)
      (Q : B -> Prop) :
  returns m Q1 -> (forall a, Q1 a -> returns (k a) Q) -> returns (bind m k) Q.
Proof.
  intros Hm Hk w b0 w' E. apply bind_inv in E.
  destruct E as (a & w1 & E1 & E). eapply Hk; [eapply Hm|]; eassumption.
Qed.

End Exceptions.

Ltac raises_only_step :=
  lazymatch goal with
  | |- raises_only ?P (let x := ?e in @?m x) =>
    let y := fresh x in pose (y := e); change (raises_only P (m y)); cbv beta
  | |- raises_only _ (if ?c then _ else _) => destruct c
  | |- raises_only _ (match ?o with _ => _ end) => destruct o
  | |- raises_only _ (call_matvec _ _) => apply raises_only_call_matvec
  | |- raises_only _ (call_rmatvec _ _) => apply raises_only_call_rmatvec
  | |- raises_only _ (imul _ _) => apply raises_only_imul
  | |- raises_only _ (iadd _ _) => apply raises_only_iadd
  | |- raises_only _ (norm _) => apply raises_only_norm
  | |- raises_only _ (scaled _ _) => apply raises_only_scaled
  | |- raises_only _ (clone _) => apply raises_only_clone
  | |- raises_only _ (minus _ _) => apply raises_only_minus
  | |- raises_only _ (item0 _) => apply raises_only_item0
  | |- raises_only _ (alloc _) => apply raises_only_alloc
  | |- raises_only _ (print _) => apply raises_only_print
  | |- raises_only _ (when _ _) => apply raises_only_when
  | |- raises_only _ (bind _ _) => apply raises_only_bind; [|intros ?]
  | |- raises_only _ (ret _) => apply raises_only_ret
  | |- raises_only _ (raise _) => apply raises_only_raise
  end.

Section ExceptionsOfDriver.
Context {T : Type} {ops : Sc.Ops T}.
Implicit Types w : @world T.
Implicit Types st : @vars T.
Implicit Types pr : @printer T.
Local Open Scope sc_scope.
Import Sc.
Variable A : @LinearOperator T.
Variables damp atol btol : T.
Variable maxiter : Z.
Variables normb ctol : T.
Variable n : nat.

Lemma raises_only_pass st :
  raises_only numeric (pass A damp atol btol maxiter normb ctol st).
Proof.
  unfold pass. repeat raises_only_step; unfold numeric; tauto.
Qed.

Lemma raises_only_initialize b x0 :
  raises_only numeric (initialize A b n normb x0).
Proof.
  unfold initialize. repeat raises_only_step; unfold numeric; tauto.
Qed.

Lemma raises_only_report st ts pr :
  raises_only (fun e => e = IndexError) (report atol maxiter ctol n st ts pr).
Proof. unfold report. repeat raises_only_step; reflexivity. Qed.

Lemma raises_only_first_row st :
  raises_only (fun e => e = IndexError) (first_row st).
Proof. unfold first_row. repeat raises_only_step; reflexivity. Qed.

(** the row strings after the row of a pass *)
Lemma report_bound st ts pr :
  returns (report atol maxiter ctol n st ts pr)
          (fun pr' => (rows_bound pr -> rows_bound pr') /\
                      (stop ts = true -> all_bound pr')).
Proof.
  unfold report.
  match goal with |- context [if ?c then _ else _] => destruct c eqn:Hc end.
  - repeat returns_step.
    all: split; [intros _|intros _; split]; repeat split; cbn; discriminate.
  - apply returns_ret. split; [tauto|]. intros Hs. rewrite Hs in Hc.
    rewrite !orb_true_r in Hc. discriminate.
Qed.

Lemma first_row_bound st : returns (first_row st) (@rows_bound T).
Proof.
  unfold first_row. repeat returns_step. repeat split; cbn; discriminate.
Qed.

Lemma body_bound st pr :
  returns (body A damp atol btol maxiter normb ctol n true st pr)
          (fun r => (rows_bound pr -> rows_bound (snd r)) /\
                    (stop (snd (fst r)) = true -> all_bound (snd r))).
Proof.
  unfold body. apply returns_bind. intros [st' ts].
  eapply returns_seq; [apply report_bound|].
  intros pr' H. apply returns_ret. cbn [fst snd]. exact H.
Qed.

Lemma loop_bound fuel : forall st pr,
  rows_bound pr ->
  returns (loop A damp atol btol maxiter normb ctol n true fuel st pr)
          (fun r => all_bound (snd r)).
Proof.
  induction fuel as [|fuel IH]; intros st pr Hr; [intros w r w' E; discriminate|].
  cbn [loop]. eapply returns_seq; [apply body_bound|].
  intros [[st' ts] pr'] [H1 H2]. cbn [fst snd] in H1, H2.
  destruct (stop ts).
  - apply returns_ret. cbn [snd]. apply H2. reflexivity.
  - apply IH. apply H1. exact Hr.
Qed.

Lemma raises_only_closing st pr :
  all_bound pr -> raises_only (fun _ => False) (closing st pr).
Proof.
  intros ((H1 & H2 & H3) & H4). unfold closing.
  destruct (str1 pr); [|contradiction]. destruct (str2 pr); [|contradiction].
  destruct (str3 pr); [|contradiction]. destruct (str4 pr); [|contradiction].
  repeat raises_only_step.
Qed.

Lemma raises_only_weaken {X} (P P' : exn -> Prop) (m : @M T X) :
  (forall e, P e -> P' e) -> raises_only P m -> raises_only P' m.
Proof. intros Hi Hm w e w' E. apply Hi. eapply Hm. exact E. Qed.

Lemma raises_only_loop show fuel : forall st pr,
  raises_only (fun e => numeric e \/ (show = true /\ e = IndexError))
              (loop A damp atol btol maxiter normb ctol n show fuel st pr).
Proof.
  induction fuel as [|fuel IH]; intros st pr; [intros w e w' E; discriminate|].
  cbn [loop]. apply raises_only_bind.
  - unfold body. apply raises_only_bind.
    + eapply raises_only_weaken; [|apply raises_only_pass]. intros e H. left. exact H.
    + intros [st' ts]. apply raises_only_bind; [|intros; apply raises_only_ret].
      destruct show; [|apply raises_only_ret].
      eapply raises_only_weaken; [|apply raises_only_report].
      intros e ->. right. split; reflexivity.
  - intros [[st' ts] pr']. destruct (stop ts); [apply raises_only_ret|apply IH].
Qed.

End ExceptionsOfDriver.

Section ExceptionsOfLsmr.
Context {T : Type} {ops : Sc.Ops T}.
Implicit Types w : @world T.
Local Open Scope sc_scope.
Import Sc.
Variable fuel : nat.
Variable A : @LinearOperator T.
Variable b : loc.
Variables damp atol btol conlim : T.
Variable maxiter : option Z.

Lemma raises_only_lsmr show x0 :
  raises_only (fun e => numeric e \/ (show = true /\ e = IndexError))
              (lsmr fuel A b damp atol btol conlim maxiter show x0).
Proof.
  unfold lsmr. destruct (shape A) as [m0 n0]. cbv zeta.
  apply raises_only_bind.
  { apply raises_only_when. unfold banner. repeat raises_only_step. }
  intros _. apply raises_only_bind; [apply raises_only_norm|]. intros normb.
  apply raises_only_bind.
  { eapply raises_only_weaken; [|apply raises_only_initialize].
    intros e H. left. exact H. }
  intros st. destruct (normar st =? zero).
  { repeat raises_only_step. }
  destruct show.
  - eapply raises_only_seq with (Q := @rows_bound T).
    + eapply raises_only_weaken; [|apply raises_only_first_row].
      intros e ->. right. split; reflexivity.
    + apply first_row_bound.
    + intros pr Hr.
      eapply raises_only_seq with (Q := fun r => all_bound (snd r)).
      * apply raises_only_loop.
      * apply loop_bound. exact Hr.
      * intros [st' pr'] Hall. cbn [snd] in Hall.
        apply raises_only_bind; [|intros; apply raises_only_ret].
        cbn [when]. eapply raises_only_weaken; [|apply raises_only_closing; exact Hall].
        intros e [].
  - apply raises_only_bind; [apply raises_only_ret|]. intros pr.
    apply raises_only_bind; [apply raises_only_loop|].
    intros [st' pr']. cbn [when]. repeat raises_only_step.
Qed.

(** X9.  The only exceptions a call raises are the operator's, a shape
    error of the tensor arithmetic, and, with [show] set, the index error
    of [x[0]] on an empty [x].  The row strings [str1] .. [str4] that the
    closing lines print are always assigned by then: a call never fails
    on an unbound local. *)
Theorem lsmr_exceptions show x0 w e w' :
  lsmr fuel A b damp atol btol conlim maxiter show x0 w = Raise e w' ->
  e <> NameError /\
  (e = IndexError -> show = true) /\
  (e = RuntimeError \/ e = OperatorError \/ e = IndexError).
Proof.
  intros E. destruct (@raises_only_lsmr show x0 w e w' E) as [[->| ->]|[Hs ->]].
  - split; [discriminate|]. split; [discriminate|]. left. reflexivity.
  - split; [discriminate|]. split; [discriminate|]. right. left. reflexivity.
  - split; [discriminate|]. split; [intros _; exact Hs|]. right. right. reflexivity.
Qed.

End ExceptionsOfLsmr.

Section FailureLeavesData.
Context {T : Type} {ops : Sc.Ops T}.
Implicit Types w : @world T.
Local Open Scope sc_scope.
Import Sc.
Variable fuel : nat.
Variable A : @LinearOperator T.
Variable b : loc.
Variables damp atol btol conlim : T.
Variable maxiter : option Z.

Lemma lsmr_overwrites_x0_only show x0 w w' :
  b < length (heap w) ->
  match x0 with
  | Some l => l < length (heap w)
  | None => norm_decides (cell w b)
  end ->
  final_world (lsmr fuel A b damp atol btol conlim maxiter show x0 w) = Some w' ->
  forall l', l' < length (heap w) -> x0 <> Some l' -> cell w' l' = cell w l'.
Proof.
  intros Hb Hx0 E l' Hl' Hne. revert E. unfold lsmr.
  destruct (shape A) as [m0 n0].
  set (mi := match maxiter with None => Z.of_nat (Nat.min m0 n0) | Some k => k end).
  assert (Qb : quiet (when show (banner m0 n0 damp atol btol conlim mi)))
    by apply quiet_when, quiet_banner.
  destruct (Qb w) as ([] & wb & Eb & Sb).
  unfold bind at 1. rewrite Eb.
  unfold bind at 1. unfold norm at 1. unfold bind at 1, load at 1, ret at 1.
  change (nth b (heap wb) []) with (cell wb b).
  rewrite <- (same_store_cell b Sb).
  assert (Hlw : length (heap w) = length (heap wb))
    by (destruct Sb as [-> _]; reflexivity).
  assert (Fi : footprint [] (initialize A b n0 (vnorm (cell w b)) x0))
    by apply footprint_initialize.
  intros E. apply bind_final in E. destruct E as [[e E]|(st & w1 & Ei & E)].
  { (* the initialisation fails *)
    rewrite (same_store_cell l' Sb).
    eapply evolves_cell; [apply Fi; rewrite E; reflexivity|lia|intros []]. }
  assert (E1 : evolves [] wb w1) by (apply Fi; rewrite Ei; reflexivity).
  assert (Hw1 : cell w1 l' = cell w l').
  { rewrite (same_store_cell l' Sb).
    apply (evolves_cell E1); [lia|intros []]. }
  assert (Hl1 : l' < length (heap w1)) by (pose proof (evolves_length E1); lia).
  destruct (normar st =? zero) eqn:Hz.
  { match type of E with
    | final_world (?m w1) = _ => assert (F : footprint [] m)
    end.
    { repeat footprint_step. }
    rewrite <- Hw1. eapply evolves_cell; [apply F; exact E|exact Hl1|intros []]. }
  assert (F : evolves (cells st) w1 w').
  { match type of E with
    | final_world (?m w1) = _ => assert (F : footprint (cells st) m)
    end; [|apply F; exact E].
    apply footprint_bind.
    { destruct show; [apply footprint_first_row|apply footprint_ret]. }
    intros pr0. apply footprint_bind; [apply footprint_loop|].
    intros [st' pr']. apply footprint_bind; [|intros; apply footprint_ret].
    apply footprint_when, footprint_closing. }
  rewrite <- Hw1. apply (evolves_cell F Hl1).
  assert (Hx0' : match x0 with
                 | Some l => l < length (heap wb)
                 | None => True
                 end).
  { destruct x0 as [l|]; [lia|exact I]. }
  assert (Hbb : b < length (heap wb)) by lia.
  pose proof (initialize_places _ _ _ _ _ Ei Hbb Hx0') as Hp.
  destruct Hp as (Hv & Hh & Hhb & Hlen & Huv & Hxv & Hxu & Hx).
  unfold cells. cbn [In]. intros [Hc|[Hc|[Hc|[Hc|[Hc|[]]]]]]; try lia.
  - destruct x0 as [l|].
    + destruct Hx as [_ Hu]. lia.
    + destruct Hx as (_ & _ & [Hu|(Hub & Hn & Ha & Hbeta)]); [lia|].
      apply initialize_returns in Ei. destruct Ei as (_ & _ & Hna & _).
      rewrite Hna, Ha, Hbeta in Hz.
      destruct Hx0 as [Hd|Hd]; congruence.
  - destruct x0 as [l|].
    + destruct Hx as [Hx _]. apply Hne. congruence.
    + destruct Hx as (Hx & _). lia.
Qed.

(** X10.  A call that fails leaves the caller's data as it was, the
    storage of [x0] apart: when [lsmr] raises, whatever the exception
    and however many passes were done before it, every storage that
    existed before the call other than that of [x0] still holds its
    values; [b], in particular, when [x0] does not share its storage
    with [b] (and, when [x0] is omitted, [||b||] is a number). *)
Theorem lsmr_failure_keeps_data show x0 w e w' :
  b < length (heap w) ->
  match x0 with
  | Some l => l < length (heap w)
  | None => norm_decides (cell w b)
  end ->
  lsmr fuel A b damp atol btol conlim maxiter show x0 w = Raise e w' ->
  (forall l', l' < length (heap w) -> x0 <> Some l' -> cell w' l' = cell w l') /\
  (x0 <> Some b -> cell w' b = cell w b).
Proof.
  intros Hb Hx0 E.
  assert (M0 : forall l', l' < length (heap w) -> x0 <> Some l' ->
                          cell w' l' = cell w l').
  { eapply lsmr_overwrites_x0_only; [exact Hb|exact Hx0|].
    rewrite E. reflexivity. }
  split; [exact M0|]. intros Hne. apply M0; assumption.
Qed.

End FailureLeavesData.

(** * The rotation primitive *)

Section SymOrthoCases.
Context {T : Type} {ops : Sc.Ops T}.
Local Open Scope sc_scope.
Import Sc.

Lemma sym_ortho_case1 (a b : T) :
  (b =? zero) = true -> _sym_ortho a b = (sign a, zero, abs a).
Proof.
  intros E. unfold _sym_ortho. rewrite E. cbn [negb].
  rewrite !andb_false_r. reflexivity.
Qed.

Lemma sym_ortho_case2 (a b : T) :
  (b =? zero) = false -> (a =? zero) = true ->
  _sym_ortho a b = (zero, sign b, abs b).
Proof.
  intros E E0. unfold _sym_ortho. rewrite E, E0. cbn [negb andb orb].
  rewrite !andb_false_r. reflexivity.
Qed.

Lemma sym_ortho_case3 (a b : T) :
  (b =? zero) = false -> (a =? zero) = false -> (abs b >? abs a) = true ->
  let tau := b / a in
  let s := sign b / sqrt (one + one / square tau) in
  _sym_ortho a b = (s / tau, s, b / s).
Proof.
  intros E E0 G. unfold _sym_ortho. rewrite E, E0, G. reflexivity.
Qed.

Lemma sym_ortho_case4 (a b : T) :
  (b =? zero) = false -> (a =? zero) = false -> (abs b >? abs a) = false ->
  let tau := b / a in
  let c := sign a / sqrt (one + square tau) in
  _sym_ortho a b = (c, c * tau, a / c).
Proof.
  intros E E0 G. unfold _sym_ortho. rewrite E, E0, G. reflexivity.
Qed.

End SymOrthoCases.

(** * Exact arithmetic *)

Module ERealFacts.
Import EReal.
Local Open Scope R_scope.

Lemma div_real x y : y <> 0 -> div (ER x) (ER y) = ER (x / y).
Proof. intros H. unfold div. destruct (Req_dec_T y 0); [contradiction|reflexivity]. Qed.

Lemma sqrt_real x : 0 <= x -> sqrt (ER x) = ER (R_sqrt.sqrt x).
Proof. intros H. unfold sqrt. destruct (Rlt_dec x 0); [lra|reflexivity]. Qed.

Lemma sign_pos x : 0 < x -> sign (ER x) = ER 1.
Proof. intros H. unfold sign. destruct (Rlt_dec 0 x); [reflexivity|lra]. Qed.

Lemma sign_neg x : x < 0 -> sign (ER x) = ER (-1).
Proof.
  intros H. unfold sign. destruct (Rlt_dec 0 x); [lra|].
  destruct (Rlt_dec x 0); [reflexivity|lra].
Qed.

Lemma sign_zero : sign (ER 0) = ER 0.
Proof.
  unfold sign. destruct (Rlt_dec 0 0); [lra|]. reflexivity.
Qed.

Lemma sign_real x : exists s, sign (ER x) = ER s /\ s * Rabs x = x /\ (0 <= x -> 0 <= s).
Proof.
  destruct (Rtotal_order x 0) as [H|[H|H]].
  - exists (-1). rewrite sign_neg by assumption. rewrite Rabs_left by assumption. repeat split; lra.
  - subst. exists 0. rewrite sign_zero. rewrite Rabs_R0. repeat split; lra.
  - exists 1. rewrite sign_pos by assumption. rewrite Rabs_right by lra. repeat split; lra.
Qed.

Lemma eqb_real x y : eqb (ER x) (ER y) = true <-> x = y.
Proof.
  unfold eqb, compare. destruct (Rlt_dec x y); [split; [discriminate|lra]|].
  destruct (Rlt_dec y x); [split; [discriminate|lra]|]. split; [lra|reflexivity].
Qed.

Lemma eqb_real_false x y : eqb (ER x) (ER y) = false <-> x <> y.
Proof.
  rewrite <- eqb_real. destruct (eqb (ER x) (ER y)); split; congruence.
Qed.

Lemma gtb_real x y : gtb (ER x) (ER y) = true <-> y < x.
Proof.
  unfold gtb, compare. destruct (Rlt_dec x y); [split; [discriminate|lra]|].
  destruct (Rlt_dec y x); [split; [lra|reflexivity]|]. split; [discriminate|lra].
Qed.

Lemma gtb_real_false x y : gtb (ER x) (ER y) = false <-> x <= y.
Proof.
  destruct (gtb (ER x) (ER y)) eqn:E.
  - apply gtb_real in E. split; [discriminate|lra].
  - split; [|reflexivity]. intros _. destruct (Rle_dec x y); [assumption|].
    assert (gtb (ER x) (ER y) = true) by (apply gtb_real; lra). congruence.
Qed.

Lemma leb_real x y : leb (ER x) (ER y) = true <-> x <= y.
Proof.
  unfold leb, compare. destruct (Rlt_dec x y); [split; [lra|reflexivity]|].
  destruct (Rlt_dec y x); [split; [discriminate|lra]|]. split; [lra|reflexivity].
Qed.

Lemma hyp_sq a b : hyp a b * hyp a b = a * a + b * b.
Proof. unfold hyp. apply sqrt_sqrt. nra. Qed.

Lemma hyp_nonneg a b : 0 <= hyp a b.
Proof. apply sqrt_pos. Qed.

Lemma hyp_pos a b : a <> 0 \/ b <> 0 -> 0 < hyp a b.
Proof. intros H. unfold hyp. apply sqrt_lt_R0. destruct H; nra. Qed.

Lemma sqrt_eq_of_sq x y : 0 <= y -> y * y = x -> R_sqrt.sqrt x = y.
Proof. intros Hy E. subst x. apply sqrt_square. assumption. Qed.

End ERealFacts.

Section ExactArithmetic.
Import ERealFacts.
Local Open Scope R_scope.

Lemma sym_ortho_b0 (a : R) :
  _sym_ortho (ER a) (ER 0) = (EReal.sign (ER a), ER 0, ER (Rabs a)).
Proof.
  rewrite sym_ortho_case1 by (apply eqb_real; reflexivity). reflexivity.
Qed.

Lemma sym_ortho_a0 (b : R) : b <> 0 ->
  _sym_ortho (ER 0) (ER b) = (ER 0, EReal.sign (ER b), ER (Rabs b)).
Proof.
  intros Hb. rewrite sym_ortho_case2.
  - reflexivity.
  - apply eqb_real_false; assumption.
  - apply eqb_real; reflexivity.
Qed.

Lemma Rabs_sq a : Rabs a * Rabs a = a * a.
Proof.
  destruct (Rcase_abs a); [rewrite Rabs_left by lra|rewrite Rabs_right by lra]; ring.
Qed.

Lemma sqrt_ratio a b : a <> 0 ->
  R_sqrt.sqrt (1 + b / a * (b / a)) = hyp a b / Rabs a.
Proof.
  intros Ha.
  assert (Habs : Rabs a <> 0) by (apply Rabs_no_R0; assumption).
  apply sqrt_eq_of_sq.
  - apply Rmult_le_pos; [apply hyp_nonneg|].
    apply Rlt_le, Rinv_0_lt_compat, Rabs_pos_lt; assumption.
  - replace (hyp a b / Rabs a * (hyp a b / Rabs a))
      with ((hyp a b * hyp a b) / (Rabs a * Rabs a)) by (field; assumption).
    rewrite hyp_sq, Rabs_sq. field. assumption.
Qed.

Lemma hyp_comm a b : hyp a b = hyp b a.
Proof. unfold hyp. f_equal. ring. Qed.

Lemma sym_ortho_generic (a b : R) : a <> 0 -> b <> 0 ->
  _sym_ortho (ER a) (ER b) = (ER (a / hyp a b), ER (b / hyp a b), ER (hyp a b)).
Proof.
  intros Ha Hb.
  assert (Hh : 0 < hyp a b) by (apply hyp_pos; left; assumption).
  assert (Habs : Rabs a <> 0) by (apply Rabs_no_R0; assumption).
  assert (Hbbs : Rabs b <> 0) by (apply Rabs_no_R0; assumption).
  assert (E : Sc.eqb (ER b) Sc.zero = false) by (apply eqb_real_false; assumption).
  assert (E0 : Sc.eqb (ER a) Sc.zero = false) by (apply eqb_real_false; assumption).
  destruct (sign_real a) as (sa & Esa & Hsa & _).
  destruct (sign_real b) as (sb & Esb & Hsb & _).
  destruct (Sc.gtb (Sc.abs (ER b)) (Sc.abs (ER a))) eqn:G.
  - rewrite (sym_ortho_case3 _ _ E E0 G).
    cbn [Sc.sign Sc.div Sc.mul Sc.add Sc.one Sc.sqrt EReal.ops].
    unfold square. cbn [Sc.mul EReal.ops].
    rewrite (ERealFacts.div_real b Ha). cbn [EReal.mul].
    assert (Ht : b / a * (b / a) <> 0).
    { assert (b / a <> 0); [|nra].
      apply Rmult_integral_contrapositive; split; [lra|]. apply Rinv_neq_0_compat; lra. }
    rewrite (ERealFacts.div_real 1 Ht). cbn [EReal.add].
    assert (Hinv : 1 / (b / a * (b / a)) = a / b * (a / b)) by (field; split; assumption).
    rewrite Hinv.
    rewrite (ERealFacts.sqrt_real (x := 1 + a / b * (a / b))) by nra.
    rewrite (sqrt_ratio a Hb). rewrite (hyp_comm b a), Esb.
    assert (Hd2 : hyp a b / Rabs b <> 0).
    { apply Rmult_integral_contrapositive; split; [lra|]. apply Rinv_neq_0_compat; assumption. }
    rewrite (ERealFacts.div_real sb Hd2).
    assert (Es : sb / (hyp a b / Rabs b) = b / hyp a b).
    { transitivity ((sb * Rabs b) / hyp a b);
        [field; split; lra | rewrite Hsb; reflexivity]. }
    rewrite Es.
    assert (Hba : b / a <> 0).
    { apply Rmult_integral_contrapositive; split; [lra|]. apply Rinv_neq_0_compat; lra. }
    rewrite (ERealFacts.div_real (b / hyp a b) Hba).
    assert (Hbh : b / hyp a b <> 0).
    { apply Rmult_integral_contrapositive; split; [lra|]. apply Rinv_neq_0_compat; lra. }
    rewrite (ERealFacts.div_real b Hbh).
    replace (b / hyp a b / (b / a)) with (a / hyp a b) by (field; repeat split; lra).
    replace (b / (b / hyp a b)) with (hyp a b) by (field; split; lra).
    reflexivity.
  - rewrite (sym_ortho_case4 _ _ E E0 G).
    cbn [Sc.sign Sc.div Sc.mul Sc.add Sc.one Sc.sqrt EReal.ops].
    unfold square. cbn [Sc.mul EReal.ops].
    rewrite (ERealFacts.div_real b Ha). cbn [EReal.mul EReal.add].
    rewrite (ERealFacts.sqrt_real (x := 1 + b / a * (b / a))) by nra.
    rewrite (sqrt_ratio b Ha), Esa.
    assert (Hd : hyp a b / Rabs a <> 0).
    { apply Rmult_integral_contrapositive; split; [lra|]. apply Rinv_neq_0_compat; assumption. }
    rewrite (ERealFacts.div_real sa Hd).
    assert (Ec : sa / (hyp a b / Rabs a) = a / hyp a b).
    { transitivity ((sa * Rabs a) / hyp a b);
        [field; split; lra | rewrite Hsa; reflexivity]. }
    rewrite Ec. cbn [EReal.mul].
    assert (Hc : a / hyp a b <> 0).
    { apply Rmult_integral_contrapositive; split; [lra|]. apply Rinv_neq_0_compat; lra. }
    rewrite (ERealFacts.div_real a Hc).
    replace (a / (a / hyp a b)) with (hyp a b) by (field; split; lra).
    replace (a / hyp a b * (b / a)) with (b / hyp a b) by (field; split; lra).
    reflexivity.
Qed.

Lemma hyp_a0 a : hyp a 0 = Rabs a.
Proof.
  unfold hyp. replace (a * a + 0 * 0) with (Rsqr a) by (unfold Rsqr; ring).
  apply sqrt_Rsqr_abs.
Qed.

Lemma hyp_0b b : hyp 0 b = Rabs b.
Proof. rewrite hyp_comm. apply hyp_a0. Qed.

(** [_sym_ortho] on real numbers: the radius is the hypotenuse, and the
    cosine and sine are the ratios to it; at [(0, 0)] all three are 0. *)
Lemma sym_ortho_real (a b : R) :
  exists c s,
    _sym_ortho (ER a) (ER b) = (ER c, ER s, ER (hyp a b)) /\
    c * hyp a b = a /\ s * hyp a b = b /\
    (0 <= a -> 0 <= c) /\
    (a <> 0 \/ b <> 0 -> c * c + s * s = 1).
Proof.
  destruct (Req_dec_T b 0) as [Hb|Hb].
  - subst b. rewrite sym_ortho_b0, hyp_a0.
    destruct (sign_real a) as (sa & Esa & Hsa & Hpos).
    exists sa, 0. rewrite Esa. repeat split; try assumption; try ring.
    intros [Ha|Ha]; [|lra].
    destruct (Rtotal_order a 0) as [H|[H|H]]; [| lra |].
    + rewrite sign_neg in Esa by assumption. injection Esa as <-. ring.
    + rewrite sign_pos in Esa by assumption. injection Esa as <-. ring.
  - destruct (Req_dec_T a 0) as [Ha|Ha].
    + subst a. rewrite (sym_ortho_a0 Hb), hyp_0b.
      destruct (sign_real b) as (sb & Esb & Hsb & _).
      exists 0, sb. rewrite Esb. repeat split; try assumption; try ring; try lra.
      intros _.
      destruct (Rtotal_order b 0) as [H|[H|H]]; [| lra |].
      * rewrite sign_neg in Esb by assumption. injection Esb as <-. ring.
      * rewrite sign_pos in Esb by assumption. injection Esb as <-. ring.
    + rewrite (sym_ortho_generic Ha Hb).
      assert (Hh : 0 < hyp a b) by (apply hyp_pos; left; assumption).
      exists (a / hyp a b), (b / hyp a b).
      split; [reflexivity|].
      split; [field; lra|]. split; [field; lra|]. split.
      * intros H0. apply Rmult_le_pos; [assumption|].
        apply Rlt_le, Rinv_0_lt_compat. assumption.
      * intros _.
        replace (a / hyp a b * (a / hyp a b) + b / hyp a b * (b / hyp a b))
          with ((a * a + b * b) / (hyp a b * hyp a b)) by (field; lra).
        rewrite hyp_sq. field. rewrite <- hyp_sq. nra.
Qed.

(** C1.  For real [a], [b], not both zero, [_sym_ortho(a, b)] returns
    real [c], [s], [r] with [c*a + s*b = r], [-s*a + c*b = 0],
    [c^2 + s^2 = 1] and [r >= 0], in exact arithmetic. *)
Theorem sym_ortho_rotation (a b : R) :
  a * a + b * b > 0 ->
  exists c s r,
    _sym_ortho (ER a) (ER b) = (ER c, ER s, ER r) /\
    c * a + s * b = r /\
    - s * a + c * b = 0 /\
    c * c + s * s = 1 /\
    r >= 0.
Proof.
  intros Hab.
  assert (Hne : a <> 0 \/ b <> 0).
  { destruct (Req_dec_T a 0) as [->|]; [|left; assumption].
    right. intros ->. lra. }
  destruct (sym_ortho_real a b) as (c & s & E & Hc & Hs & _ & Hcs).
  specialize (Hcs Hne).
  exists c, s, (hyp a b). split; [exact E|].
  pose proof (hyp_nonneg a b) as Hr.
  clear E Hab Hne. remember (hyp a b) as r eqn:Er. clear Er. subst a b.
  split; [|split; [|split]].
  - replace (c * (c * r) + s * (s * r)) with ((c * c + s * s) * r) by ring.
    rewrite Hcs. ring.
  - ring.
  - exact Hcs.
  - lra.
Qed.

(** C3, as amended.  The sign is torch's, with [sign(0) = 0]: whenever
    [b = 0] the primitive returns [(sign(a), 0, |a|)], so [c] is [1] for
    positive [a], [-1] for negative [a] and [0] for [a = 0].  So
    [(5, 0)] gives [(1, 0, 5)], [(0, -3)] gives [(0, -1, 3)] and
    [(0, 0)] gives [(0, 0, 0)]. *)
Theorem sym_ortho_sign_convention (a : R) :
  _sym_ortho (ER a) (ER 0) = (Sc.sign (ER a), ER 0, ER (Rabs a)) /\
  (0 < a -> Sc.sign (ER a) = ER 1) /\
  (a < 0 -> Sc.sign (ER a) = ER (-1)) /\
  Sc.sign (ER 0) = ER 0 /\
  _sym_ortho (ER 5) (ER 0) = (ER 1, ER 0, ER 5) /\
  _sym_ortho (ER 0) (ER (-3)) = (ER 0, ER (-1), ER 3) /\
  _sym_ortho (ER 0) (ER 0) = (ER 0, ER 0, ER 0).
Proof.
  split; [apply sym_ortho_b0|].
  split; [apply sign_pos|]. split; [apply sign_neg|]. split; [apply sign_zero|].
  split; [|split].
  - rewrite sym_ortho_b0. rewrite sign_pos by lra. rewrite Rabs_right by lra.
    reflexivity.
  - rewrite sym_ortho_a0 by lra. rewrite sign_neg by lra.
    rewrite Rabs_left by lra. do 3 f_equal. lra.
  - rewrite sym_ortho_b0, sign_zero, Rabs_R0. reflexivity.
Qed.

(** C3 as stated fails: [_sym_ortho(0, 0)] is [(0, 0, 0)], not
    [(1, 0, 0)], on the reals and in binary64. *)
Lemma sym_ortho_zero_zero :
  _sym_ortho (ER 0) (ER 0) = (ER 0, ER 0, ER 0) /\
  _sym_ortho (ER 0) (ER 0) <> (ER 1, ER 0, ER 0) /\
  _sym_ortho (Float64.of_Z 0) (Float64.of_Z 0)
  = (Float64.of_Z 0, Float64.of_Z 0, Float64.of_Z 0).
Proof.
  assert (E : _sym_ortho (ER 0) (ER 0) = (ER 0, ER 0, ER 0)).
  { rewrite sym_ortho_b0, sign_zero, Rabs_R0. reflexivity. }
  split; [exact E|]. split.
  - rewrite E. intros H. injection H as H. lra.
  - vm_compute. reflexivity.
Qed.

(** the rotation of [(3, 4)] *)
Lemma sym_ortho_rotation_witness :
  exists c s r,
    _sym_ortho (ER 3) (ER 4) = (ER c, ER s, ER r) /\
    c * 3 + s * 4 = r /\ - s * 3 + c * 4 = 0 /\ c * c + s * s = 1 /\ r >= 0.
Proof. apply (@sym_ortho_rotation 3 4). lra. Defined.

(** ** Real data *)

Lemma real_vec_nil : real_vec [].
Proof. constructor. Qed.

Lemma real_vec_map_mul c v :
  is_real c -> real_vec v -> real_vec (map (fun a => Sc.mul a c) v).
Proof.
  intros [rc ->] Hv. unfold real_vec in *. rewrite Forall_map.
  eapply Forall_impl; [|exact Hv]. intros a [ra ->]. cbn. eexists. reflexivity.
Qed.

Lemma real_vec_map2_add u w :
  real_vec u -> real_vec w -> real_vec (map2 Sc.add u w).
Proof.
  intros Hu. revert w. induction Hu as [|a u [ra ->] Hu IH]; intros w Hw.
  - constructor.
  - destruct Hw as [|b w [rb ->] Hw]; [constructor|].
    cbn. constructor; [eexists; reflexivity|]. apply IH. assumption.
Qed.

Lemma real_vec_inplace_add u w r :
  inplace2 Sc.add u w = Some r -> real_vec u -> real_vec w -> real_vec r.
Proof.
  unfold inplace2. intros E Hu Hw.
  destruct (Nat.eqb (length u) (length w)).
  - injection E as <-. apply real_vec_map2_add; assumption.
  - destruct w as [|b [|? ?]]; try discriminate. injection E as <-.
    inversion Hw as [|? ? [rb ->] _]; subst.
    unfold real_vec in *. rewrite Forall_map.
    eapply Forall_impl; [|exact Hu]. intros a [ra ->]. cbn. eexists. reflexivity.
Qed.

Lemma vnorm_real v : real_vec v -> exists r, vnorm v = ER r /\ 0 <= r.
Proof.
  intros Hv.
  assert (H : forall acc, 0 <= acc ->
            exists r, fold_left (fun acc a => Sc.add acc (Sc.mul a a)) v (ER acc)
                      = ER r /\ 0 <= r).
  { induction Hv as [|a v [ra ->] Hv IH]; intros acc Hacc.
    - exists acc. split; [reflexivity|assumption].
    - cbn [fold_left]. cbn [Sc.add Sc.mul EReal.ops EReal.add EReal.mul].
      apply IH. nra. }
  destruct (H 0 (Rle_refl 0)) as (r & E & Hr).
  assert (G : exists r0,
             Sc.sqrt (fold_left (fun acc a => Sc.add acc (Sc.mul a a)) v Sc.zero)
             = ER r0 /\ 0 <= r0).
  { change Sc.zero with (ER 0). rewrite E.
    exists (R_sqrt.sqrt r). split; [|apply sqrt_pos].
    cbn [Sc.sqrt EReal.ops]. apply ERealFacts.sqrt_real. assumption. }
  destruct v as [|a [|a' v']]; [exact G| |exact G].
  inversion Hv as [|? ? [ra ->] _]; subst.
  exists (Rabs ra). split; [reflexivity|apply Rabs_pos].
Qed.

Lemma is_real_neg t : is_real t -> is_real (Sc.neg t).
Proof. intros [r ->]. eexists. reflexivity. Qed.

Lemma is_real_inv r : 0 < r -> is_real (Sc.div Sc.one (ER r)).
Proof.
  intros H. exists (1 / r). cbn [Sc.div Sc.one EReal.ops].
  apply ERealFacts.div_real. lra.
Qed.

Lemma max_real x y : EReal.max (ER x) (ER y) = ER (Rmax x y).
Proof.
  unfold EReal.max, EReal.compare, Rmax.
  destruct (Rlt_dec x y); destruct (Rle_dec x y);
    try destruct (Rlt_dec y x); try reflexivity; try lra; f_equal; lra.
Qed.

Lemma min_real x y : EReal.min (ER x) (ER y) = ER (Rmin x y).
Proof.
  unfold EReal.min, EReal.compare, Rmin.
  destruct (Rlt_dec x y); destruct (Rle_dec x y);
    try destruct (Rlt_dec y x); try reflexivity; try lra; f_equal; lra.
Qed.

Lemma sym_ortho_real_inv a b c s r :
  _sym_ortho (ER a) (ER b) = (c, s, r) ->
  exists c' s', c = ER c' /\ s = ER s' /\ r = ER (hyp a b) /\
                (0 <= a -> 0 <= c').
Proof.
  intros E. destruct (sym_ortho_real a b) as (c' & s' & E' & _ & _ & Hc & _).
  rewrite E' in E. injection E as <- <- <-. exists c', s'. tauto.
Qed.

(** the ratio of the largest to the smallest is at least 1, or +inf *)
Lemma ratio_at_least_one N D :
  1 <= N -> 0 <= D -> D <= N -> at_least_one (Sc.div (ER N) (ER D)).
Proof.
  intros HN HD HDN. unfold at_least_one.
  cbn [Sc.div Sc.leb Sc.one EReal.ops]. unfold EReal.div.
  destruct (Req_dec_T D 0) as [->|Hne].
  - unfold EReal.signed_inf. destruct (Rlt_dec 0 N); [reflexivity|lra].
  - apply leb_real.
    assert (HD' : 0 < D) by lra.
    assert (E : D * / D = 1) by (field; lra).
    assert (Hi : 0 < / D) by (apply Rinv_0_lt_compat; assumption).
    unfold Rdiv. nra.
Qed.

Lemma update_live_real (w : @world ereal) l nv l0 :
  real_vec nv -> live_real w l0 ->
  live_real (World (update l nv (heap w)) (calls w) (out w)) l0.
Proof.
  intros Hnv [Hl Hr]. unfold live_real, cell in *. cbn [heap].
  rewrite length_update. split; [assumption|].
  destruct (Nat.eq_dec l0 l) as [->|Hne].
  - rewrite nth_update_same by assumption. assumption.
  - rewrite nth_update_other by assumption. assumption.
Qed.

Lemma imul_live_real l c (w w' : @world ereal) l0 :
  imul l c w = Ok tt w' -> is_real c -> real_vec (cell w l) ->
  live_real w l0 -> live_real w' l0.
Proof.
  unfold imul, bind, load, store. intros E Hc Hl H0. injection E as <-.
  apply update_live_real; [|assumption]. apply real_vec_map_mul; assumption.
Qed.

Lemma iadd_live_real l l' (w w' : @world ereal) l0 :
  iadd l l' w = Ok tt w' -> real_vec (cell w l) -> real_vec (cell w l') ->
  live_real w l0 -> live_real w' l0.
Proof.
  unfold iadd, bind, load. fold (cell w l) (cell w l'). intros E Hl Hl' H0.
  destruct (inplace2 Sc.add (cell w l) (cell w l')) as [r|] eqn:Er; [|discriminate].
  unfold store in E. injection E as <-.
  apply update_live_real; [|assumption].
  eapply real_vec_inplace_add; eassumption.
Qed.

Lemma push_live_real (w w' : @world ereal) c l0 :
  heap w' = heap w ++ [c] -> live_real w l0 -> live_real w' l0.
Proof.
  intros E [Hl Hr]. unfold live_real, cell in *. rewrite E, length_app.
  split; [lia|]. rewrite app_nth1 by assumption. assumption.
Qed.

Lemma call_matvec_live_real A l (w w' : @world ereal) t :
  call_matvec A l w = Ok t w' -> real_operator A -> real_vec (cell w l) ->
  real_vec (cell w' t) /\ forall l0, live_real w l0 -> live_real w' l0.
Proof.
  intros E [HA _] Hl. apply call_matvec_inv in E.
  destruct E as (y & Ey & -> & Hh & _). split.
  - unfold cell. rewrite Hh, nth_snoc_new. eapply HA; eassumption.
  - intros l0. apply push_live_real with (c := y). assumption.
Qed.

Lemma call_rmatvec_live_real A l (w w' : @world ereal) t :
  call_rmatvec A l w = Ok t w' -> real_operator A -> real_vec (cell w l) ->
  real_vec (cell w' t) /\ forall l0, live_real w l0 -> live_real w' l0.
Proof.
  intros E [_ HA] Hl. apply call_rmatvec_inv in E.
  destruct E as (y & Ey & -> & Hh & _). split.
  - unfold cell. rewrite Hh, nth_snoc_new. eapply HA; eassumption.
  - intros l0. apply push_live_real with (c := y). assumption.
Qed.

(** a tensor that is not written to stays what it is *)
Lemma frame_live_real L (w w' : @world ereal) l0 :
  evolves L w w' -> ~ In l0 L -> live_real w l0 -> live_real w' l0.
Proof.
  intros E Hn [Hl Hr]. split.
  - pose proof (evolves_length E). lia.
  - rewrite (evolves_cell E Hl Hn). assumption.
Qed.

Lemma footprint_run {X} L (m : @M ereal X) w a w' :
  footprint L m -> m w = Ok a w' -> evolves L w w'.
Proof. intros F E. apply F. rewrite E. reflexivity. Qed.

Tactic Notation "inv_bind" hyp(E) ident(a) ident(w1) ident(E1) :=
  apply bind_inv in E; destruct E as (a & w1 & E1 & E);
  cbv beta iota zeta in E.

Section Chain.
Variable A : @LinearOperator ereal.
Variables damp atol btol : ereal.
Variable maxiter : Z.
Variables normb ctol : ereal.
Hypothesis HA : real_operator A.
Hypothesis Hdamp : is_real damp.

(** a pass keeps the invariant and gives a condition estimate of at
    least 1 *)
Lemma pass_chain st w st' ts w' :
  chain_ok st w ->
  pass A damp atol btol maxiter normb ctol st w = Ok (st', ts) w' ->
  chain_ok st' w' /\ at_least_one (condA st').
Proof.
  intros (Hul & Hvl & Hun & Hvn & Hur & Hvr & a & ab & cb & rb & M & mn &
          Ea & Eab & Ecb & Erb & EM & Emn & Hcb & Hrb & Hmn & HM) E.
  destruct Hdamp as [dm Edm].
  assert (Hu : live_real w (u st)) by (split; assumption).
  assert (Hv : live_real w (v st)) by (split; assumption).
  clear Hul Hvl Hur Hvr.
  unfold pass in E. cbv beta iota zeta in E.
  (* the bidiagonalization *)
  inv_bind E u1 w1 E1. destruct u1.
  assert (Hu1 : live_real w1 (u st)).
  { eapply imul_live_real; [exact E1| |apply Hu|exact Hu].
    rewrite Ea. eexists. reflexivity. }
  assert (Hv1 : live_real w1 (v st)).
  { eapply imul_live_real; [exact E1| |apply Hu|exact Hv].
    rewrite Ea. eexists. reflexivity. }
  clear E1 Hu Hv.
  inv_bind E t2 w2 E2.
  destruct (@call_matvec_live_real A (v st) w1 w2 t2 E2 HA (proj2 Hv1))
    as [Ht2 Hk2].
  apply Hk2 in Hu1, Hv1. clear E2 Hk2.
  inv_bind E u3 w3 E3. destruct u3.
  assert (Hu3 : live_real w3 (u st))
    by (eapply iadd_live_real; [exact E3|apply Hu1|exact Ht2|exact Hu1]).
  assert (Hv3 : live_real w3 (v st))
    by (eapply iadd_live_real; [exact E3|apply Hu1|exact Ht2|exact Hv1]).
  clear E3 Hu1 Hv1 Ht2.
  inv_bind E beta' w4 E4. apply norm_inv in E4. destruct E4 as [Ebeta ->].
  destruct (vnorm_real (proj2 Hu3)) as (bn & Ebn & Hbn).
  rewrite Ebn in Ebeta. subst beta'.
  inv_bind E alpha' w5 E5.
  assert (H5 : live_real w5 (u st) /\ live_real w5 (v st) /\ is_real alpha').
  { destruct (Sc.gtb (ER bn) Sc.zero) eqn:Hgt.
    - apply gtb_real in Hgt.
      inv_bind E5 ua wa Ea1. destruct ua.
      assert (Hua : live_real wa (u st))
        by (eapply imul_live_real; [exact Ea1|apply is_real_inv; assumption
                                    |apply Hu3|exact Hu3]).
      assert (Hva : live_real wa (v st))
        by (eapply imul_live_real; [exact Ea1|apply is_real_inv; assumption
                                    |apply Hu3|exact Hv3]).
      clear Ea1.
      inv_bind E5 ub wb Eb1. destruct ub.
      assert (Hub : live_real wb (u st))
        by (eapply imul_live_real; [exact Eb1|eexists; reflexivity
                                    |apply Hva|exact Hua]).
      assert (Hvb : live_real wb (v st))
        by (eapply imul_live_real; [exact Eb1|eexists; reflexivity
                                    |apply Hva|exact Hva]).
      clear Eb1 Hua Hva.
      inv_bind E5 tc wc Ec1.
      destruct (@call_rmatvec_live_real A (u st) wb wc tc Ec1 HA (proj2 Hub))
        as [Htc Hkc].
      apply Hkc in Hub, Hvb. clear Ec1 Hkc.
      inv_bind E5 ud wd Ed1. destruct ud.
      assert (Hud : live_real wd (u st))
        by (eapply iadd_live_real; [exact Ed1|apply Hvb|exact Htc|exact Hub]).
      assert (Hvd : live_real wd (v st))
        by (eapply iadd_live_real; [exact Ed1|apply Hvb|exact Htc|exact Hvb]).
      clear Ed1 Hub Hvb Htc.
      inv_bind E5 al we Ee1. apply norm_inv in Ee1. destruct Ee1 as [Eal ->].
      destruct (vnorm_real (proj2 Hvd)) as (an & Ean & Han).
      rewrite Ean in Eal. subst al.
      inv_bind E5 uf wf Ef1. destruct uf.
      apply ret_inv in E5. destruct E5 as [<- <-].
      split; [|split; [|eexists; reflexivity]].
      + destruct (Sc.gtb (ER an) Sc.zero) eqn:Hgt'; cbn [when] in Ef1.
        * apply gtb_real in Hgt'.
          eapply imul_live_real; [exact Ef1|apply is_real_inv; assumption
                                  |apply Hvd|exact Hud].
        * apply ret_inv in Ef1. destruct Ef1 as [_ <-]. exact Hud.
      + destruct (Sc.gtb (ER an) Sc.zero) eqn:Hgt'; cbn [when] in Ef1.
        * apply gtb_real in Hgt'.
          eapply imul_live_real; [exact Ef1|apply is_real_inv; assumption
                                  |apply Hvd|exact Hvd].
        * apply ret_inv in Ef1. destruct Ef1 as [_ <-]. exact Hvd.
    - apply ret_inv in E5. destruct E5 as [<- <-].
      split; [exact Hu3|]. split; [exact Hv3|]. rewrite Ea. eexists. reflexivity. }
  clear E5 Hu3 Hv3. destruct H5 as (Hu5 & Hv5 & [an Ean]). subst alpha'.
  (* the rotations *)
  rewrite Eab, Edm in E.
  destruct (_sym_ortho (ER ab) (ER dm)) as [[chat shat] alphahat] eqn:S1.
  apply sym_ortho_real_inv in S1.
  destruct S1 as (chat' & shat' & -> & -> & -> & _).
  cbv beta iota zeta in E.
  destruct (_sym_ortho (ER (hyp ab dm)) (ER bn)) as [[c s] rho'] eqn:S2.
  apply sym_ortho_real_inv in S2.
  destruct S2 as (c' & s' & -> & -> & -> & _).
  cbv beta iota zeta in E.
  rewrite Ecb in E.
  cbn [Sc.mul EReal.ops EReal.mul] in E.
  destruct (_sym_ortho (ER (cb * hyp (hyp ab dm) bn)) (ER (s' * an)))
    as [[cbar' sbar'] rhobar'] eqn:S3.
  apply sym_ortho_real_inv in S3.
  destruct S3 as (cb' & sb' & -> & -> & -> & Hcb').
  cbv beta iota zeta in E.
  (* the updates of hbar, x and h *)
  set (L := [hbar st; x st; h st]) in *.
  inv_bind E u6 w6 E6. destruct u6.
  assert (F6 : evolves L w5 w6).
  { eapply footprint_run; [|exact E6]. apply footprint_imul. cbn; tauto. }
  clear E6.
  inv_bind E u7 w7 E7. destruct u7.
  assert (F7 : evolves L w6 w7).
  { eapply footprint_run; [|exact E7]. apply footprint_iadd. cbn; tauto. }
  clear E7.
  inv_bind E t8 w8 E8.
  assert (F8 : evolves L w7 w8).
  { eapply footprint_run; [|exact E8]. apply footprint_scaled. }
  clear E8.
  inv_bind E u9 w9 E9. destruct u9.
  assert (F9 : evolves L w8 w9).
  { eapply footprint_run; [|exact E9]. apply footprint_iadd. cbn; tauto. }
  clear E9.
  inv_bind E u10 w10 E10. destruct u10.
  assert (F10 : evolves L w9 w10).
  { eapply footprint_run; [|exact E10]. apply footprint_imul. cbn; tauto. }
  clear E10.
  inv_bind E u11 w11 E11. destruct u11.
  assert (F11 : evolves L w10 w11).
  { eapply footprint_run; [|exact E11]. apply footprint_iadd. cbn; tauto. }
  clear E11.
  assert (F : evolves L w5 w11).
  { eapply evolves_trans; [exact F6|]. eapply evolves_trans; [exact F7|].
    eapply evolves_trans; [exact F8|]. eapply evolves_trans; [exact F9|].
    eapply evolves_trans; [exact F10|exact F11]. }
  clear F6 F7 F8 F9 F10 F11.
  assert (Hu11 : live_real w11 (u st)) by (eapply frame_live_real; eassumption).
  assert (Hv11 : live_real w11 (v st)) by (eapply frame_live_real; eassumption).
  (* the estimates *)
  destruct (_sym_ortho (rhodold st) (Sc.mul (sbar st) (ER (hyp (hyp ab dm) bn))))
    as [[ctildeold stildeold] rhotildeold] eqn:S4.
  cbv beta iota zeta in E.
  inv_bind E normx' w12 E12. apply norm_inv in E12. destruct E12 as [_ ->].
  apply ret_inv in E. destruct E as [E <-]. injection E as <- _.
  unfold chain_ok.
  cbn [u v h hbar x alpha alphabar cbar rhobar maxrbar minrbar condA].
  rewrite Erb, EM, Emn.
  assert (Hrt : 0 <= cb * hyp (hyp ab dm) bn)
    by (apply Rmult_le_pos; [assumption|apply hyp_nonneg]).
  assert (Emin : exists mn', 0 <= mn' /\
             torch_where (itn st + 1 >? 1)%Z (EReal.min (ER mn) (ER rb)) (ER mn)
             = ER mn').
  { destruct (itn st + 1 >? 1)%Z; cbn [torch_where].
    - rewrite min_real. eexists. split; [|reflexivity].
      apply Rmin_glb; assumption.
    - eexists. split; [|reflexivity]. assumption. }
  destruct Emin as (mn' & Hmn' & Emin). rewrite Emin.
  rewrite !max_real, min_real.
  split.
  - split; [apply Hu11|]. split; [apply Hv11|].
    split; [exact Hun|]. split; [exact Hvn|].
    split; [apply Hu11|]. split; [apply Hv11|].
    exists an, (c' * an), cb', (hyp (cb * hyp (hyp ab dm) bn) (s' * an)),
           (Rmax M rb), mn'.
    repeat split; try reflexivity; try assumption.
    + apply Hcb'. assumption.
    + apply hyp_nonneg.
    + eapply Rle_trans; [exact HM|]. apply Rmax_l.
  - apply ratio_at_least_one.
    + eapply Rle_trans; [exact HM|]. apply Rmax_l.
    + apply Rmin_glb; assumption.
    + eapply Rle_trans; [apply Rmin_r|]. apply Rmax_r.
Qed.

End Chain.

Lemma scaled_live_real c l (w w' : @world ereal) t :
  scaled c l w = Ok t w' -> is_real c -> real_vec (cell w l) ->
  live_real w' t /\ forall l0, live_real w l0 -> live_real w' l0.
Proof.
  intros E [rc ->] Hl. apply scaled_inv in E. destruct E as (-> & Hh & _).
  split.
  - split; [rewrite Hh, length_app; cbn; lia|].
    unfold cell at 1. rewrite Hh, nth_snoc_new.
    unfold real_vec in *. rewrite Forall_map.
    eapply Forall_impl; [|exact Hl]. intros a [ra ->]. cbn. eexists. reflexivity.
  - intros l0. eapply push_live_real. eassumption.
Qed.

Lemma real_vec_zeros n : real_vec (zeros (T := ereal) n).
Proof.
  unfold zeros, real_vec. apply Forall_forall. intros t Ht.
  apply repeat_spec in Ht. subst. eexists. reflexivity.
Qed.

Lemma real_vec_broadcast_sub u w r :
  broadcast2 Sc.sub u w = Some r -> real_vec u -> real_vec w -> real_vec r.
Proof.
  unfold broadcast2. intros E Hu Hw.
  assert (Hsub : forall a b, is_real a -> is_real b -> is_real (Sc.sub a b))
    by (intros a b [ra ->] [rb ->]; eexists; reflexivity).
  destruct (Nat.eqb (length u) (length w)).
  - injection E as <-. clear -Hu Hw Hsub. revert w Hw.
    induction Hu as [|a u Ha Hu IH]; intros w Hw; [constructor|].
    destruct Hw as [|b w Hb Hw]; [constructor|].
    cbn. constructor; [apply Hsub; assumption|]. apply IH. assumption.
  - destruct w as [|b [|b' w]].
    + destruct u as [|a [|a' u]]; cbn in E; try discriminate.
      injection E as <-. constructor.
    + assert (E' : Some (map (fun a => Sc.sub a b) u) = Some r)
        by (destruct u as [|a [|a' u]]; exact E).
      clear E. injection E' as <-. inversion Hw as [|? ? Hb _]; subst.
      unfold real_vec in *. rewrite Forall_map.
      eapply Forall_impl; [|exact Hu]. intros a Ha. apply Hsub; assumption.
    + destruct u as [|a [|a' u]]; try discriminate.
      assert (E' : Some (map (Sc.sub a) (b :: b' :: w)) = Some r) by exact E.
      clear E. remember (b :: b' :: w) as w0 eqn:Ew0. clear Ew0.
      injection E' as <-.
      inversion Hu as [|? ? Ha _]; subst.
      unfold real_vec in *. rewrite Forall_map.
      eapply Forall_impl; [|exact Hw]. intros c Hc. apply Hsub; assumption.
Qed.

Lemma vnorm_is_real v : real_vec v -> is_real (vnorm v).
Proof. intros H. destruct (vnorm_real H) as (r & -> & _). eexists. reflexivity. Qed.

Section Initial.
Variable A : @LinearOperator ereal.
Variable n : nat.
Hypothesis HA : real_operator A.

Lemma initialize_real b normb x0 w st w' :
  initialize A b n normb x0 w = Ok st w' ->
  live_real w b ->
  match x0 with Some l => live_real w l | None => True end ->
  is_real normb ->
  live_real w' (u st) /\ live_real w' (v st) /\ is_real (alpha st).
Proof.
  unfold initialize. intros E Hb Hx0 Hn.
  apply bind_inv in E. destruct E as ([[x1 u1] beta1] & w1 & E1 & E).
  assert (H1 : live_real w1 u1 /\ is_real beta1).
  { destruct x0 as [l|].
    - apply bind_inv in E1. destruct E1 as (t & wa & Ea & E1).
      destruct (@call_matvec_live_real A l w wa t Ea HA (proj2 Hx0)) as [Ht Hk].
      apply Hk in Hb. clear Hk Ea.
      apply bind_inv in E1. destruct E1 as (u2 & wb & Eb & E1).
      apply minus_inv in Eb. destruct Eb as (r & Er & -> & Hh & _).
      assert (Hu2 : live_real wb (length (heap wa))).
      { split; [rewrite Hh, length_app; cbn; lia|].
        unfold cell at 1. rewrite Hh, nth_snoc_new.
        eapply real_vec_broadcast_sub; [exact Er|apply Hb|exact Ht]. }
      apply bind_inv in E1. destruct E1 as (beta2 & wc & Ec & E1).
      apply norm_inv in Ec. destruct Ec as [-> ->].
      apply ret_inv in E1. destruct E1 as [E1 <-]. injection E1 as _ <- <-.
      split; [exact Hu2|]. apply vnorm_is_real. apply Hu2.
    - apply bind_inv in E1. destruct E1 as (x2 & wa & Ea & E1).
      apply alloc_inv in Ea. destruct Ea as (_ & Hh & _).
      apply ret_inv in E1. destruct E1 as [E1 <-]. injection E1 as _ <- <-.
      split; [|exact Hn]. eapply push_live_real; eassumption. }
  destruct H1 as [Hu1 [rb ->]]. clear E1.
  cbv beta iota zeta in E.
  apply bind_inv in E. destruct E as ([[u3 v3] alpha3] & w2 & E2 & E).
  assert (H2 : live_real w2 u3 /\ live_real w2 v3 /\ is_real alpha3).
  { destruct (Sc.gtb (ER rb) Sc.zero) eqn:Hgt.
    - apply gtb_real in Hgt.
      apply bind_inv in E2. destruct E2 as (u4 & wd & Ed & E2).
      destruct (@scaled_live_real _ u1 w1 wd u4 Ed (is_real_inv Hgt) (proj2 Hu1))
        as [Hu4 Hk]. clear Hk Ed.
      apply bind_inv in E2. destruct E2 as (v4 & we & Ee & E2).
      pose proof Ee as Ee'. apply call_rmatvec_inv in Ee'.
      destruct Ee' as (y & _ & Hv4 & Hh & _).
      destruct (@call_rmatvec_live_real A u4 wd we v4 Ee HA (proj2 Hu4)) as [Hv Hk].
      apply Hk in Hu4. clear Hk Ee.
      assert (Hvl : live_real we v4).
      { split; [rewrite Hv4, Hh, length_app; cbn; lia|exact Hv]. }
      apply bind_inv in E2. destruct E2 as (al & wf & Ef & E2).
      apply norm_inv in Ef. destruct Ef as [-> ->].
      apply ret_inv in E2. destruct E2 as [E2 <-]. injection E2 as <- <- <-.
      split; [exact Hu4|]. split; [exact Hvl|]. apply vnorm_is_real. exact Hv.
    - apply bind_inv in E2. destruct E2 as (v4 & wd & Ed & E2).
      apply alloc_inv in Ed. destruct Ed as (-> & Hh & _).
      apply ret_inv in E2. destruct E2 as [E2 <-]. injection E2 as <- <- <-.
      split; [eapply push_live_real; eassumption|].
      split; [|eexists; reflexivity].
      split; [rewrite Hh, length_app; cbn; lia|].
      unfold cell. rewrite Hh, nth_snoc_new. apply real_vec_zeros. }
  destruct H2 as (Hu3 & Hv3 & [ra ->]). clear E2 Hu1.
  cbv beta iota zeta in E.
  apply bind_inv in E. destruct E as (v5 & w3 & E3 & E).
  assert (H3 : live_real w3 u3 /\ live_real w3 v5).
  { destruct (Sc.gtb (ER ra) Sc.zero) eqn:Hgt.
    - apply gtb_real in Hgt.
      destruct (@scaled_live_real _ v3 w2 w3 v5 E3 (is_real_inv Hgt) (proj2 Hv3))
        as [Hv5 Hk]. split; [apply Hk; assumption|exact Hv5].
    - apply ret_inv in E3. destruct E3 as [<- <-]. split; assumption. }
  destruct H3 as (Hu5 & Hv5). clear E3 Hu3 Hv3.
  apply bind_inv in E. destruct E as (h5 & w4 & E4 & E).
  apply clone_inv in E4. destruct E4 as (_ & H4 & _).
  apply bind_inv in E. destruct E as (hb5 & w5 & E5 & E).
  apply alloc_inv in E5. destruct E5 as (_ & H5 & _).
  apply ret_inv in E. destruct E as [<- <-]. cbn [u v alpha].
  split; [|split; [|eexists; reflexivity]].
  - eapply push_live_real; [exact H5|]. eapply push_live_real; eassumption.
  - eapply push_live_real; [exact H5|]. eapply push_live_real; eassumption.
Qed.

Lemma finfo_max_pos : 0 <= 99 / 100 * EReal.finfo_max.
Proof.
  unfold EReal.finfo_max.
  assert (0 <= IZR (2 ^ 53 - 1)) by (apply IZR_le; lia).
  assert (0 <= IZR (2 ^ 971)) by (apply IZR_le; apply Z.pow_nonneg; lia).
  nra.
Qed.

(** initialisation establishes the invariant *)
Lemma initialize_chain b x0 w st w' :
  initialize A b n (vnorm (cell w b)) x0 w = Ok st w' ->
  live_real w b ->
  match x0 with Some l => live_real w l | None => True end ->
  chain_ok st w' /\ condA st = ER 1.
Proof.
  intros E Hb Hx0.
  assert (Hn : is_real (vnorm (cell w b))).
  { apply vnorm_is_real. apply Hb. }
  pose proof (@initialize_real b (vnorm (cell w b)) x0 w st w' E Hb Hx0 Hn)
    as (Hu & Hv & [ra Ea]).
  assert (Hx0' : match x0 with
                 | Some l => (l < length (heap w))%nat
                 | None => True
                 end) by (destruct x0; [apply Hx0|exact I]).
  pose proof (initialize_places _ _ _ _ _ E (proj1 Hb) Hx0') as Hp.
  destruct Hp as (_ & Hvh & Hhb & _ & Huv & Hxv & Hxu & _).
  assert (Hs : alphabar st = alpha st /\ cbar st = ER 1 /\ rhobar st = ER 1 /\
               maxrbar st = ER 0 /\
               minrbar st = ER (99 / 100 * EReal.finfo_max) /\
               condA st = ER 1).
  { revert E. clear. unfold initialize. intros E.
    apply bind_inv in E. destruct E as ([[x1 u1] beta1] & w1 & _ & E).
    cbv beta iota zeta in E.
    apply bind_inv in E. destruct E as ([[u3 v3] alpha3] & w2 & _ & E).
    cbv beta iota zeta in E.
    apply bind_inv in E. destruct E as (v5 & w3 & _ & E).
    apply bind_inv in E. destruct E as (h5 & w4 & _ & E).
    apply bind_inv in E. destruct E as (hb5 & w5 & _ & E).
    apply ret_inv in E. destruct E as [<- _]. cbn. repeat split. }
  destruct Hs as (Eab & Ecb & Erb & EM & Emn & Ec).
  split; [|exact Ec].
  split; [apply Hu|]. split; [apply Hv|].
  split; [cbn [In]; intros [H|[H|[H|[]]]]; lia|].
  split; [cbn [In]; intros [H|[H|[H|[]]]]; lia|].
  split; [apply Hu|]. split; [apply Hv|].
  exists ra, ra, 1, 1, 0, (99 / 100 * EReal.finfo_max).
  rewrite Eab. repeat split; try assumption; try lra.
  - apply finfo_max_pos.
  - rewrite Rmax_right by lra. lra.
Qed.

End Initial.

Lemma chain_ok_frame st (w w' : @world ereal) :
  evolves [] w w' -> chain_ok st w -> chain_ok st w'.
Proof.
  intros F (Hu & Hv & Nu & Nv & Ru & Rv & Hs).
  assert (Lu : live_real w' (u st))
    by (eapply frame_live_real; [exact F|intros []|split; assumption]).
  assert (Lv : live_real w' (v st))
    by (eapply frame_live_real; [exact F|intros []|split; assumption]).
  destruct Lu as [Lu Ru'], Lv as [Lv Rv'].
  unfold chain_ok. repeat (split; [assumption|]). exact Hs.
Qed.

Lemma chain_ok_heap st (w w' : @world ereal) :
  heap w = heap w' -> chain_ok st w -> chain_ok st w'.
Proof. unfold chain_ok, cell. intros <-. tauto. Qed.

Lemma iterates_first {T} (B : @vars T -> @printer T -> M (vars * tests * printer))
      st pr w st1 ts1 pr1 w1 st' ts' pr' w' :
  B st pr w = Ok (st1, ts1, pr1) w1 -> stop ts1 = false ->
  iterates B st1 pr1 w1 st' ts' pr' w' ->
  iterates B st pr w st' ts' pr' w'.
Proof.
  intros E Hs H. induction H.
  - eapply iterates_more; [apply iterates_once; exact E|exact Hs|assumption].
  - eapply iterates_more; [apply IHiterates; assumption|assumption|assumption].
Qed.

Section Loop.
Variable A : @LinearOperator ereal.
Variables damp atol btol : ereal.
Variable maxiter : Z.
Variables normb ctol : ereal.
Variable n : nat.
Variable show : bool.
Hypothesis HA : real_operator A.
Hypothesis Hdamp : is_real damp.

Lemma body_chain st pr w st' ts pr' w' :
  chain_ok st w ->
  body A damp atol btol maxiter normb ctol n show st pr w
  = Ok (st', ts, pr') w' ->
  chain_ok st' w' /\ at_least_one (condA st') /\
  test3 ts = Sc.div Sc.one (condA st').
Proof.
  intros Hc E. pose proof E as Hr. apply body_returns in Hr.
  destruct Hr as (_ & _ & _ & Hts).
  unfold body in E. apply bind_inv in E. destruct E as ([st1 ts1] & w1 & E1 & E).
  apply bind_inv in E. destruct E as (pr1 & w2 & E2 & E).
  apply ret_inv in E. destruct E as [E Hw]. injection E as Hst Hts' Hpr.
  subst st1 ts1 pr1 w2.
  destruct (@pass_chain A damp atol btol maxiter normb ctol HA Hdamp
                        st w st' ts w1 Hc E1) as [Hc1 H1].
  split; [|split; [exact H1|rewrite Hts; reflexivity]].
  eapply chain_ok_frame; [|exact Hc1].
  destruct show.
  - eapply footprint_run; [|exact E2]. apply footprint_report.
  - apply ret_inv in E2. destruct E2 as [_ <-]. apply evolves_refl.
Qed.

Lemma iterates_chain st pr w st' ts pr' w' :
  chain_ok st w ->
  iterates (body A damp atol btol maxiter normb ctol n show)
           st pr w st' ts pr' w' ->
  chain_ok st' w' /\ at_least_one (condA st') /\
  test3 ts = Sc.div Sc.one (condA st').
Proof.
  intros Hc H. induction H.
  - eapply body_chain; eassumption.
  - eapply body_chain; [|eassumption]. apply IHiterates. assumption.
Qed.

Lemma loop_iterates fuel : forall st pr (w : @world ereal) st' pr' w',
  loop A damp atol btol maxiter normb ctol n show fuel st pr w
  = Ok (st', pr') w' ->
  exists ts,
    iterates (body A damp atol btol maxiter normb ctol n show)
             st pr w st' ts pr' w' /\ stop ts = true.
Proof.
  induction fuel as [|fuel IH]; intros st pr w st' pr' w' E; [discriminate|].
  cbn [loop] in E. apply bind_inv in E.
  destruct E as ([[st1 ts1] pr1] & w1 & E1 & E).
  destruct (stop ts1) eqn:Hs.
  - apply ret_inv in E. destruct E as [E <-]. injection E as <- <-.
    exists ts1. split; [apply iterates_once; exact E1|exact Hs].
  - apply IH in E. destruct E as (ts & Hi & Hst).
    exists ts. split; [|exact Hst].
    eapply iterates_first; eassumption.
Qed.

Lemma loop_chain fuel st pr w st' pr' w' :
  chain_ok st w ->
  loop A damp atol btol maxiter normb ctol n show fuel st pr w
  = Ok (st', pr') w' ->
  chain_ok st' w' /\ at_least_one (condA st').
Proof.
  intros Hc E. apply loop_iterates in E. destruct E as (ts & Hi & _).
  destruct (iterates_chain Hc Hi) as (H1 & H2 & _). split; assumption.
Qed.

End Loop.

Lemma same_store_live_real (w w' : @world ereal) l :
  same_store w w' -> live_real w l -> live_real w' l.
Proof. intros [Hh _]. unfold live_real, cell. rewrite Hh. tauto. Qed.

Lemma at_least_one_one : at_least_one (ER 1).
Proof. unfold at_least_one. cbn. apply leb_real. lra. Qed.

(** C6, as amended.  In exact arithmetic [condA >= 1] wherever it is
    used.  For a real operator, a real [damp] and real tensors [b] and
    [x0], computed on the reals, the [condA] that [lsmr] returns is at
    least 1; and in every pass of the loop of the call, the [condA] of
    the pass is at least 1 and is the value the convergence test of the
    pass divides 1 by ([test3 = 1 / condA]).  The bound allows
    [condA = +inf].  (In binary64 an overflow can make [condA] NaN.) *)
Theorem condA_at_least_one fuel (A : @LinearOperator ereal) b damp atol btol
        conlim maxiter show x0 (w : @world ereal) :
  real_operator A -> is_real damp -> live_real w b ->
  match x0 with Some l => live_real w l | None => True end ->
  (forall r w',
      lsmr fuel A b damp atol btol conlim maxiter show x0 w = Ok r w' ->
      at_least_one (condA_of r)) /\
  (forall w0 st w1 cap ctol pr0 w2 st' ts pr' w3,
      same_store w w0 ->
      initialize A b (snd (shape A)) (vnorm (cell w b)) x0 w0 = Ok st w1 ->
      same_store w1 w2 ->
      iterates (body A damp atol btol cap (vnorm (cell w b)) ctol
                     (snd (shape A)) show) st pr0 w2 st' ts pr' w3 ->
      at_least_one (condA st') /\ test3 ts = Sc.div Sc.one (condA st')).
Proof.
  intros HA Hd Hb Hx.
  assert (Init : forall w0 st w1, same_store w w0 ->
            initialize A b (snd (shape A)) (vnorm (cell w b)) x0 w0 = Ok st w1 ->
            chain_ok st w1 /\ condA st = ER 1).
  { intros w0 st w1 S E.
    assert (Ec : cell w b = cell w0 b) by (destruct S as [Hh _]; unfold cell; rewrite Hh; reflexivity).
    rewrite Ec in E.
    eapply initialize_chain; [exact HA|exact E| |].
    - eapply same_store_live_real; eassumption.
    - destruct x0; [eapply same_store_live_real; eassumption|exact I]. }
  split.
  - intros r w' E. apply lsmr_inv in E.
    destruct E as (wb & st & w1 & S & Ei & [(_ & -> & _)|(_ & pr0 & w2 & st' & pr' & w3 & S1 & El & -> & _)]).
    + destruct (Init _ _ _ S Ei) as [_ Hc]. cbn. rewrite Hc. apply at_least_one_one.
    + destruct (Init _ _ _ S Ei) as [Hc _].
      assert (Hc2 : chain_ok st w2) by (eapply chain_ok_heap; [apply S1|exact Hc]).
      eapply loop_chain; [exact HA|exact Hd|exact Hc2|exact El].
  - intros w0 st w1 cap ctol pr0 w2 st' ts pr' w3 S Ei S1 Hi.
    destruct (Init _ _ _ S Ei) as [Hc _].
    assert (Hc2 : chain_ok st w2) by (eapply chain_ok_heap; [apply S1|exact Hc]).
    eapply iterates_chain; [exact HA|exact Hd|exact Hc2|exact Hi].
Qed.

(** outside the branch [|b| > |a|] the two rotations are the same
    expressions, whatever the arithmetic *)
Lemma sym_ortho_scalar_same {T} {ops : Sc.Ops T} (a b : T) :
  Sc.eqb b Sc.zero = true \/ Sc.eqb a Sc.zero = true \/
  Sc.gtb (Sc.abs b) (Sc.abs a) = false ->
  _sym_ortho a b = sym_ortho_scalar a b.
Proof.
  intros H. unfold sym_ortho_scalar.
  destruct (Sc.eqb b Sc.zero) eqn:E; [apply sym_ortho_case1; assumption|].
  destruct (Sc.eqb a Sc.zero) eqn:E0; [apply sym_ortho_case2; assumption|].
  destruct H as [H|[H|H]]; try discriminate.
  rewrite H. rewrite (sym_ortho_case4 _ _ E E0 H). reflexivity.
Qed.

(** X1.  On the reals, the masked [_sym_ortho] returns what the scalar
    rotation kept as a comment in the source returns, in every branch;
    and outside the branch [|b| > |a|] the two are the same expressions
    in any arithmetic (in that branch they differ by how [tau] is
    formed, so only up to rounding in floating point). *)
Theorem sym_ortho_agrees_with_scalar :
  (forall a b : R, _sym_ortho (ER a) (ER b) = sym_ortho_scalar (ER a) (ER b)) /\
  (forall (T : Type) (ops : Sc.Ops T) (a b : T),
      Sc.eqb b Sc.zero = true \/ Sc.eqb a Sc.zero = true \/
      Sc.gtb (Sc.abs b) (Sc.abs a) = false ->
      _sym_ortho a b = sym_ortho_scalar a b).
Proof.
  split; [|intros T ops a b; apply sym_ortho_scalar_same].
  intros a b.
  destruct (Sc.eqb (ER b) Sc.zero) eqn:E;
    [apply sym_ortho_scalar_same; left; assumption|].
  destruct (Sc.eqb (ER a) Sc.zero) eqn:E0;
    [apply sym_ortho_scalar_same; right; left; assumption|].
  destruct (Sc.gtb (Sc.abs (ER b)) (Sc.abs (ER a))) eqn:G;
    [|apply sym_ortho_scalar_same; right; right; assumption].
  assert (Hb : b <> 0) by (apply eqb_real_false; exact E).
  assert (Ha : a <> 0) by (apply eqb_real_false; exact E0).
  rewrite (sym_ortho_case3 _ _ E E0 G).
  unfold sym_ortho_scalar. rewrite E, E0, G.
  cbn [Sc.sign Sc.div Sc.mul Sc.add Sc.one Sc.sqrt EReal.ops].
  unfold square. cbn [Sc.mul EReal.ops].
  rewrite (div_real b Ha), (div_real a Hb). cbn [EReal.mul].
  assert (Ht : b / a * (b / a) <> 0).
  { assert (b / a <> 0); [|nra].
    apply Rmult_integral_contrapositive; split; [lra|].
    apply Rinv_neq_0_compat; lra. }
  rewrite (div_real 1 Ht). cbn [EReal.add].
  assert (Hinv : 1 / (b / a * (b / a)) = a / b * (a / b))
    by (field; split; assumption).
  rewrite Hinv.
  rewrite (sqrt_real (x := 1 + a / b * (a / b))) by nra.
  destruct (sign_real b) as (sb & Esb & Hsb & _). rewrite Esb.
  set (q := R_sqrt.sqrt (1 + a / b * (a / b))).
  assert (Hq : 0 < q) by (apply sqrt_lt_R0; nra).
  assert (Hq0 : q <> 0) by lra.
  rewrite (div_real sb Hq0).
  assert (Hsb0 : sb <> 0).
  { intros ->. rewrite Rmult_0_l in Hsb. congruence. }
  assert (Hs : sb / q <> 0).
  { apply Rmult_integral_contrapositive; split; [assumption|].
    apply Rinv_neq_0_compat; assumption. }
  assert (Hba : b / a <> 0).
  { apply Rmult_integral_contrapositive; split; [lra|].
    apply Rinv_neq_0_compat; lra. }
  rewrite (div_real (sb / q) Hba), (div_real b Hs). cbn [EReal.mul].
  do 3 f_equal. field. repeat split; assumption.
Qed.

(** X2.  For all real [a], [b], zeros included, [_sym_ortho] returns
    three real numbers: [r = sqrt(a^2 + b^2)], [c * r = a], [s * r = b],
    and [c], [s] lie in [-1, 1].  The quotient [b / a] of the default
    branch, infinite or NaN at [a = 0], never reaches the result. *)
Theorem sym_ortho_finite (a b : R) :
  exists c s,
    _sym_ortho (ER a) (ER b)
    = (ER c, ER s, ER (R_sqrt.sqrt (a * a + b * b))) /\
    c * R_sqrt.sqrt (a * a + b * b) = a /\
    s * R_sqrt.sqrt (a * a + b * b) = b /\
    -1 <= c <= 1 /\ -1 <= s <= 1.
Proof.
  destruct (sym_ortho_real a b) as (c & s & E & Hc & Hs & _ & Hcs).
  exists c, s. fold (hyp a b). split; [exact E|].
  split; [exact Hc|]. split; [exact Hs|].
  destruct (Req_dec_T a 0) as [Ha|Ha]; [destruct (Req_dec_T b 0) as [Hb|Hb]|].
  - subst a b. rewrite sym_ortho_b0, sign_zero in E.
    injection E as <- <-. lra.
  - assert (H1 : c * c + s * s = 1) by (apply Hcs; right; assumption). nra.
  - assert (H1 : c * c + s * s = 1) by (apply Hcs; left; assumption). nra.
Qed.

End ExactArithmetic.

(** * Runs in binary64 and on the reals *)

#[global] Instance ereal_zero_laws : ZeroLaws (T := ereal).
Proof.
  split; cbn.
  - f_equal. ring.
  - f_equal. ring.
  - destruct (Rlt_dec 0 0); [lra|]. rewrite sqrt_0. reflexivity.
  - f_equal. apply Rabs_R0.
  - apply ERealFacts.gtb_real_false. lra.
  - apply ERealFacts.eqb_real. ring.
Qed.

#[global] Instance float64_zero_laws : ZeroLaws (T := PrimFloat.float).
Proof. split; vm_compute; reflexivity. Qed.

Lemma real_eye1_real : real_operator real_eye1.
Proof. split; intros xv y H E; injection E as <-; exact H. Qed.

(** the immediate return, for [A = [[1]]] and [b = [0]] *)
Lemma lsmr_immediate_return_witness :
  exists st w1,
    initialize eye1 0 1 (vnorm [f64 0]) None (fresh [[f64 0]]) = Ok st w1 /\
    exists w2,
      lsmr 0 eye1 0 (f64 0) tol tol conlim8 None false None (fresh [[f64 0]])
      = Ok (result_of st) w2 /\
      same_store w1 w2 /\
      itn_of (result_of st) = 0%Z /\
      Sc.eqb (normar_of (result_of st)) Sc.zero = true /\
      cell w2 (x_of (result_of st)) = zeros 1.
Proof.
  eexists. eexists. split.
  - vm_compute. reflexivity.
  - apply (@lsmr_immediate_return _ _ 0 eye1 0%nat (f64 0) tol tol conlim8
             None false None (fresh [[f64 0]])).
    + vm_compute. lia.
    + exact I.
    + vm_compute. reflexivity.
    + vm_compute. reflexivity.
Defined.

(** a zero right-hand side, for [A = [[2]]] *)
Lemma lsmr_zero_rhs_witness :
  (exists r w2,
      lsmr 0 two1 0 (f64 0) tol tol conlim8 None false None
           (fresh [[f64 0]; [f64 0]]) = Ok r w2 /\
      itn_of r = 0%Z /\
      x_of r = 2%nat /\
      cell w2 (x_of r) = zeros 1) /\
  (forall l,
      0 < length (heap (fresh [[f64 0]; [f64 0]])) ->
      l < length (heap (fresh [[f64 0]; [f64 0]])) ->
      matvec two1 (cell (fresh [[f64 0]; [f64 0]]) l) = Some (zeros 1) ->
      exists r w2,
        lsmr 0 two1 0 (f64 0) tol tol conlim8 None false (Some l)
             (fresh [[f64 0]; [f64 0]]) = Ok r w2 /\
        itn_of r = 0%Z /\
        x_of r = l /\
        cell w2 l = cell (fresh [[f64 0]; [f64 0]]) l).
Proof.
  apply (@lsmr_zero_rhs _ _ 0 two1 0%nat (f64 0) tol tol conlim8 _
           None false (fresh [[f64 0]; [f64 0]]) 1%nat).
  reflexivity.
Defined.

(** C4 as stated fails for a nonzero [x0]: with [A = [[1]]], [b = [0]]
    and [x0 = [1]], the loop runs; the call returns iteration count 1
    and [x0] has been overwritten. *)
Lemma lsmr_zero_rhs_nonzero_x0 :
  exists r w',
    lsmr 5 eye1 0 (f64 0) tol tol conlim8 None false (Some 1%nat)
         (fresh [[f64 0]; [f64 1]]) = Ok r w' /\
    x_of r = 1%nat /\
    itn_of r = 1%Z /\
    cell w' 1 = [f64 0].
Proof.
  eexists. eexists. split; [vm_compute; reflexivity|].
  vm_compute. repeat split.
Qed.

(** the iteration limit, for [A = [[1]]], [b = [1]] and [maxiter = 1] *)
Lemma lsmr_iteration_cap_witness :
  lsmr 1 eye1 0 (f64 0) tol tol conlim8 (Some 1%Z) false None (fresh [[f64 1]])
  <> OutOfFuel /\
  (conforming eye1 ->
   shapes [(0%nat, fst (shape eye1))] (fresh [[f64 1]]) ->
   (false = true -> 0 < snd (shape eye1)) ->
   exists r w',
     lsmr 1 eye1 0 (f64 0) tol tol conlim8 (Some 1%Z) false None
          (fresh [[f64 1]]) = Ok r w') /\
  (forall r w',
      lsmr 1 eye1 0 (f64 0) tol tol conlim8 (Some 1%Z) false None
           (fresh [[f64 1]]) = Ok r w' ->
      (0 <= itn_of r <= Z.max (maxiter_of eye1 (Some 1%Z)) 1)%Z /\
      (Some 1%Z = Some 1%Z -> (itn_of r <= 1)%Z)) /\
  lsmr 1 eye1 0 (f64 0) tol tol conlim8 None false None (fresh [[f64 1]])
  = lsmr 1 eye1 0 (f64 0) tol tol conlim8
         (Some (Z.of_nat (Nat.min (fst (shape eye1)) (snd (shape eye1)))))
         false None (fresh [[f64 1]]).
Proof.
  apply (@lsmr_iteration_cap _ _ eye1 1 0%nat (f64 0) tol tol conlim8
           (Some 1%Z) false None (fresh [[f64 1]])).
  vm_compute. lia.
Defined.

(** C5 as stated fails for [maxiter = 0]: the loop body runs before the
    limit is tested, and the call returns iteration count 1. *)
Lemma lsmr_maxiter_zero :
  exists r w',
    lsmr 5 eye1 0 (f64 0) tol tol conlim8 (Some 0%Z) false None
         (fresh [[f64 1]]) = Ok r w' /\
    itn_of r = 1%Z /\ (itn_of r > 0)%Z.
Proof.
  eexists. eexists. split; [vm_compute; reflexivity|].
  vm_compute. split; reflexivity.
Qed.

(** the first operator application, for [A = [[1]]] and [b] of length 2 *)
Lemma lsmr_applies_operator_unchecked_witness :
  (forall l w',
      final_world (lsmr 5 eye1 0 (f64 0) tol tol conlim8 None false (Some l)
                        (fresh [[f64 0; f64 2]]))
      = Some w' ->
      exists rest,
        calls w' = calls (fresh [[f64 0; f64 2]])
                   ++ Matvec (cell (fresh [[f64 0; f64 2]]) l) :: rest) /\
  (Sc.gtb (vnorm (cell (fresh [[f64 0; f64 2]]) 0)) Sc.zero = true ->
   forall w',
   final_world (lsmr 5 eye1 0 (f64 0) tol tol conlim8 None false None
                     (fresh [[f64 0; f64 2]]))
   = Some w' ->
   exists rest,
     calls w' = calls (fresh [[f64 0; f64 2]]) ++
                Rmatvec (map (fun a => Sc.mul (Sc.div Sc.one
                                       (vnorm (cell (fresh [[f64 0; f64 2]]) 0))) a)
                             (cell (fresh [[f64 0; f64 2]]) 0))
                :: rest).
Proof.
  apply (@lsmr_applies_operator_unchecked _ _ 5 eye1 0%nat (f64 0) tol tol
           conlim8 None false (fresh [[f64 0; f64 2]])).
  vm_compute. lia.
Defined.

(** C8 as stated fails: there is no check at entry.  With the 1x1
    matrix [[1]] and [b] of length 2, [A.rmatvec] is applied to
    [b / ||b||], of length 2, and the only error is the one the operator
    raises; with [x0] of length 2, [A.matvec] is applied to it; and with
    an operator that accepts any length, the call with [b] of length 2
    iterates and returns. *)
Lemma lsmr_no_entry_check :
  (exists w',
      lsmr 5 eye1 0 (f64 0) tol tol conlim8 None false None
           (fresh [[f64 0; f64 2]]) = Raise OperatorError w' /\
      calls w' = [Rmatvec [f64 0; f64 1]]) /\
  (exists w',
      lsmr 5 eye1 0 (f64 0) tol tol conlim8 None false (Some 1%nat)
           (fresh [[f64 1]; [f64 1; f64 2]]) = Raise OperatorError w' /\
      calls w' = [Matvec [f64 1; f64 2]]) /\
  (exists r w',
      lsmr 5 summing 0 (f64 0) tol tol conlim8 None false None
           (fresh [[f64 0; f64 2]]) = Ok r w' /\
      itn_of r = 1%Z /\
      hd_error (calls w') = Some (Rmatvec [f64 0; f64 1])).
Proof.
  split; [|split].
  - eexists. split; vm_compute; reflexivity.
  - eexists. split; vm_compute; reflexivity.
  - eexists. eexists. split; [vm_compute; reflexivity|].
    vm_compute. split; reflexivity.
Qed.



(** [x0] and [b] in storages of their own, for [A = [[2]]], [b = [1]]
    and [x0 = [0]]: the call leaves [0.5] in [x0] *)
Lemma lsmr_updates_x0_in_place_witness :
  exists r w',
    lsmr 5 two1 0 (f64 0) tol tol conlim8 None false (Some 1%nat)
         (fresh [[f64 1]; [f64 0]]) = Ok r w' /\
    ((forall l, Some 1%nat = Some l -> x_of r = l) /\
     (forall l, Some 1%nat = Some l ->
        (itn_of r = 0%Z /\ cell w' l = cell (fresh [[f64 1]; [f64 0]]) l) \/
        exists w0 st w1 pr w2 st' ts pr' w3,
          same_store (fresh [[f64 1]; [f64 0]]) w0 /\
          initialize two1 0 (snd (shape two1))
                     (vnorm (cell (fresh [[f64 1]; [f64 0]]) 0))
                     (Some 1%nat) w0 = Ok st w1 /\
          same_store w1 w2 /\ x st = l /\
          cell w2 l = cell (fresh [[f64 1]; [f64 0]]) l /\
          updating (body two1 (f64 0) tol tol (maxiter_of two1 None)
                         (vnorm (cell (fresh [[f64 1]; [f64 0]]) 0))
                         (if Sc.gtb conlim8 Sc.zero
                          then Sc.div Sc.one conlim8 else Sc.zero)
                         (snd (shape two1)) false) st pr w2 st' ts pr' w3 /\
          stop ts = true /\ r = result_of st' /\ cell w' l = cell w3 l) /\
     (forall l', l' < length (heap (fresh [[f64 1]; [f64 0]])) ->
                 Some 1%nat <> Some l' ->
                 cell w' l' = cell (fresh [[f64 1]; [f64 0]]) l') /\
     (Some 1%nat <> Some 0%nat ->
      cell w' 0 = cell (fresh [[f64 1]; [f64 0]]) 0)) /\
    itn_of r = 1%Z /\
    cell (fresh [[f64 1]; [f64 0]]) 1 = [f64 0] /\
    cell w' 1 = [PrimFloat.div (f64 1) (f64 2)].
Proof.
  eexists. eexists. split; [vm_compute; reflexivity|]. split.
  - apply (@lsmr_updates_x0_in_place _ _ 5 two1 0%nat (f64 0) tol tol conlim8
             None false (Some 1%nat) (fresh [[f64 1]; [f64 0]])).
    + vm_compute. lia.
    + vm_compute. lia.
    + vm_compute. reflexivity.
  - vm_compute. repeat split.
Defined.

(** C10 as stated fails.  When [x0] shares the storage of [b] ([x0] is
    [b] itself, or [b.detach()]; [A = [[2]]], [b = x0 = [1]]), [b] is
    overwritten: it holds [0.5] after the call.
    And a call that iterates can leave [x0] with its original value:
    with [A = [[1]]], [b = [2]], [x0 = [1]] and [damp = 2^30], one pass
    adds [2^-60] to [x0], which is [1] again in binary64. *)
Lemma lsmr_x0_is_b :
  (exists r w',
      lsmr 5 two1 0 (f64 0) tol tol conlim8 None false (Some 0%nat)
           (fresh [[f64 1]]) = Ok r w' /\
      x_of r = 0%nat /\
      cell (fresh [[f64 1]]) 0 = [f64 1] /\
      cell w' 0 = [PrimFloat.div (f64 1) (f64 2)]) /\
  (exists r w',
      lsmr 5 eye1 0 (f64 1073741824) tol tol conlim8 None false (Some 1%nat)
           (fresh [[f64 2]; [f64 1]]) = Ok r w' /\
      itn_of r = 1%Z /\
      cell w' 1 = [f64 1]).
Proof.
  split.
  - eexists. eexists. split; [vm_compute; reflexivity|].
    vm_compute. repeat split.
  - eexists. eexists. split; [vm_compute; reflexivity|].
    vm_compute. repeat split.
Qed.

(** the bound on [condA], for the identity on the reals and [b = [1]] *)
Lemma condA_at_least_one_witness :
  (forall r w',
      lsmr 1 real_eye1 0 (ER 0) (ER 0) (ER 0) (ER 0) None false None
           (fresh [[ER 1]]) = Ok r w' ->
      at_least_one (condA_of r)) /\
  (forall w0 st w1 cap ctol pr0 w2 st' ts pr' w3,
      same_store (fresh [[ER 1]]) w0 ->
      initialize real_eye1 0 (snd (shape real_eye1))
                 (vnorm (cell (fresh [[ER 1]]) 0)) None w0 = Ok st w1 ->
      same_store w1 w2 ->
      iterates (body real_eye1 (ER 0) (ER 0) (ER 0) cap
                     (vnorm (cell (fresh [[ER 1]]) 0)) ctol
                     (snd (shape real_eye1)) false) st pr0 w2 st' ts pr' w3 ->
      at_least_one (condA st') /\ test3 ts = Sc.div Sc.one (condA st')).
Proof.
  apply (@condA_at_least_one 1 real_eye1 0%nat (ER 0) (ER 0) (ER 0) (ER 0)
           None false None (fresh [[ER 1]])).
  - exact real_eye1_real.
  - exists 0%R. reflexivity.
  - split; [cbn; lia|]. repeat constructor. exists 1%R. reflexivity.
  - exact I.
Defined.

(** C6 as stated fails in floating point.  With [A = 2^600 * I] (2x2)
    and [b = [1, 1]], [alpha = ||A^T u||] overflows to [+inf]; the first
    pass multiplies it by 0, and its [condA] is NaN, as is the [condA]
    returned after the second pass: [1 <= condA] is false. *)
Lemma condA_nan_on_overflow :
  (exists r w',
      lsmr 5 big2 0 (f64 0) tol tol conlim8 None false None
           (fresh [[f64 1; f64 1]]) = Ok r w' /\
      itn_of r = 2%Z /\
      PrimFloat.eqb (condA_of r) (condA_of r) = false /\
      Sc.leb Sc.one (condA_of r) = false) /\
  (exists st w1 st' ts w2,
      initialize big2 0 2 (vnorm [f64 1; f64 1]) None
                 (fresh [[f64 1; f64 1]]) = Ok st w1 /\
      alpha st = PrimFloat.infinity /\
      pass big2 (f64 0) tol tol 2 (vnorm [f64 1; f64 1])
           (PrimFloat.div (f64 1) conlim8) st w1 = Ok (st', ts) w2 /\
      Sc.leb Sc.one (condA st') = false /\
      PrimFloat.eqb (test3 ts) (test3 ts) = false).
Proof.
  split.
  - eexists. eexists. split; [vm_compute; reflexivity|].
    vm_compute. repeat split.
  - destruct (initialize big2 0 2 (vnorm [f64 1; f64 1]) None
                         (fresh [[f64 1; f64 1]])) as [st w1| |] eqn:Ei;
      [|vm_compute in Ei; discriminate Ei..].
    destruct (pass big2 (f64 0) tol tol 2 (vnorm [f64 1; f64 1])
                   (PrimFloat.div (f64 1) conlim8) st w1)
      as [[st' ts] w2| |] eqn:Ep;
      [|vm_compute in Ei; injection Ei as <- <-;
        vm_compute in Ep; discriminate Ep..].
    exists st, w1, st', ts, w2.
    split; [reflexivity|].
    split; [vm_compute in Ei; injection Ei as <- <-; reflexivity|].
    split; [exact Ep|].
    vm_compute in Ei. injection Ei as <- <-.
    vm_compute in Ep. injection Ep as <- <- _.
    split; reflexivity.
Qed.

(** a real [atol] is not +inf *)
Lemma inf_above_real (a : R) : Sc.leb (Sc.inf (T := ereal)) (ER a) = false.
Proof. reflexivity. Qed.

(** the first pass for [A = [[2]]] and [b = [1]], which ends with
    [normr = 0] *)
Lemma test2_infinite_on_zero_denominator_witness :
  match initialize two1 0 1 (vnorm [f64 1]) None (fresh [[f64 1]]) with
  | Ok st w1 =>
    match pass two1 (f64 0) tol tol 1 (vnorm [f64 1])
               (PrimFloat.div (f64 1) conlim8) st w1 with
    | Ok (st', ts) w' =>
      Sc.eqb (Sc.mul (normA st') (normr st')) Sc.zero = true /\
      Sc.leb Sc.inf tol = false /\
      ts = convergence_test tol tol 1 (vnorm [f64 1])
             (PrimFloat.div (f64 1) conlim8)
             (itn st') (normr st') (normar st') (normA st') (normx st')
             (condA st') /\
      (Sc.eqb (Sc.mul (normA st') (normr st')) Sc.zero = true ->
       test2 ts = Sc.inf /\
       (Sc.leb Sc.inf tol = false -> Sc.leb (test2 ts) tol = false)) /\
      (Sc.eqb (Sc.mul (normA st') (normr st')) Sc.zero = false ->
       test2 ts = Sc.div (normar st') (Sc.mul (normA st') (normr st')))
    | _ => False
    end
  | _ => False
  end.
Proof.
  destruct (initialize two1 0 1 (vnorm [f64 1]) None (fresh [[f64 1]]))
    as [st w1| |] eqn:Ei; [|vm_compute in Ei; discriminate Ei..].
  vm_compute in Ei. injection Ei as <- <-.
  destruct (pass _ _ _ _ _ _ _ _ _) as [[st' ts] w'| |] eqn:Ep;
    [|vm_compute in Ep; discriminate Ep..].
  pose proof (@test2_infinite_on_zero_denominator _ _ _ _ _ _ _ _ _ _ _ _ _ _ Ep)
    as H.
  vm_compute in Ep. injection Ep as <- <- <-.
  split; [vm_compute; reflexivity|]. split; [vm_compute; reflexivity|].
  exact H.
Defined.

Section NullResidual.
Context {T : Type} {ops : Sc.Ops T}.
Implicit Types w : @world T.
Implicit Types st : @vars T.
Local Open Scope sc_scope.
Import Sc.
Variable A : @LinearOperator T.
Variable b : loc.

(** initialisation from an [x0] whose residual [b - A x0] is the zero
    vector *)
Lemma initialize_null_residual {Z0 : ZeroLaws} n normb l w y k :
  b < length (heap w) -> l < length (heap w) ->
  matvec A (cell w l) = Some y ->
  broadcast2 sub (cell w b) y = Some (zeros k) ->
  exists st w1,
    initialize A b n normb (Some l) w = Ok st w1 /\
    itn st = 0%Z /\ x st = l /\ normar st = zero * zero.
Proof.
  intros Hb Hl Ey Hr. unfold initialize.
  unfold bind at 1. unfold bind at 1. unfold call_matvec at 1.
  unfold bind at 1. unfold load at 1. unfold bind at 1. unfold log_call at 1.
  fold (cell w l). rewrite Ey. unfold alloc at 1. cbn [heap calls out].
  unfold bind at 1. unfold minus at 1. unfold bind at 1. unfold load at 1.
  unfold bind at 1. unfold load at 1. cbn [heap calls out].
  rewrite nth_snoc_old by assumption.
  rewrite (@nth_snoc_new (list T) (heap w) y []).
  fold (cell w b). rewrite Hr.
  unfold alloc at 1. cbn [heap calls out].
  unfold bind at 1. unfold norm at 1. unfold bind at 1. unfold load at 1.
  cbn [heap].
  rewrite (@nth_snoc_new (list T) (heap w ++ [y]) (zeros k) []).
  rewrite vnorm_zeros. unfold ret at 1. unfold ret at 1.
  unfold bind at 1. rewrite gtb_zero.
  unfold bind at 1. unfold alloc at 1. unfold ret at 1.
  unfold bind at 1. rewrite gtb_zero. unfold ret at 1.
  unfold bind at 1. unfold clone at 1, bind at 1, load at 1, alloc at 1.
  unfold bind at 1. unfold alloc at 1. unfold ret at 1.
  eexists _, _. split; [reflexivity|]. cbn [itn x normar heap].
  repeat split; reflexivity.
Qed.

End NullResidual.

Lemma real_residual_zero (bv : list ereal) :
  real_vec bv -> broadcast2 Sc.sub bv bv = Some (zeros (length bv)).
Proof.
  intros H. unfold broadcast2. rewrite Nat.eqb_refl. f_equal.
  induction H as [|t bv [r ->] H IH]; [reflexivity|].
  cbn [map2 length zeros repeat]. f_equal; [|exact IH].
  cbn. f_equal. ring.
Qed.

(** X8.  In exact arithmetic, when the initial guess already solves the
    system ([A.matvec(x0)] is [b], a vector of reals), the call returns
    at once with iteration count 0, and [x] is [x0], left as it was. *)
Theorem lsmr_exact_guess fuel (A : @LinearOperator ereal) b damp atol btol
        conlim maxiter show l (w : @world ereal) :
  b < length (heap w) -> l < length (heap w) ->
  real_vec (cell w b) ->
  matvec A (cell w l) = Some (cell w b) ->
  exists r w2,
    lsmr fuel A b damp atol btol conlim maxiter show (Some l) w = Ok r w2 /\
    itn_of r = 0%Z /\
    x_of r = l /\
    cell w2 l = cell w l.
Proof.
  intros Hb Hl Hreal Ey.
  destruct (@initialize_null_residual _ _ A b _ (snd (shape A))
              (vnorm (cell w b)) l w (cell w b) (length (cell w b))
              Hb Hl Ey (real_residual_zero Hreal))
    as (st & w1 & Ei & Hitn & Hx & Hnormar).
  assert (Hz : Sc.eqb (normar st) Sc.zero = true)
    by (rewrite Hnormar; apply eqb_zero_sq).
  destruct (lsmr_immediate fuel A b damp atol btol conlim maxiter show
                           (Some l) w Ei Hz) as (w2 & El & Hs).
  exists (result_of st), w2. split; [exact El|].
  unfold result_of. cbn [itn_of x_of].
  split; [exact Hitn|]. split; [exact Hx|].
  rewrite <- (same_store_cell l Hs).
  pose proof (footprint_initialize A (vnorm (cell w b)) (snd (shape A)) b
                                   (Some l) w) as F.
  rewrite Ei in F. specialize (F _ eq_refl).
  apply (evolves_cell F); [assumption|]. intros [].
Qed.

(** the early return, for [A = [[1]]] and [b = [0]] *)
Lemma lsmr_zero_iterations_witness :
  match lsmr 5 eye1 0 (f64 0) tol tol conlim8 None false None
             (fresh [[f64 0]]) with
  | Ok r w' =>
    (0 <= itn_of r)%Z /\
    (itn_of r = 0%Z ->
     Sc.eqb (normar_of r) Sc.zero = true /\ condA_of r = Sc.one /\
     normx_of r = Sc.zero /\
     x_of r = length (heap (fresh [[f64 0]])) /\
     cell w' (x_of r) = zeros (snd (shape eye1)))
  | _ => False
  end.
Proof.
  destruct (lsmr 5 eye1 0 (f64 0) tol tol conlim8 None false None
                 (fresh [[f64 0]])) as [r w'| |] eqn:E;
    [|vm_compute in E; discriminate E..].
  apply (@lsmr_zero_iterations _ _ 5 eye1 0%nat (f64 0) tol tol conlim8 None
           false None (fresh [[f64 0]]) r w').
  - vm_compute. lia.
  - exact I.
  - exact E.
Defined.

(** the operator calls of a call that iterates, for [A = [[2]]],
    [b = [1]] and [x0 = [0]] *)
Lemma lsmr_operator_calls_witness :
  match lsmr 5 two1 0 (f64 0) tol tol conlim8 None false (Some 1%nat)
             (fresh [[f64 1]; [f64 0]]) with
  | Ok r w' =>
    exists cs,
      calls w' = calls (fresh [[f64 1]; [f64 0]]) ++ cs /\
      matvecs cs = Z.to_nat (itn_of r) + 1 /\
      rmatvecs cs <= Z.to_nat (itn_of r) + 1 /\
      length cs = matvecs cs + rmatvecs cs
  | _ => False
  end.
Proof.
  destruct (lsmr 5 two1 0 (f64 0) tol tol conlim8 None false (Some 1%nat)
                 (fresh [[f64 1]; [f64 0]])) as [r w'| |] eqn:E;
    [|vm_compute in E; discriminate E..].
  apply (@lsmr_operator_calls _ _ 5 two1 0%nat (f64 0) tol tol conlim8 None
           false (Some 1%nat) (fresh [[f64 1]; [f64 0]]) r w').
  exact E.
Defined.

(** the shapes after a call that raises, for [A = [[1]]] and [b] of
    length 2 *)
Lemma lsmr_keeps_shapes_witness :
  match final_world (lsmr 5 eye1 0 (f64 0) tol tol conlim8 None false None
                          (fresh [[f64 0; f64 2]])) with
  | Some w' =>
    (forall l, l < length (heap (fresh [[f64 0; f64 2]])) ->
               l < length (heap w') /\
               length (cell w' l)
               = length (cell (fresh [[f64 0; f64 2]]) l)) /\
    prefix (calls (fresh [[f64 0; f64 2]])) (calls w') /\
    prefix (out (fresh [[f64 0; f64 2]])) (out w')
  | None => False
  end.
Proof.
  destruct (final_world (lsmr 5 eye1 0 (f64 0) tol tol conlim8 None false None
                              (fresh [[f64 0; f64 2]]))) as [w'|] eqn:E;
    [|vm_compute in E; discriminate E].
  apply (@lsmr_keeps_shapes _ _ 5 eye1 0%nat (f64 0) tol tol conlim8 None
           false None (fresh [[f64 0; f64 2]]) w').
  exact E.
Defined.

(** the test that stops the loop, for [A = [[2]]], [b = [1]] and
    [maxiter = 5] *)
Lemma lsmr_stops_on_a_test_witness :
  match lsmr 5 two1 0 (f64 0) tol tol conlim8 (Some 5%Z) false None
             (fresh [[f64 1]]) with
  | Ok r w' =>
    (1 <= itn_of r < 5)%Z /\
    let ctol := if Sc.gtb conlim8 Sc.zero then Sc.div Sc.one conlim8
                else Sc.zero in
    let ts := convergence_test tol tol (maxiter_of two1 (Some 5%Z))
                               (vnorm (cell (fresh [[f64 1]]) 0)) ctol
                               (itn_of r) (normr_of r) (normar_of r)
                               (normA_of r) (normx_of r) (condA_of r) in
    stop ts = true /\
    ((itn_of r < maxiter_of two1 (Some 5%Z))%Z ->
     Sc.leb (Sc.add Sc.one (test3 ts)) Sc.one
     || Sc.leb (Sc.add Sc.one (test2 ts)) Sc.one
     || Sc.leb (Sc.add Sc.one (t1 ts)) Sc.one
     || Sc.leb (test3 ts) ctol || Sc.leb (test2 ts) tol
     || Sc.leb (test1 ts) (rtol ts) = true)
  | _ => False
  end.
Proof.
  destruct (lsmr 5 two1 0 (f64 0) tol tol conlim8 (Some 5%Z) false None
                 (fresh [[f64 1]])) as [r w'| |] eqn:E;
    [|vm_compute in E; discriminate E..].
  assert (Hi : (1 <= itn_of r < 5)%Z).
  { vm_compute in E. injection E as <- _. vm_compute.
    split; [discriminate|reflexivity]. }
  split; [exact Hi|].
  apply (@lsmr_stops_on_a_test _ _ 5 two1 0%nat (f64 0) tol tol conlim8
           (Some 5%Z) false None (fresh [[f64 1]]) r w').
  - exact E.
  - apply Hi.
Defined.

(** the new [x], for [A = [[2]]] and [b = [1]] *)
Lemma lsmr_returns_new_x_witness :
  match lsmr 5 two1 0 (f64 0) tol tol conlim8 None false None
             (fresh [[f64 1]]) with
  | Ok r w' =>
    x_of r = length (heap (fresh [[f64 1]])) /\
    x_of r < length (heap w') /\
    x_of r <> 0%nat /\
    length (cell w' (x_of r)) = snd (shape two1)
  | _ => False
  end.
Proof.
  destruct (lsmr 5 two1 0 (f64 0) tol tol conlim8 None false None
                 (fresh [[f64 1]])) as [r w'| |] eqn:E;
    [|vm_compute in E; discriminate E..].
  apply (@lsmr_returns_new_x _ _ 5 two1 0%nat (f64 0) tol tol conlim8 None
           false (fresh [[f64 1]]) r w').
  - vm_compute. lia.
  - exact E.
Defined.

(** an exact guess, for the identity on the reals and [b = x0 = [1]] *)
Lemma lsmr_exact_guess_witness :
  exists r w2,
    lsmr 5 real_eye1 0 (ER 0) (ER 0) (ER 0) (ER 0) None false (Some 1%nat)
         (fresh [[ER 1]; [ER 1]]) = Ok r w2 /\
    itn_of r = 0%Z /\
    x_of r = 1%nat /\
    cell w2 1 = cell (fresh [[ER 1]; [ER 1]]) 1.
Proof.
  apply (@lsmr_exact_guess 5 real_eye1 0%nat (ER 0) (ER 0) (ER 0) (ER 0) None
           false 1%nat (fresh [[ER 1]; [ER 1]])).
  - cbn. lia.
  - cbn. lia.
  - repeat constructor. exists 1%R. reflexivity.
  - reflexivity.
Defined.

(** the exception of a call on [A = [[1]]] with [b] of length 2 *)
Lemma lsmr_exceptions_witness :
  match lsmr 5 eye1 0 (f64 0) tol tol conlim8 None true None
             (fresh [[f64 0; f64 2]]) with
  | Raise e w' =>
    e <> NameError /\
    (e = IndexError -> true = true) /\
    (e = RuntimeError \/ e = OperatorError \/ e = IndexError)
  | _ => False
  end.
Proof.
  destruct (lsmr 5 eye1 0 (f64 0) tol tol conlim8 None true None
                 (fresh [[f64 0; f64 2]])) as [|e w'|] eqn:E;
    [vm_compute in E; discriminate E| |vm_compute in E; discriminate E].
  exact (@lsmr_exceptions _ _ 5 eye1 0%nat (f64 0) tol tol conlim8 None true
           None (fresh [[f64 0; f64 2]]) e w' E).
Defined.

(** a call that fails after a pass has written [x0]: [A = diag(1, 2)]
    with a [matvec] that raises on a negative component, [b = [1, 1]],
    [x0 = [0, 0]] and a third tensor [[7]] of the caller.  The product of
    the second pass raises; [x0] has received the step of the first
    pass, [b] and the third tensor hold their values. *)
Lemma lsmr_failure_keeps_data_witness :
  match lsmr 5 picky 0 (f64 0) tol tol conlim8 None false (Some 1%nat)
             (fresh [[f64 1; f64 1]; [f64 0; f64 0]; [f64 7]]) with
  | Raise e w' =>
    ((forall l',
         l' < length (heap (fresh [[f64 1; f64 1]; [f64 0; f64 0]; [f64 7]])) ->
         Some 1%nat <> Some l' ->
         cell w' l'
         = cell (fresh [[f64 1; f64 1]; [f64 0; f64 0]; [f64 7]]) l') /\
     (Some 1%nat <> Some 0%nat ->
      cell w' 0
      = cell (fresh [[f64 1; f64 1]; [f64 0; f64 0]; [f64 7]]) 0)) /\
    e = OperatorError /\
    matvecs (calls w') = 3 /\
    (exists a1 a2, cell w' 1 = [a1; a2] /\
                   PrimFloat.ltb (f64 0) a1 = true /\
                   PrimFloat.ltb (f64 0) a2 = true) /\
    cell w' 0 = [f64 1; f64 1] /\ cell w' 2 = [f64 7]
  | _ => False
  end.
Proof.
  destruct (lsmr 5 picky 0 (f64 0) tol tol conlim8 None false (Some 1%nat)
                 (fresh [[f64 1; f64 1]; [f64 0; f64 0]; [f64 7]]))
    as [|e w'|] eqn:E;
    [vm_compute in E; discriminate E| |vm_compute in E; discriminate E].
  split.
  - apply (@lsmr_failure_keeps_data _ _ 5 picky 0%nat (f64 0) tol tol conlim8
             None false (Some 1%nat)
             (fresh [[f64 1; f64 1]; [f64 0; f64 0]; [f64 7]]) e w').
    + vm_compute. lia.
    + vm_compute. lia.
    + exact E.
  - vm_compute in E. injection E as <- <-.
    split; [reflexivity|]. split; [reflexivity|].
    split; [|split; reflexivity].
    eexists. eexists. split; [reflexivity|]. split; reflexivity.
Defined.

(** the two rotations in binary64 for [a = 4] and [b = 3], outside the
    branch [|b| > |a|] *)
Lemma sym_ortho_agrees_with_scalar_witness :
  (Sc.eqb (f64 3) Sc.zero = true \/ Sc.eqb (f64 4) Sc.zero = true \/
   Sc.gtb (Sc.abs (f64 3)) (Sc.abs (f64 4)) = false) /\
  _sym_ortho (f64 4) (f64 3) = sym_ortho_scalar (f64 4) (f64 3).
Proof.
  assert (H : Sc.eqb (f64 3) Sc.zero = true \/ Sc.eqb (f64 4) Sc.zero = true \/
              Sc.gtb (Sc.abs (f64 3)) (Sc.abs (f64 4)) = false)
    by (right; right; vm_compute; reflexivity).
  split; [exact H|].
  exact (proj2 sym_ortho_agrees_with_scalar _ _ (f64 4) (f64 3) H).
Defined.
